(** * item_39_queue.py: queues, workers and the staged pipeline

    A shallow embedding of [src/item_39_queue.py].  Threads are small state
    machines whose atomic steps are the operations on the shared queues; a
    run of the program is an interleaving of such steps, chosen by an
    arbitrary scheduler. *)

From Stdlib Require Import List Arith Lia Bool ZArith.
From Stdlib Require String.
Import ListNotations.

(** ** Python values *)

(** An object reference.  [oid] is the identity of the object (what [is]
    compares, the value of [id(x)]), [oval] is what [==] compares.  For a
    plain [object()] the two coincide, a user class may define [__eq__] as
    it likes. *)
Record pyobj : Type := mkObj { oid : nat; oval : Z }.

Definition py_is (a b : pyobj) : bool := oid a =? oid b.
Definition py_eq (a b : pyobj) : bool := (oval a =? oval b)%Z.

(** [object()]: the object allocated when [n] objects exist already. *)
Definition object (n : nat) : pyobj := mkObj n (Z.of_nat n).

Inductive exn : Type :=
| IndexError
| ValueError
| OtherError (code : nat).

Inductive result (A : Type) : Type :=
| Ok (a : A)
| Raise (e : exn).
Arguments Ok {A} a.
Arguments Raise {A} e.

(** ** The stand-in transforms (lines 15-24) *)

Definition download (item : pyobj) : result pyobj := Ok item.
Definition resize (item : pyobj) : result pyobj := Ok item.
Definition upload (item : pyobj) : result pyobj := Ok item.

(** ** [MyQueue] (lines 27-38): a deque behind a lock

    Each method body runs under [self.lock], hence is one atomic step. *)
Module MyQueue.

Record t : Type := mk { items : list pyobj }.

Definition init : t := mk [].

Definition put (q : t) (item : pyobj) : t := mk (items q ++ [item]).

(** [deque.popleft] raises [IndexError] on an empty deque. *)
Definition get (q : t) : result (pyobj * t) :=
  match items q with
  | [] => Raise IndexError
  | x :: rest => Ok (x, mk rest)
  end.

End MyQueue.

(** ** [queue.Queue] of the Python library

    The part of its state the program depends on: the capacity given to the
    constructor ([0], the default, is unbounded), the buffered items and the
    count of unfinished tasks.  An operation that would block has no result
    ([None]): the calling thread cannot take the step. *)
Module Queue.

Record t : Type := mk { maxsize : nat; buf : list pyobj; unfinished_tasks : nat }.

Definition init (maxsize : nat) : t := mk maxsize [] 0.

Definition full (q : t) : bool :=
  (0 <? maxsize q) && (maxsize q <=? length (buf q)).

Definition put (q : t) (item : pyobj) : option t :=
  if full q then None
  else Some (mk (maxsize q) (buf q ++ [item]) (S (unfinished_tasks q))).

Definition get (q : t) : option (pyobj * t) :=
  match buf q with
  | [] => None
  | x :: rest => Some (x, mk (maxsize q) rest (unfinished_tasks q))
  end.

(** [task_done] raises [ValueError] when called more often than [put]. *)
Definition task_done (q : t) : result t :=
  match unfinished_tasks q with
  | 0 => Raise ValueError
  | S n => Ok (mk (maxsize q) (buf q) n)
  end.

(** [join] returns once no task is unfinished. *)
Definition join (q : t) : option unit :=
  if unfinished_tasks q =? 0 then Some tt else None.

Definition qsize (q : t) : nat := length (buf q).

End Queue.

(** ** [ClosableQueue] (lines 148-162)

    One [SENTINEL] object is created when the class body runs, before any
    other object of the program. *)
Module ClosableQueue.

Definition SENTINEL : pyobj := object 0.

(** [ClosableQueue()]: the inherited constructor, no capacity given. *)
Definition init : Queue.t := Queue.init 0.

Definition close (q : Queue.t) : option Queue.t := Queue.put q SENTINEL.

Definition is_sentinel (item : pyobj) : bool := py_is item SENTINEL.

End ClosableQueue.

(** The module-level queues of lines 11-12. *)
Definition queue : Queue.t := Queue.init 1.
Definition in_queue : Queue.t := Queue.init 0.

(** ** What a thread does in one atomic step *)
Inductive event : Type :=
| EGet (item : pyobj)        (* a [get] returned [item] *)
| EGetEmpty                  (* [MyQueue.get] raised [IndexError] *)
| ECall (item : pyobj)       (* the transform was called on [item] *)
| EPut (item : pyobj)        (* [item] was appended to a queue *)
| ETaskDone                  (* [task_done] was called *)
| EJoin                      (* a [join] returned *)
| ESleep (ms : nat)          (* [time.sleep], in milliseconds *)
| ECount                     (* a counter of the thread was incremented *)
| ETau                       (* a step inside the thread: a test, an assignment *)
| EStdout (n : nat).         (* [print] of a count *)

(** Reading a thread's trace. *)
Definition is_get (ev : event) : bool :=
  match ev with EGet _ => true | _ => false end.

Definition is_task_done (ev : event) : bool :=
  match ev with ETaskDone => true | _ => false end.

Definition count (p : event -> bool) (tr : list event) : nat :=
  length (filter p tr).

(** The items handed to the transform, in order. *)
Definition calls (tr : list event) : list pyobj :=
  flat_map (fun ev => match ev with ECall x => [x] | _ => [] end) tr.

(** The items put, in order. *)
Definition outputs (tr : list event) : list pyobj :=
  flat_map (fun ev => match ev with EPut x => [x] | _ => [] end) tr.

(** ** The pipeline of [example_five] (lines 165-201) *)
Module Pipeline.

(** The four local queues of [example_five]; threads share them by name. *)
Inductive qname : Type := download_queue | resize_queue | upload_queue | done_queue.

Definition qname_eqb (a b : qname) : bool :=
  match a, b with
  | download_queue, download_queue | resize_queue, resize_queue
  | upload_queue, upload_queue | done_queue, done_queue => true
  | _, _ => false
  end.

Definition store : Type := qname -> Queue.t.

Definition upd (Q : store) (n : qname) (q : Queue.t) : store :=
  fun m => if qname_eqb m n then q else Q m.

(** Where a [StoppableWorker] stands: [run]'s [for] statement with the
    generator of [ClosableQueue.__iter__] running inside it.  A step is one
    operation on a queue or one call of the transform; what follows the last
    [task_done], the return of the generator and of [run], touches no queue
    and is not a step of its own. *)
Inductive wpc : Type :=
| WGet                    (* generator at [item = self.get()] *)
| WYield (item : pyobj)   (* generator suspended at [yield item]; [run] is about to call [func] *)
| WPut (r : pyobj)        (* [run] at [self.out_queue.put(result)] *)
| WResume                 (* generator resumed: the [finally] clause of this round *)
| WReturn                 (* sentinel seen: [return] passes through [finally] *)
| WUnwind (e : exn)       (* [e] leaves the loop body; the abandoned generator is
                             finalised, which runs its [finally] clause *)
| WExited                 (* past the sentinel's [task_done]: [run] returns *)
| WFailed (e : exn).      (* [run] was terminated by [e] *)

Section Worker.
(** The fields of a [StoppableWorker]. *)
Variable func : pyobj -> result pyobj.
Variables in_q out_q : qname.

Definition worker_step (pc : wpc) (Q : store) : option (event * wpc * store) :=
  match pc with
  | WGet =>
      match Queue.get (Q in_q) with
      | None => None
      | Some (item, q') =>
          Some (EGet item,
                (if ClosableQueue.is_sentinel item then WReturn else WYield item),
                upd Q in_q q')
      end
  | WYield item =>
      match func item with
      | Ok r => Some (ECall item, WPut r, Q)
      | Raise e => Some (ECall item, WUnwind e, Q)
      end
  | WPut r =>
      match Queue.put (Q out_q) r with
      | None => None
      | Some q' => Some (EPut r, WResume, upd Q out_q q')
      end
  | WResume =>
      match Queue.task_done (Q in_q) with
      | Ok q' => Some (ETaskDone, WGet, upd Q in_q q')
      | Raise e => Some (ETaskDone, WFailed e, Q)
      end
  | WReturn =>
      match Queue.task_done (Q in_q) with
      | Ok q' => Some (ETaskDone, WExited, upd Q in_q q')
      | Raise e => Some (ETaskDone, WFailed e, Q)
      end
  | WUnwind e =>
      match Queue.task_done (Q in_q) with
      | Ok q' => Some (ETaskDone, WFailed e, upd Q in_q q')
      | Raise _ => Some (ETaskDone, WFailed e, Q)
      end
  | WExited | WFailed _ => None
  end.

(** The worker running alone for at most [fuel] steps. *)
Fixpoint run_worker (fuel : nat) (pc : wpc) (Q : store) : list event * wpc * store :=
  match fuel with
  | 0 => ([], pc, Q)
  | S fuel' =>
      match worker_step pc Q with
      | None => ([], pc, Q)
      | Some (ev, pc', Q') =>
          let '(tr, pc'', Q'') := run_worker fuel' pc' Q' in
          (ev :: tr, pc'', Q'')
      end
  end.
End Worker.

(** The three threads of the list [threads], by the stage they run. *)
Inductive stage : Type := Sdownload | Sresize | Supload.

Definition in_queue_of (st : stage) : qname :=
  match st with
  | Sdownload => download_queue | Sresize => resize_queue | Supload => upload_queue
  end.

Definition out_queue_of (st : stage) : qname :=
  match st with
  | Sdownload => resize_queue | Sresize => upload_queue | Supload => done_queue
  end.

(** The transforms [example_five] hands to its workers. *)
Definition source_funcs (st : stage) : pyobj -> result pyobj :=
  match st with
  | Sdownload => download | Sresize => resize | Supload => upload
  end.

(** The statements of the main thread. *)
Inductive cmd : Type :=
| CPut (q : qname)       (* [q.put(object())] *)
| CClose (q : qname)     (* [q.close()] *)
| CJoin (q : qname)      (* [q.join()] *)
| CPrintSize (q : qname). (* [print(q.qsize(), ' items finished')] *)

(** Lines 193-201. *)
Definition shutdown_script : list cmd :=
  [ CClose download_queue; CJoin download_queue;
    CClose resize_queue; CClose resize_queue; CJoin resize_queue;
    CClose upload_queue; CJoin upload_queue;
    CPrintSize done_queue ].

(** Lines 191-201, with [n] for the literal 1000. *)
Definition script (n : nat) : list cmd :=
  repeat (CPut download_queue) n ++ shutdown_script.

Record State : Type := mkState {
  queues : store;
  workers : stage -> wpc;
  main : list cmd;          (* what the main thread has left to run *)
  next_id : nat;            (* identity of the next allocated object *)
  stdout : list nat
}.

Definition stage_eqb (a b : stage) : bool :=
  match a, b with
  | Sdownload, Sdownload | Sresize, Sresize | Supload, Supload => true
  | _, _ => false
  end.

Definition updw (W : stage -> wpc) (st : stage) (pc : wpc) : stage -> wpc :=
  fun st' => if stage_eqb st' st then pc else W st'.

(** The state after lines 179-190: queues built, workers started. *)
Definition init (n : nat) : State :=
  mkState (fun _ => ClosableQueue.init) (fun _ => WGet) (script n) 1 [].

Definition main_step (s : State) : option (event * State) :=
  match main s with
  | [] => None
  | CPut q :: rest =>
      let item := object (next_id s) in
      match Queue.put (queues s q) item with
      | None => None
      | Some q' =>
          Some (EPut item,
                mkState (upd (queues s) q q') (workers s) rest (S (next_id s)) (stdout s))
      end
  | CClose q :: rest =>
      match ClosableQueue.close (queues s q) with
      | None => None
      | Some q' =>
          Some (EPut ClosableQueue.SENTINEL,
                mkState (upd (queues s) q q') (workers s) rest (next_id s) (stdout s))
      end
  | CJoin q :: rest =>
      match Queue.join (queues s q) with
      | None => None
      | Some _ =>
          Some (EJoin, mkState (queues s) (workers s) rest (next_id s) (stdout s))
      end
  | CPrintSize q :: rest =>
      let n := Queue.qsize (queues s q) in
      Some (EStdout n,
            mkState (queues s) (workers s) rest (next_id s) (stdout s ++ [n]))
  end.

Inductive tid : Type := Main | T (st : stage).

Section System.
Variable funcs : stage -> pyobj -> result pyobj.

(** One step of thread [t]; [None] when [t] is blocked or has ended. *)
Definition step (t : tid) (s : State) : option (event * State) :=
  match t with
  | Main => main_step s
  | T st =>
      match worker_step (funcs st) (in_queue_of st) (out_queue_of st)
                        (workers s st) (queues s) with
      | None => None
      | Some (ev, pc', Q') =>
          Some (ev, mkState Q' (updw (workers s) st pc') (main s) (next_id s) (stdout s))
      end
  end.

(** The states and traces the scheduler can produce from [s0]. *)
Inductive reach (s0 : State) : list (tid * event) -> State -> Prop :=
| reach_nil : reach s0 [] s0
| reach_snoc tr s t ev s' :
    reach s0 tr s -> step t s = Some (ev, s') -> reach s0 (tr ++ [(t, ev)]) s'.

(** Running a given schedule; a thread that cannot step loses its turn. *)
Fixpoint exec (sched : list tid) (s : State) : list (tid * event) * State :=
  match sched with
  | [] => ([], s)
  | t :: sched' =>
      match step t s with
      | None => exec sched' s
      | Some (ev, s') =>
          let '(tr, s'') := exec sched' s' in ((t, ev) :: tr, s'')
      end
  end.
End System.

Definition reachable (n : nat) (s : State) : Prop :=
  exists tr, reach source_funcs (init n) tr s.

(** A schedule that gives every thread its turn, [k] rounds long. *)
Definition round_robin (k : nat) : list tid :=
  concat (repeat [Main; T Sdownload; T Sresize; T Supload] k).

(** *** Reading traces *)

Definition tid_eqb (a b : tid) : bool :=
  match a, b with
  | Main, Main => true
  | T x, T y => stage_eqb x y
  | _, _ => false
  end.

(** What thread [t] did, in order. *)
Definition by_thread (t : tid) (tr : list (tid * event)) : list event :=
  map snd (filter (fun te => tid_eqb (fst te) t) tr).

(** One round of the loop of [run] for each of [items], when the transform
    returns [g item]. *)
Definition item_events (g : pyobj -> pyobj) (items : list pyobj) : list event :=
  flat_map (fun x => [EGet x; ECall x; EPut (g x); ETaskDone]) items.

(** [Q1] is [Q] after a worker that reads [in_q] and writes [out_q] has
    taken and marked done [k] objects, leaving [tl] buffered, and has put
    [outs]. *)
Definition moved (in_q out_q : qname) (Q Q1 : store) (k : nat)
           (tl outs : list pyobj) : Prop :=
  Q1 in_q = Queue.mk (Queue.maxsize (Q in_q)) tl (Queue.unfinished_tasks (Q in_q) - k)
  /\ Q1 out_q = Queue.mk 0 (Queue.buf (Q out_q) ++ outs)
                         (Queue.unfinished_tasks (Q out_q) + length outs)
  /\ forall q, qname_eqb q in_q = false -> qname_eqb q out_q = false -> Q1 q = Q q.

(** The queues, the workers and the main thread of [s], spelled out. *)
Definition at_state (s : State) (d r u o : Queue.t) (w1 w2 w3 : wpc)
           (m : list cmd) : Prop :=
  queues s download_queue = d /\ queues s resize_queue = r
  /\ queues s upload_queue = u /\ queues s done_queue = o
  /\ workers s Sdownload = w1 /\ workers s Sresize = w2 /\ workers s Supload = w3
  /\ main s = m.

(** The schedule that feeds [n] items, closes [download_queue], lets the
    download worker finish, runs the main thread up to line 198, lets the
    resize worker finish and the upload worker forward every item. *)
Definition delivering_schedule (n : nat) : list tid :=
  repeat Main n ++ [Main] ++ repeat (T Sdownload) (4 * n + 2)
  ++ [Main] ++ [Main] ++ [Main] ++ repeat (T Sresize) (4 * n + 2)
  ++ repeat (T Supload) (4 * n).

(** *** Accounting *)

Definition count_sentinel (l : list pyobj) : nat :=
  length (filter ClosableQueue.is_sentinel l).

(** The items of a buffer that are not the sentinel. *)
Definition payload (l : list pyobj) : list pyobj :=
  filter (fun x => negb (ClosableQueue.is_sentinel x)) l.

(** 1 while the worker holds a dequeued item it has not marked done. *)
Definition in_hand (pc : wpc) : nat :=
  match pc with
  | WYield _ | WPut _ | WResume | WReturn | WUnwind _ => 1
  | WGet | WExited | WFailed _ => 0
  end.

(** 1 once the worker has dequeued the sentinel. *)
Definition saw_sentinel (pc : wpc) : nat :=
  match pc with
  | WReturn | WExited => 1
  | _ => 0
  end.

(** The item a worker has taken and not yet forwarded. *)
Definition held (pc : wpc) : list pyobj :=
  match pc with
  | WYield x | WPut x => [x]
  | _ => []
  end.

Fixpoint closes_left (q : qname) (l : list cmd) : nat :=
  match l with
  | [] => 0
  | CClose q' :: l' => (if qname_eqb q' q then 1 else 0) + closes_left q l'
  | _ :: l' => closes_left q l'
  end.

(** Lines 198-201: what is left from [resize_queue.join()] on. *)
Definition from_second_join : list cmd :=
  [ CJoin resize_queue; CClose upload_queue; CJoin upload_queue;
    CPrintSize done_queue ].

(** The main thread is feeding, or between line 193 and line 198. *)
Definition main_shape (n : nat) (s : State) : Prop :=
  (exists k, main s = repeat (CPut download_queue) k ++ shutdown_script
             /\ next_id s + k = S n /\ k <= n)
  \/
  (next_id s = S n /\
   exists pre,
     In pre [ [CJoin download_queue; CClose resize_queue; CClose resize_queue];
              [CClose resize_queue; CClose resize_queue];
              [CClose resize_queue];
              [] ]
     /\ main s = pre ++ from_second_join).

(** The objects the main thread has fed so far, oldest first. *)
Definition fed (s : State) : list pyobj := map object (seq 1 (next_id s - 1)).

(** Every item in the pipeline, from the most to the least advanced. *)
Definition in_flight (s : State) : list pyobj :=
  payload (Queue.buf (queues s done_queue))
  ++ held (workers s Supload) ++ payload (Queue.buf (queues s upload_queue))
  ++ held (workers s Sresize) ++ payload (Queue.buf (queues s resize_queue))
  ++ held (workers s Sdownload) ++ payload (Queue.buf (queues s download_queue)).

Record inv (n : nat) (s : State) : Prop := mkInv {
  inv_unfinished : forall st,
    Queue.unfinished_tasks (queues s (in_queue_of st))
    = length (Queue.buf (queues s (in_queue_of st))) + in_hand (workers s st);
  inv_sentinels :
    count_sentinel (Queue.buf (queues s resize_queue))
    + saw_sentinel (workers s Sresize)
    + closes_left resize_queue (main s) = 2;
  inv_items : forall st x,
    In x (held (workers s st)) -> ClosableQueue.is_sentinel x = false;
  inv_unbounded : forall qn, Queue.maxsize (queues s qn) = 0;
  inv_main : main_shape n s;
  inv_done : count_sentinel (Queue.buf (queues s done_queue)) = 0;
  inv_flow : in_flight s = fed s;
  inv_stdout : stdout s = [];
  inv_upload :
    count_sentinel (Queue.buf (queues s upload_queue))
    + saw_sentinel (workers s Supload) = 0
}.

End Pipeline.

(** ** The polling pipeline of [example_one] (lines 41-83) *)
Module Polling.

Inductive qname : Type := download_queue | resize_queue | upload_queue | done_queue.

Definition qname_eqb (a b : qname) : bool :=
  match a, b with
  | download_queue, download_queue | resize_queue, resize_queue
  | upload_queue, upload_queue | done_queue, done_queue => true
  | _, _ => false
  end.

Definition store : Type := qname -> MyQueue.t.

Definition upd (Q : store) (n : qname) (q : MyQueue.t) : store :=
  fun m => if qname_eqb m n then q else Q m.

(** Where a [Worker] stands in the [while True] loop of [run]. *)
Inductive wpc : Type :=
| PCount                  (* [self.polled_count += 1] *)
| PGet                    (* [item = self.in_queue.get()] inside [try] *)
| PSleep                  (* [except IndexError: time.sleep(0.01)] *)
| PCall (item : pyobj)    (* [else: result = self.func(item)] *)
| PPut (r : pyobj)        (* [self.out_queue.put(result)] *)
| PDone                   (* [self.work_done += 1] *)
| PFailed (e : exn).      (* an exception left the loop: [run] is over *)

Record Worker : Type := mkWorker { pc : wpc; polled_count : nat; work_done : nat }.

Section Worker.
Variable func : pyobj -> result pyobj.
Variables in_q out_q : qname.

Definition worker_step (w : Worker) (Q : store) : option (event * Worker * store) :=
  match pc w with
  | PCount => Some (ECount, mkWorker PGet (S (polled_count w)) (work_done w), Q)
  | PGet =>
      match MyQueue.get (Q in_q) with
      | Raise IndexError =>
          Some (EGetEmpty, mkWorker PSleep (polled_count w) (work_done w), Q)
      | Raise e =>
          Some (EGetEmpty, mkWorker (PFailed e) (polled_count w) (work_done w), Q)
      | Ok (item, q') =>
          Some (EGet item, mkWorker (PCall item) (polled_count w) (work_done w),
                upd Q in_q q')
      end
  | PSleep => Some (ESleep 10, mkWorker PCount (polled_count w) (work_done w), Q)
  | PCall item =>
      match func item with
      | Ok r => Some (ECall item, mkWorker (PPut r) (polled_count w) (work_done w), Q)
      | Raise e => Some (ECall item, mkWorker (PFailed e) (polled_count w) (work_done w), Q)
      end
  | PPut r =>
      Some (EPut r, mkWorker PDone (polled_count w) (work_done w),
            upd Q out_q (MyQueue.put (Q out_q) r))
  | PDone => Some (ECount, mkWorker PCount (polled_count w) (S (work_done w)), Q)
  | PFailed _ => None
  end.
End Worker.

Inductive stage : Type := Sdownload | Sresize | Supload.

Definition stage_eqb (a b : stage) : bool :=
  match a, b with
  | Sdownload, Sdownload | Sresize, Sresize | Supload, Supload => true
  | _, _ => false
  end.

Definition in_queue_of (st : stage) : qname :=
  match st with
  | Sdownload => download_queue | Sresize => resize_queue | Supload => upload_queue
  end.

Definition out_queue_of (st : stage) : qname :=
  match st with
  | Sdownload => resize_queue | Sresize => upload_queue | Supload => done_queue
  end.

Definition source_funcs (st : stage) : pyobj -> result pyobj :=
  match st with
  | Sdownload => download | Sresize => resize | Supload => upload
  end.

(** Where the main thread stands in [example_one]. *)
Inductive mpc : Type :=
| MFeed (left : nat)                   (* the loop of [download_queue.put(object())] *)
| MWait                                (* [while len(done_queue.items) < n] *)
| MSleep                               (* [time.sleep(0.1)] *)
| MProcessed                           (* [processed = len(done_queue.items)] *)
| MPolled (processed : nat) (todo : list stage) (acc : nat)
                                       (* [sum(t.polled_count for t in threads)] *)
| MPrint (processed polled : nat)
| MEnd.

Record State : Type := mkState {
  queues : store;
  workers : stage -> Worker;
  main : mpc;
  next_id : nat;
  stdout : list (nat * nat)
}.

Definition updw (W : stage -> Worker) (st : stage) (w : Worker) : stage -> Worker :=
  fun st' => if stage_eqb st' st then w else W st'.

(** After lines 64-74, with [n] for the literal 1000. *)
Definition init (n : nat) : State :=
  mkState (fun _ => MyQueue.init) (fun _ => mkWorker PCount 0 0) (MFeed n) 1 [].

Definition main_step (n : nat) (s : State) : option (event * State) :=
  let goto pc := mkState (queues s) (workers s) pc (next_id s) (stdout s) in
  match main s with
  | MFeed 0 => Some (ETau, goto MWait)
  | MFeed (S k) =>
      let item := object (next_id s) in
      Some (EPut item,
            mkState (upd (queues s) download_queue
                         (MyQueue.put (queues s download_queue) item))
                    (workers s) (MFeed k) (S (next_id s)) (stdout s))
  | MWait =>
      if length (MyQueue.items (queues s done_queue)) <? n
      then Some (ETau, goto MSleep)
      else Some (ETau, goto MProcessed)
  | MSleep => Some (ESleep 100, goto MWait)
  | MProcessed =>
      Some (ETau,
            goto (MPolled (length (MyQueue.items (queues s done_queue)))
                          [Sdownload; Sresize; Supload] 0))
  | MPolled p [] acc => Some (ETau, goto (MPrint p acc))
  | MPolled p (st :: todo) acc =>
      Some (ETau, goto (MPolled p todo (acc + polled_count (workers s st))))
  | MPrint p polled =>
      Some (EStdout p,
            mkState (queues s) (workers s) MEnd (next_id s) (stdout s ++ [(p, polled)]))
  | MEnd => None
  end.

Inductive tid : Type := Main | T (st : stage).

Section System.
Variable funcs : stage -> pyobj -> result pyobj.
Variable n : nat.

Definition step (t : tid) (s : State) : option (event * State) :=
  match t with
  | Main => main_step n s
  | T st =>
      match worker_step (funcs st) (in_queue_of st) (out_queue_of st)
                        (workers s st) (queues s) with
      | None => None
      | Some (ev, w', Q') =>
          Some (ev, mkState Q' (updw (workers s) st w') (main s) (next_id s) (stdout s))
      end
  end.

Inductive reach (s0 : State) : list (tid * event) -> State -> Prop :=
| reach_nil : reach s0 [] s0
| reach_snoc tr s t ev s' :
    reach s0 tr s -> step t s = Some (ev, s') -> reach s0 (tr ++ [(t, ev)]) s'.

Fixpoint exec (sched : list tid) (s : State) : list (tid * event) * State :=
  match sched with
  | [] => ([], s)
  | t :: sched' =>
      match step t s with
      | None => exec sched' s
      | Some (ev, s') =>
          let '(tr, s'') := exec sched' s' in ((t, ev) :: tr, s'')
      end
  end.
End System.

Definition reachable (n : nat) (s : State) : Prop :=
  exists tr, reach source_funcs n (init n) tr s.

Definition tid_eqb (a b : tid) : bool :=
  match a, b with
  | Main, Main => true
  | T x, T y => stage_eqb x y
  | _, _ => false
  end.

(** What thread [t] did, in order. *)
Definition by_thread (t : tid) (tr : list (tid * event)) : list event :=
  map snd (filter (fun te => tid_eqb (fst te) t) tr).

(** The worker's [run] has not been ended by an exception. *)
Definition alive (w : Worker) : Prop := forall e, pc w <> PFailed e.

(** A schedule that gives every thread its turn, [k] rounds long. *)
Definition round_robin (k : nat) : list tid :=
  concat (repeat [Main; T Sdownload; T Sresize; T Supload] k).

End Polling.

(** ** Histories of one queue

    Under the lock of [MyQueue], and under the mutex of [queue.Queue], the
    calls of all threads on one queue happen one after the other. *)
Inductive qop : Type :=
| OpPut (item : pyobj)
| OpGet
| OpTaskDone.

(** A history on a [MyQueue]: the queue at the end and the items the [get]
    calls returned, in order; a [get] that raised returns nothing. *)
Fixpoint myqueue_run (ops : list qop) (q : MyQueue.t) : MyQueue.t * list pyobj :=
  match ops with
  | [] => (q, [])
  | OpPut x :: ops' => myqueue_run ops' (MyQueue.put q x)
  | OpGet :: ops' =>
      match MyQueue.get q with
      | Ok (x, q') => let '(qf, got) := myqueue_run ops' q' in (qf, x :: got)
      | Raise _ => myqueue_run ops' q
      end
  | OpTaskDone :: ops' => myqueue_run ops' q
  end.

(** A history of completed calls on a [queue.Queue].  A call that would
    block cannot be the next completed call: such a list is no history
    ([None]).  A [task_done] that raises leaves the queue as it was. *)
Fixpoint queue_run (ops : list qop) (q : Queue.t) : option (Queue.t * list pyobj) :=
  match ops with
  | [] => Some (q, [])
  | OpPut x :: ops' =>
      match Queue.put q x with
      | Some q' => queue_run ops' q'
      | None => None
      end
  | OpGet :: ops' =>
      match Queue.get q with
      | Some (x, q') =>
          match queue_run ops' q' with
          | Some (qf, got) => Some (qf, x :: got)
          | None => None
          end
      | None => None
      end
  | OpTaskDone :: ops' =>
      match Queue.task_done q with
      | Ok q' => queue_run ops' q'
      | Raise _ => queue_run ops' q
      end
  end.

(** The items a history puts, in order. *)
Fixpoint puts_of (ops : list qop) : list pyobj :=
  match ops with
  | [] => []
  | OpPut x :: ops' => x :: puts_of ops'
  | _ :: ops' => puts_of ops'
  end.

(** ** Statements about histories *)

(** [puts] and [got] are in first-in first-out order: the item put as number
    [j] is retrieved only after (and at a later position than) the item put
    as number [i < j], and each [get] returns the item put at its own rank. *)
Definition fifo_history (puts got : list pyobj) : Prop :=
  forall i j a b,
    i < j ->
    nth_error puts i = Some a ->
    nth_error puts j = Some b ->
    j < length got ->
    nth_error got i = Some a /\ nth_error got j = Some b.

(** Every [put] made after a [close] is turned down. *)
Definition put_after_close_refused : Prop :=
  forall q q1 item,
    ClosableQueue.close q = Some q1 ->
    forall q2, Queue.put q1 item <> Some q2.

(** [MyQueue.get] on an empty buffer returns (rather than raises). *)
Definition get_empty_returns : Prop :=
  forall q, MyQueue.items q = [] -> exists r, MyQueue.get q = Ok r.

(** [q] is a bounded queue of capacity [c] that respects its bound. *)
Definition bounded_by (c : nat) (q : Queue.t) : Prop :=
  Queue.maxsize q = c /\ 0 < c /\ length (Queue.buf q) <= c.

(** Some capacity bounds the queues that connect two stages of
    [example_five], fed with [n] items. *)
Definition backpressure_bound (n : nat) : Prop :=
  exists c, forall s,
    Pipeline.reachable n s ->
    bounded_by c (Pipeline.queues s Pipeline.resize_queue)
    /\ bounded_by c (Pipeline.queues s Pipeline.upload_queue).

(** ** The two-thread examples on the module-level queues (lines 86-145)

    [consumer], [example_two], [example_three], [consumer_four] and
    [example_four]: a main thread and the one thread it starts, both
    straight-line code on [queue] and [in_queue]. *)
Module Handoff.

Import String.StringSyntax.
Local Open Scope string_scope.

(** The module-level queues of lines 11-12. *)
Inductive gq : Type := Gqueue | Gin_queue.

(** The functions a thread is started on. *)
Inductive target : Type := Tconsumer | Tconsumer_four.

Inductive cmd : Type :=
| KStart (f : target)            (* [Thread(target=f).start()] *)
| KSleep (ms : nat)              (* [time.sleep], in milliseconds *)
| KPut (q : gq)                  (* [q.put(object())] *)
| KGet (q : gq)                  (* [q.get()] *)
| KTaskDone (q : gq)             (* [q.task_done()] *)
| KJoinQueue (q : gq)            (* [q.join()] *)
| KJoinThread                    (* [thread.join()] *)
| KPrint (msg : String.string).  (* [print(msg)] *)

(** Lines 86-91. *)
Definition consumer : list cmd :=
  [ KSleep 100; KGet Gqueue; KPrint "Consumer got 1";
    KGet Gqueue; KPrint "Consumer got 2" ].

(** Lines 123-129. *)
Definition consumer_four : list cmd :=
  [ KPrint "Consumer waiting"; KGet Gin_queue; KPrint "Consumer Working";
    KPrint "Consumer done"; KTaskDone Gin_queue ].

Definition code_of (f : target) : list cmd :=
  match f with
  | Tconsumer => consumer
  | Tconsumer_four => consumer_four
  end.

(** Lines 102-108. *)
Definition example_two : list cmd :=
  [ KStart Tconsumer; KPrint "Producer putting"; KPut Gqueue;
    KJoinThread; KPrint "Producer done" ].

(** Lines 112-120. *)
Definition example_three : list cmd :=
  [ KStart Tconsumer; KPut Gqueue; KPrint "Producer put 1";
    KPut Gqueue; KPrint "Producer put 2"; KJoinThread; KPrint "Producer done" ].

(** Lines 141-145. *)
Definition example_four : list cmd :=
  [ KStart Tconsumer_four; KPut Gin_queue; KPrint "Producer waiting";
    KJoinQueue Gin_queue; KPrint "Producer done" ].

(** A thread: not started, running with the code it has left (none once it
    is past its last statement; its return is not a step of its own), or
    ended by an exception. *)
Inductive tstate : Type :=
| NotStarted
| Running (code : list cmd)
| Failed (e : exn).

Definition ended (t : tstate) : bool :=
  match t with
  | Running [] | Failed _ => true
  | _ => false
  end.

Record State : Type := mkState {
  g_queue : Queue.t;             (* the module-level [queue] *)
  g_in_queue : Queue.t;          (* the module-level [in_queue] *)
  main : tstate;
  child : tstate;                (* the thread the main thread starts *)
  next_id : nat;
  stdout : list String.string
}.

Inductive tid : Type := Main | Child.

Inductive event : Type :=
| HStart (f : target)
| HSleep (ms : nat)
| HPut (q : gq) (item : pyobj)
| HGet (q : gq) (item : pyobj)
| HTaskDone (q : gq)
| HJoinQueue (q : gq)
| HJoinThread
| HPrint (msg : String.string).

Definition sel (s : State) (q : gq) : Queue.t :=
  match q with Gqueue => g_queue s | Gin_queue => g_in_queue s end.

Definition thread_of (t : tid) (s : State) : tstate :=
  match t with Main => main s | Child => child s end.

(** [s] with queue [q] replaced and thread [t] moved on to [ts]. *)
Definition next (s : State) (t : tid) (ts : tstate) (q : gq) (q' : Queue.t)
           (nid : nat) (out : list String.string) : State :=
  mkState (match q with Gqueue => q' | Gin_queue => g_queue s end)
          (match q with Gin_queue => q' | Gqueue => g_in_queue s end)
          (match t with Main => ts | Child => main s end)
          (match t with Child => ts | Main => child s end)
          nid out.

(** [s] with only thread [t] moved on to [ts]. *)
Definition goto (s : State) (t : tid) (ts : tstate) : State :=
  mkState (g_queue s) (g_in_queue s)
          (match t with Main => ts | Child => main s end)
          (match t with Child => ts | Main => child s end)
          (next_id s) (stdout s).

(** One statement of thread [t]; [None] when it is blocked, not started or
    has ended. *)
Definition step (t : tid) (s : State) : option (event * State) :=
  match thread_of t s with
  | Running (c :: rest) =>
      match c with
      | KStart f =>
          match t, child s with
          | Main, NotStarted =>
              Some (HStart f,
                    mkState (g_queue s) (g_in_queue s) (Running rest)
                            (Running (code_of f)) (next_id s) (stdout s))
          | _, _ => None
          end
      | KSleep ms => Some (HSleep ms, goto s t (Running rest))
      | KPut q =>
          let item := object (next_id s) in
          match Queue.put (sel s q) item with
          | None => None
          | Some q' =>
              Some (HPut q item, next s t (Running rest) q q' (S (next_id s)) (stdout s))
          end
      | KGet q =>
          match Queue.get (sel s q) with
          | None => None
          | Some (item, q') =>
              Some (HGet q item, next s t (Running rest) q q' (next_id s) (stdout s))
          end
      | KTaskDone q =>
          match Queue.task_done (sel s q) with
          | Ok q' =>
              Some (HTaskDone q, next s t (Running rest) q q' (next_id s) (stdout s))
          | Raise e => Some (HTaskDone q, goto s t (Failed e))
          end
      | KJoinQueue q =>
          match Queue.join (sel s q) with
          | None => None
          | Some _ => Some (HJoinQueue q, goto s t (Running rest))
          end
      | KJoinThread =>
          match t with
          | Main =>
              if ended (child s) then Some (HJoinThread, goto s t (Running rest))
              else None
          | Child => None
          end
      | KPrint msg =>
          Some (HPrint msg,
                next s t (Running rest) Gqueue (g_queue s) (next_id s)
                     (stdout s ++ [msg]))
      end
  | _ => None
  end.

(** The state when the main thread enters [code]: the queues as lines
    11-12 build them, one object (a sentinel class attribute) allocated. *)
Definition init (code : list cmd) : State :=
  mkState queue in_queue (Running code) NotStarted 1 [].

Inductive reach (s0 : State) : list (tid * event) -> State -> Prop :=
| reach_nil : reach s0 [] s0
| reach_snoc tr s t ev s' :
    reach s0 tr s -> step t s = Some (ev, s') -> reach s0 (tr ++ [(t, ev)]) s'.

(** Running a given schedule; a thread that cannot step loses its turn. *)
Fixpoint exec (sched : list tid) (s : State) : list (tid * event) * State :=
  match sched with
  | [] => ([], s)
  | t :: sched' =>
      match step t s with
      | None => exec sched' s
      | Some (ev, s') =>
          let '(tr, s'') := exec sched' s' in ((t, ev) :: tr, s'')
      end
  end.

(** The two threads in turn, [k] rounds long. *)
Definition alternate (k : nat) : list tid := concat (repeat [Main; Child] k).

(** Both threads have returned. *)
Definition finished (s : State) : Prop :=
  main s = Running [] /\ child s = Running [].

(** No thread has a step. *)
Definition stuck (s : State) : Prop := forall t, step t s = None.

(** The runs of exactly [k] steps from [s0], each with its final state. *)
Definition extend (n : list (tid * event) * State) : list (list (tid * event) * State) :=
  flat_map (fun t => match step t (snd n) with
                     | Some (ev, s') => [(fst n ++ [(t, ev)], s')]
                     | None => []
                     end) [Main; Child].

Fixpoint runs (s0 : State) (k : nat) : list (list (tid * event) * State) :=
  match k with
  | 0 => [([], s0)]
  | S k' => flat_map extend (runs s0 k')
  end.

(** The queue operations of a trace, in order. *)
Definition queue_ops (tr : list (tid * event)) : list event :=
  filter (fun ev => match ev with HPut _ _ | HGet _ _ => true | _ => false end)
         (map snd tr).

(** *** Deciding what a run shows *)

Definition pyobj_eq_dec (a b : pyobj) : {a = b} + {a <> b}.
Proof. decide equality; [apply Z.eq_dec | apply Nat.eq_dec]. Defined.

Definition event_eq_dec (a b : event) : {a = b} + {a <> b}.
Proof.
  decide equality;
    try apply String.string_dec; try apply Nat.eq_dec; try apply pyobj_eq_dec;
    decide equality.
Defined.

Definition cmd_eq_dec (a b : cmd) : {a = b} + {a <> b}.
Proof.
  decide equality;
    try apply String.string_dec; try apply Nat.eq_dec; decide equality.
Defined.

Definition tstate_eq_dec (a b : tstate) : {a = b} + {a <> b}.
Proof.
  decide equality; [apply (list_eq_dec cmd_eq_dec)|].
  decide equality. apply Nat.eq_dec.
Defined.

Definition lines_eq_dec : forall a b : list String.string, {a = b} + {a <> b} :=
  list_eq_dec String.string_dec.

Definition stuckb (s : State) : bool :=
  match step Main s, step Child s with
  | None, None => true
  | _, _ => false
  end.

Definition finishedb (s : State) : bool :=
  if tstate_eq_dec (main s) (Running []) then
    if tstate_eq_dec (child s) (Running []) then true else false
  else false.

Definition printed (msg : String.string) (s : State) : bool :=
  if in_dec String.string_dec msg (stdout s) then true else false.

(** [l1] is a prefix of [l2]. *)
Definition prefixb (l1 l2 : list event) : bool :=
  if list_eq_dec event_eq_dec l1 (firstn (length l1) l2) then true else false.

(** [P] holds of every run of at most [N] steps, and no run is longer. *)
Definition checkb (s0 : State) (N : nat)
           (P : list (tid * event) * State -> bool) : bool :=
  forallb (fun k => forallb P (runs s0 k)) (seq 0 (S N))
  && match runs s0 (S N) with [] => true | _ => false end.

(** A run of [k] steps that ends with both threads returned and [out]
    printed, if there is one. *)
Definition run_printing (s0 : State) (k : nat) (out : list String.string) :
  option (list (tid * event) * State) :=
  find (fun n => finishedb (snd n)
                 && (if lines_eq_dec (stdout (snd n)) out then true else false))
       (runs s0 k).

(** *** [example_three] *)

(** The order the comments of lines 88-90 and 115-117 give. *)
Definition three_ops : list event :=
  [ HPut Gqueue (object 1); HGet Gqueue (object 1);
    HPut Gqueue (object 2); HGet Gqueue (object 2) ].

Definition three_outputs : list (list String.string) :=
  [ ["Producer put 1"; "Producer put 2"; "Consumer got 1"; "Consumer got 2"; "Producer done"];
    ["Producer put 1"; "Consumer got 1"; "Producer put 2"; "Consumer got 2"; "Producer done"];
    ["Producer put 1"; "Consumer got 1"; "Consumer got 2"; "Producer put 2"; "Producer done"];
    ["Consumer got 1"; "Producer put 1"; "Producer put 2"; "Consumer got 2"; "Producer done"];
    ["Consumer got 1"; "Producer put 1"; "Consumer got 2"; "Producer put 2"; "Producer done"] ].

Definition three_ok (n : list (tid * event) * State) : bool :=
  (length (Queue.buf (g_queue (snd n))) <=? 1)
  && prefixb (queue_ops (fst n)) three_ops
  && (if stuckb (snd n)
      then finishedb (snd n)
           && (if in_dec lines_eq_dec (stdout (snd n)) three_outputs then true else false)
      else true).

(** *** [example_two] *)

Definition producer_done : String.string := "Producer done".

(** Where [example_two] stops: what each thread has left, and the output. *)
Definition two_main_left : list cmd := [KJoinThread; KPrint "Producer done"].
Definition two_child_left : list cmd := [KGet Gqueue; KPrint "Consumer got 2"].
Definition two_output : list String.string := ["Producer putting"; "Consumer got 1"].

Definition two_ok (n : list (tid * event) * State) : bool :=
  negb (printed producer_done (snd n))
  && negb (ended (child (snd n)))
  && (if stuckb (snd n)
      then (if tstate_eq_dec (main (snd n)) (Running two_main_left)
            then true else false)
           && (if tstate_eq_dec (child (snd n)) (Running two_child_left)
               then true else false)
           && (if lines_eq_dec (stdout (snd n)) two_output then true else false)
           && match Queue.buf (g_queue (snd n)) with [] => true | _ => false end
      else true).

(** *** [example_four] *)

(** The output the docstring of [example_four] shows (lines 134-139). *)
Definition four_docstring : list String.string :=
  ["Consumer waiting"; "Producer waiting"; "Consumer Working"; "Consumer done";
   "Producer done"].

Definition four_outputs : list (list String.string) :=
  [ ["Producer waiting"; "Consumer waiting"; "Consumer Working"; "Consumer done"; "Producer done"];
    four_docstring;
    ["Consumer waiting"; "Consumer Working"; "Producer waiting"; "Consumer done"; "Producer done"];
    ["Consumer waiting"; "Consumer Working"; "Consumer done"; "Producer waiting"; "Producer done"] ].

Definition consumer_done : String.string := "Consumer done".

(** The consumer's [in_queue.task_done()] is in the trace. *)
Definition task_marked (tr : list (tid * event)) : bool :=
  existsb (fun te => match te with
                     | (Child, HTaskDone Gin_queue) => true
                     | _ => false
                     end) tr.

(** The main thread's [in_queue.join()] has returned. *)
Definition join_returned (tr : list (tid * event)) : bool :=
  existsb (fun te => match te with
                     | (Main, HJoinQueue Gin_queue) => true
                     | _ => false
                     end) tr.

Definition four_ok (n : list (tid * event) * State) : bool :=
  (if join_returned (fst n) || printed producer_done (snd n)
   then task_marked (fst n)
        && printed consumer_done (snd n)
        && (Queue.unfinished_tasks (g_in_queue (snd n)) =? 0)
        && match Queue.buf (g_in_queue (snd n)) with [] => true | _ => false end
   else true)
  && (if stuckb (snd n)
      then finishedb (snd n)
           && (if in_dec lines_eq_dec (stdout (snd n)) four_outputs then true else false)
      else true).

End Handoff.

(** ** Accounting in the polling pipeline of [example_one] *)
Module PollingInv.
Import Polling.

(** The item a worker has taken and not yet put. *)
Definition held (w : Worker) : list pyobj :=
  match pc w with
  | PCall x | PPut x => [x]
  | _ => []
  end.

(** Every item in the pipeline, from the most to the least advanced. *)
Definition in_flight (s : State) : list pyobj :=
  MyQueue.items (queues s done_queue)
  ++ held (workers s Supload) ++ MyQueue.items (queues s upload_queue)
  ++ held (workers s Sresize) ++ MyQueue.items (queues s resize_queue)
  ++ held (workers s Sdownload) ++ MyQueue.items (queues s download_queue).

(** The objects the main thread has fed so far, oldest first. *)
Definition fed (s : State) : list pyobj := map object (seq 1 (next_id s - 1)).

(** The number of items worker [st] has dequeued so far: those it holds and
    those further down the pipeline. *)
Definition taken (st : stage) (s : State) : nat :=
  match st with
  | Supload =>
      length (MyQueue.items (queues s done_queue)) + length (held (workers s Supload))
  | Sresize =>
      length (MyQueue.items (queues s done_queue)) + length (held (workers s Supload))
      + length (MyQueue.items (queues s upload_queue))
      + length (held (workers s Sresize))
  | Sdownload =>
      length (MyQueue.items (queues s done_queue)) + length (held (workers s Supload))
      + length (MyQueue.items (queues s upload_queue))
      + length (held (workers s Sresize))
      + length (MyQueue.items (queues s resize_queue))
      + length (held (workers s Sdownload))
  end.

(** 1 when the worker has counted a poll whose [get] is still to come. *)
Definition polling (w : Worker) : nat :=
  match pc w with PGet => 1 | _ => 0 end.

(** 1 when the worker has put an item it has not counted as done yet. *)
Definition uncounted (w : Worker) : nat :=
  match pc w with PDone => 1 | _ => 0 end.

(** Where the main thread of [example_one] can be, and what it then knows. *)
Definition main_ok (n : nat) (s : State) : Prop :=
  let done := length (MyQueue.items (queues s done_queue)) in
  match main s with
  | MFeed k => next_id s + k = S n /\ k <= n /\ stdout s = []
  | MWait | MSleep => next_id s = S n /\ stdout s = []
  | MProcessed => next_id s = S n /\ stdout s = [] /\ n <= done
  | MPolled p todo acc =>
      next_id s = S n /\ stdout s = [] /\ n <= done /\ p = n
      /\ length todo <= 3 /\ n * (3 - length todo) <= acc
  | MPrint p polled =>
      next_id s = S n /\ stdout s = [] /\ n <= done /\ p = n /\ 3 * n <= polled
  | MEnd =>
      next_id s = S n /\ n <= done
      /\ exists polled, stdout s = [(n, polled)] /\ 3 * n <= polled
  end.

Record inv (n : nat) (s : State) : Prop := mkInv {
  inv_flow : in_flight s = fed s;
  inv_main : main_ok n s;
  inv_polled : forall st,
    taken st s + polling (workers s st) <= polled_count (workers s st);
  inv_work : forall st,
    work_done (workers s st) + uncounted (workers s st) + length (held (workers s st))
    = taken st s;
  inv_alive : forall st, alive (workers s st)
}.

End PollingInv.

(** ** Order and accounting in the pipeline of [example_five] *)
Module PipelineOrder.
Import Pipeline.

(** Payload first, then sentinels only: no item is buffered behind a
    sentinel. *)
Definition tail_sentinels (l : list pyobj) : Prop :=
  exists p k, l = p ++ repeat ClosableQueue.SENTINEL k /\ count_sentinel p = 0.

(** The worker has not been ended, and is not being ended, by an
    exception. *)
Definition sound (pc : wpc) : Prop :=
  match pc with
  | WUnwind _ | WFailed _ => False
  | _ => True
  end.

(** The items that have left the download stage, the most advanced first. *)
Definition past_download (s : State) : list pyobj :=
  payload (Queue.buf (queues s done_queue))
  ++ held (workers s Supload) ++ payload (Queue.buf (queues s upload_queue))
  ++ held (workers s Sresize) ++ payload (Queue.buf (queues s resize_queue)).

(** [download_queue] is done with: nothing is buffered, no task is
    unfinished, and its worker has dequeued the sentinel and called
    [task_done] for it, so that it holds nothing and its [for] loop takes no
    further item. *)
Definition download_drained (s : State) : Prop :=
  Queue.buf (queues s download_queue) = []
  /\ Queue.unfinished_tasks (queues s download_queue) = 0
  /\ saw_sentinel (workers s Sdownload) = 1
  /\ in_hand (workers s Sdownload) = 0
  /\ held (workers s Sdownload) = [].

Record inv (s : State) : Prop := mkInv {
  inv_download_sentinel :
    count_sentinel (Queue.buf (queues s download_queue))
    + saw_sentinel (workers s Sdownload)
    + closes_left download_queue (main s) = 1;
  inv_download_order : tail_sentinels (Queue.buf (queues s download_queue));
  inv_resize_order : tail_sentinels (Queue.buf (queues s resize_queue));
  inv_joined :
    In (CJoin download_queue) (main s) \/ workers s Sdownload = WExited;
  inv_download_drained :
    saw_sentinel (workers s Sdownload) = 1 ->
    Queue.buf (queues s download_queue) = [];
  inv_done_unfinished :
    Queue.unfinished_tasks (queues s done_queue)
    = length (Queue.buf (queues s done_queue));
  inv_sound : forall st, sound (workers s st)
}.

End PipelineOrder.

(** * Properties *)

(** ** One queue *)

Lemma myqueue_run_conserves ops :
  forall q qf got,
    myqueue_run ops q = (qf, got) ->
    got ++ MyQueue.items qf = MyQueue.items q ++ puts_of ops.
Proof.
  induction ops as [|op ops IH]; intros q qf got H; simpl in H.
  - inversion H; subst. simpl. now rewrite app_nil_r.
  - destruct op as [x| |]; simpl.
    + apply IH in H. simpl in H. now rewrite <- app_assoc in H.
    + unfold MyQueue.get in H. destruct (MyQueue.items q) as [|y rest] eqn:E.
      * apply IH in H. now rewrite E in H.
      * destruct (myqueue_run ops (MyQueue.mk rest)) as [qf' got'] eqn:R.
        inversion H; subst. apply IH in R. simpl in *. now rewrite R.
    + now apply IH.
Qed.

Lemma queue_run_conserves ops :
  forall q qf got,
    queue_run ops q = Some (qf, got) ->
    got ++ Queue.buf qf = Queue.buf q ++ puts_of ops.
Proof.
  induction ops as [|op ops IH]; intros q qf got H; simpl in H.
  - inversion H; subst. simpl. now rewrite app_nil_r.
  - destruct op as [x| |]; simpl.
    + unfold Queue.put in H. destruct (Queue.full q); [discriminate|].
      apply IH in H. simpl in H. now rewrite <- app_assoc in H.
    + unfold Queue.get in H. destruct (Queue.buf q) as [|y rest] eqn:E; [discriminate|].
      destruct (queue_run ops _) as [[qf' got']|] eqn:R; [|discriminate].
      inversion H; subst. apply IH in R. simpl in *. now rewrite R.
    + unfold Queue.task_done in H. destruct (Queue.unfinished_tasks q).
      * now apply IH.
      * apply IH in H. exact H.
Qed.

Lemma prefix_is_fifo puts got rest : got ++ rest = puts -> fifo_history puts got.
Proof.
  intros <- i j a b Hij Ha Hb Hj.
  rewrite nth_error_app1 in Ha by lia.
  rewrite nth_error_app1 in Hb by lia.
  now split.
Qed.

(** C7. On a [MyQueue] and on a [queue.Queue] (a [ClosableQueue] is one),
    whatever the history of calls: nothing is lost or repeated, the items
    retrieved followed by the items still buffered are the items put, in
    the order of the puts; hence an item put before another is retrieved
    before it. *)
Theorem fifo_order (ops : list qop) :
  (forall qf got,
      myqueue_run ops MyQueue.init = (qf, got) ->
      got ++ MyQueue.items qf = puts_of ops /\ fifo_history (puts_of ops) got)
  /\
  (forall c qf got,
      queue_run ops (Queue.init c) = Some (qf, got) ->
      got ++ Queue.buf qf = puts_of ops /\ fifo_history (puts_of ops) got).
Proof.
  split.
  - intros qf got H. apply myqueue_run_conserves in H. simpl in H.
    split; [exact H|]. eapply prefix_is_fifo; eauto.
  - intros c qf got H. apply queue_run_conserves in H. simpl in H.
    split; [exact H|]. eapply prefix_is_fifo; eauto.
Qed.

Lemma fifo_order_witness :
  let a := object 1 in
  let b := object 2 in
  let ops := [OpPut a; OpPut b; OpGet; OpGet] in
  (myqueue_run ops MyQueue.init = (MyQueue.mk [], [a; b]) /\
   queue_run ops ClosableQueue.init = Some (Queue.mk 0 [] 2, [a; b])) /\
  (nth_error [a; b] 0 = Some a /\ nth_error [a; b] 1 = Some b).
Proof.
  intros a b ops. split; [split; reflexivity|].
  destruct (fifo_order ops) as [Hm _].
  destruct (Hm (MyQueue.mk []) [a; b] eq_refl) as [_ Hf].
  apply (Hf 0 1 a b); [lia | reflexivity | reflexivity | simpl; lia].
Defined.

Lemma put_unbounded q item :
  Queue.maxsize q = 0 ->
  Queue.put q item =
  Some (Queue.mk 0 (Queue.buf q ++ [item]) (S (Queue.unfinished_tasks q))).
Proof.
  intros H. unfold Queue.put, Queue.full. rewrite H. reflexivity.
Qed.

(** C4, as the spec states it, fails: the queue returned by [close] takes a
    further [put]. *)
Lemma put_after_close_counterexample : ~ put_after_close_refused.
Proof.
  intros H.
  apply (H ClosableQueue.init (Queue.mk 0 [ClosableQueue.SENTINEL] 1) (object 1) eq_refl
           (Queue.mk 0 [ClosableQueue.SENTINEL; object 1] 2)).
  reflexivity.
Qed.

(** C4, amended.  [ClosableQueue] keeps no closed flag and defines no error
    of its own: on the queues the program builds (no capacity), [close]
    appends the sentinel, and a later [put] is accepted like any other; the
    item is buffered behind the sentinel and counted as unfinished. *)
Theorem put_after_close_accepted (q : Queue.t) (item : pyobj) :
  Queue.maxsize q = 0 ->
  exists q1 q2,
    ClosableQueue.close q = Some q1 /\
    Queue.put q1 item = Some q2 /\
    Queue.buf q2 = Queue.buf q ++ [ClosableQueue.SENTINEL; item] /\
    Queue.unfinished_tasks q2 = Queue.unfinished_tasks q + 2.
Proof.
  intros H. unfold ClosableQueue.close.
  rewrite (put_unbounded _ _ H).
  eexists; eexists. split; [reflexivity|].
  rewrite put_unbounded by reflexivity. simpl.
  split; [reflexivity|]. split.
  - simpl. now rewrite <- app_assoc.
  - simpl. lia.
Qed.

Lemma put_after_close_accepted_witness :
  exists q1 q2,
    ClosableQueue.close ClosableQueue.init = Some q1 /\
    Queue.put q1 (object 1) = Some q2 /\
    Queue.buf q2 = [ClosableQueue.SENTINEL; object 1] /\
    Queue.unfinished_tasks q2 = 2.
Proof.
  exact (put_after_close_accepted ClosableQueue.init (object 1) eq_refl).
Defined.

(** C8, as the spec states it, fails: on an empty buffer [get] raises. *)
Lemma get_empty_counterexample :
  MyQueue.get MyQueue.init = Raise IndexError /\ ~ get_empty_returns.
Proof.
  split; [reflexivity|].
  intros H. destruct (H MyQueue.init eq_refl) as [r Hr]. discriminate Hr.
Qed.

(** C8, amended.  [put] appends and returns, whatever the queue holds;
    [get] on an empty buffer raises [IndexError]; the polling worker catches
    exactly that error, sleeps 10 ms and starts its loop again (counting one
    more poll), with the queues untouched. *)
Theorem polling_contract :
  (forall q item, MyQueue.items (MyQueue.put q item) = MyQueue.items q ++ [item])
  /\
  (forall q, MyQueue.items q = [] -> MyQueue.get q = Raise IndexError)
  /\
  (forall func in_q out_q w Q,
      Polling.pc w = Polling.PGet ->
      MyQueue.items (Q in_q) = [] ->
      exists w1 w2 w3,
        Polling.worker_step func in_q out_q w Q = Some (EGetEmpty, w1, Q) /\
        Polling.pc w1 = Polling.PSleep /\
        Polling.worker_step func in_q out_q w1 Q = Some (ESleep 10, w2, Q) /\
        Polling.pc w2 = Polling.PCount /\
        Polling.worker_step func in_q out_q w2 Q = Some (ECount, w3, Q) /\
        Polling.pc w3 = Polling.PGet /\
        Polling.polled_count w3 = S (Polling.polled_count w) /\
        Polling.work_done w3 = Polling.work_done w).
Proof.
  split; [reflexivity|]. split.
  - intros q H. unfold MyQueue.get. now rewrite H.
  - intros func in_q out_q w Q Hpc Hq.
    unfold Polling.worker_step at 1. rewrite Hpc. unfold MyQueue.get. rewrite Hq.
    eexists; eexists; eexists.
    split; [reflexivity|]. split; [reflexivity|].
    split; [reflexivity|]. split; [reflexivity|].
    split; [reflexivity|]. repeat split.
Qed.

Lemma polling_contract_witness :
  let w := Polling.mkWorker Polling.PGet 1 0 in
  exists w1 w2 w3,
    Polling.worker_step download Polling.download_queue Polling.resize_queue w
                        (Polling.queues (Polling.init 3)) =
    Some (EGetEmpty, w1, Polling.queues (Polling.init 3)) /\
    Polling.pc w1 = Polling.PSleep /\
    Polling.worker_step download Polling.download_queue Polling.resize_queue w1
                        (Polling.queues (Polling.init 3)) =
    Some (ESleep 10, w2, Polling.queues (Polling.init 3)) /\
    Polling.pc w2 = Polling.PCount /\
    Polling.worker_step download Polling.download_queue Polling.resize_queue w2
                        (Polling.queues (Polling.init 3)) =
    Some (ECount, w3, Polling.queues (Polling.init 3)) /\
    Polling.pc w3 = Polling.PGet /\
    Polling.polled_count w3 = 2 /\
    Polling.work_done w3 = 0.
Proof.
  intros w.
  destruct polling_contract as [_ [_ H]].
  exact (H download Polling.download_queue Polling.resize_queue w
           (Polling.queues (Polling.init 3)) eq_refl eq_refl).
Defined.

(** ** The pipeline of [example_five] *)

Section PipelineInvariant.
Import Pipeline.

Lemma closes_left_feed q k l :
  closes_left q (repeat (CPut download_queue) k ++ l) = closes_left q l.
Proof. induction k; simpl; auto. Qed.

Lemma payload_app l1 l2 : payload (l1 ++ l2) = payload l1 ++ payload l2.
Proof. unfold payload. apply filter_app. Qed.

Lemma count_sentinel_app l1 l2 :
  count_sentinel (l1 ++ l2) = count_sentinel l1 + count_sentinel l2.
Proof. unfold count_sentinel. now rewrite filter_app, length_app. Qed.

Lemma count_sentinel_le l : count_sentinel l <= length l.
Proof.
  unfold count_sentinel. induction l as [|x l IH]; simpl; [lia|].
  destruct (ClosableQueue.is_sentinel x); simpl; lia.
Qed.

Lemma saw_sentinel_le pc : saw_sentinel pc <= 1.
Proof. destruct pc; simpl; lia. Qed.

Lemma fed_next s :
  map object (seq 1 (S (next_id s) - 1)) = fed s ++ [object (next_id s)] \/ next_id s = 0.
Proof.
  unfold fed. destruct (next_id s) as [|k]; [now right|left].
  replace (S (S k) - 1) with (S k) by lia.
  replace (S k - 1) with k by lia.
  rewrite seq_S, map_app. reflexivity.
Qed.

Lemma inv_init n : inv n (init n).
Proof.
  constructor; simpl.
  - intros []; reflexivity.
  - unfold script. rewrite closes_left_feed. reflexivity.
  - intros st x [].
  - reflexivity.
  - left. exists n. split; [reflexivity|simpl; lia].
  - reflexivity.
  - reflexivity.
  - reflexivity.
  - reflexivity.
Qed.

Ltac put_unbounded_in H Ib :=
  unfold ClosableQueue.close in H;
  rewrite put_unbounded in H by apply Ib;
  inversion H; subst; clear H.

Lemma inv_step_main n s ev s' :
  inv n s -> main_step s = Some (ev, s') -> inv n s'.
Proof.
  intros [Iu Is Ii Ib Im Id If Io Iup] H.
  pose proof (Iu Sdownload) as Iu1. pose proof (Iu Sresize) as Iu2.
  pose proof (Iu Supload) as Iu3. simpl in Iu1, Iu2, Iu3.
  unfold main_step in H.
  destruct Im as [[k [Hm [Hk Hkn]]] | [Hn [pre [Hin Hm]]]].
  - destruct k as [|k]; rewrite Hm in H; simpl in H, Hm.
    + (* line 193: download_queue.close() *)
      put_unbounded_in H Ib.
      constructor; simpl.
      * intros []; unfold upd; simpl; rewrite ?length_app; simpl; lia.
      * rewrite Hm in Is. simpl in Is. exact Is.
      * exact Ii.
      * intros []; unfold upd; simpl; auto.
      * right. simpl. split; [lia|]. eexists. split; [left; reflexivity|reflexivity].
      * exact Id.
      * unfold in_flight, fed, upd in *. simpl. rewrite payload_app. simpl.
        rewrite app_nil_r. exact If.
      * exact Io.
      * exact Iup.
    + (* line 192: download_queue.put(object()) *)
      put_unbounded_in H Ib.
      constructor; simpl.
      * intros []; unfold upd; simpl; rewrite ?length_app; simpl; lia.
      * rewrite Hm in Is. simpl in Is. exact Is.
      * exact Ii.
      * intros []; unfold upd; simpl; auto.
      * left. exists k. simpl. split; [reflexivity|lia].
      * exact Id.
      * unfold in_flight, upd in *. simpl. rewrite payload_app.
        unfold fed. simpl next_id.
        destruct (fed_next s) as [E|E]; [|lia]. rewrite E. rewrite <- If.
        unfold in_flight. rewrite <- !app_assoc.
        destruct (next_id s) as [|m]; [lia|]. reflexivity.
      * exact Io.
      * exact Iup.
  - simpl in Hin.
    destruct Hin as [<-|[<-|[<-|[<-|[]]]]]; rewrite Hm in H; simpl in H, Hm.
    + (* line 195: download_queue.join() *)
      destruct (Queue.join _); [|discriminate]. inversion H; subst; clear H.
      constructor; simpl; auto.
      * rewrite Hm in Is. exact Is.
      * right. simpl. split; [lia|]. eexists. split; [right; left; reflexivity|reflexivity].
    + (* line 196: resize_queue.close() *)
      put_unbounded_in H Ib.
      constructor; simpl.
      * intros []; unfold upd; simpl; rewrite ?length_app; simpl; lia.
      * rewrite Hm in Is. unfold upd. simpl in *. rewrite count_sentinel_app. simpl.
        unfold count_sentinel at 2. simpl. lia.
      * exact Ii.
      * intros []; unfold upd; simpl; auto.
      * right. simpl. split; [lia|]. eexists.
        split; [right; right; left; reflexivity|reflexivity].
      * exact Id.
      * unfold in_flight, fed, upd in *. simpl. rewrite payload_app. simpl.
        rewrite app_nil_r. exact If.
      * exact Io.
      * exact Iup.
    + (* line 197: resize_queue.close(), again *)
      put_unbounded_in H Ib.
      constructor; simpl.
      * intros []; unfold upd; simpl; rewrite ?length_app; simpl; lia.
      * rewrite Hm in Is. unfold upd. simpl in *. rewrite count_sentinel_app. simpl.
        unfold count_sentinel at 2. simpl. lia.
      * exact Ii.
      * intros []; unfold upd; simpl; auto.
      * right. simpl. split; [lia|]. eexists.
        split; [right; right; right; left; reflexivity|reflexivity].
      * exact Id.
      * unfold in_flight, fed, upd in *. simpl. rewrite payload_app. simpl.
        rewrite app_nil_r. exact If.
      * exact Io.
      * exact Iup.
    + (* line 198: resize_queue.join() cannot return *)
      exfalso. unfold Queue.join in H.
      destruct (Queue.unfinished_tasks (queues s resize_queue) =? 0) eqn:E;
        [|discriminate].
      apply Nat.eqb_eq in E. rewrite Hm in Is. simpl in Is.
      pose proof (count_sentinel_le (Queue.buf (queues s resize_queue))).
      pose proof (saw_sentinel_le (workers s Sresize)). lia.
Qed.

Lemma inv_step_worker n st s ev pc' Q' :
  inv n s ->
  worker_step (source_funcs st) (in_queue_of st) (out_queue_of st)
              (workers s st) (queues s) = Some (ev, pc', Q') ->
  inv n (mkState Q' (updw (workers s) st pc') (main s) (next_id s) (stdout s)).
Proof.
  intros [Iu Is Ii Ib Im Id If Io Iup] H.
  pose proof (Iu Sdownload) as Iu1. pose proof (Iu Sresize) as Iu2.
  pose proof (Iu Supload) as Iu3. simpl in Iu1, Iu2, Iu3.
  pose proof (Ii Sdownload) as Ii1. pose proof (Ii Sresize) as Ii2.
  pose proof (Ii Supload) as Ii3.
  unfold in_flight in If.
  destruct st;
    (match type of H with
     | worker_step _ _ _ ?w _ = _ => destruct w as [|x|x| | |e| |e] eqn:Ew
     end);
    simpl in H;
    unfold Queue.get, Queue.task_done, download, resize, upload in H.
  all: try discriminate.
  all: try rewrite put_unbounded in H by apply Ib.
  all: try (match type of H with
            | context [match Queue.buf ?q with _ => _ end] =>
                destruct (Queue.buf q) as [|y rest] eqn:Eb; [discriminate|];
                destruct (ClosableQueue.is_sentinel y) eqn:Ey
            end).
  all: try (match type of H with
            | context [match Queue.unfinished_tasks ?q with _ => _ end] =>
                destruct (Queue.unfinished_tasks q) as [|u] eqn:Eu;
                [exfalso; simpl in *; lia|]
            end).
  all: inversion H; subst; clear H.
  all: try (exfalso; unfold count_sentinel in Iup; rewrite Eb in Iup; simpl in Iup;
            rewrite Ey in Iup; simpl in Iup; lia).
  all: constructor; simpl; try assumption.
  all: try (intros []; unfold upd, updw; simpl; rewrite ?length_app; simpl in *; auto; lia).
  all: try (match goal with
            | Ew : workers _ _ = WPut ?x |- _ =>
                assert (Hx : ClosableQueue.is_sentinel x = false)
                  by (solve [apply Ii1; simpl; auto | apply Ii2; simpl; auto
                            | apply Ii3; simpl; auto])
            end).
  all: try (intros st' x' Hin; destruct st'; unfold updw in Hin; simpl in Hin; auto;
            destruct Hin as [<-|[]]; assumption).
  all: try (unfold count_sentinel, upd, updw in *; simpl in *;
            rewrite ?filter_app, ?length_app; simpl in *;
            rewrite ?Ey, ?Hx in *; simpl in *; lia).
  all: unfold in_flight, fed, payload, upd, updw in *; simpl in *;
    rewrite ?filter_app; simpl in *; rewrite ?Ey, ?Hx in *; simpl in *;
    rewrite <- ?app_assoc; simpl; assumption.
Qed.

Lemma inv_step n t s ev s' :
  inv n s -> step source_funcs t s = Some (ev, s') -> inv n s'.
Proof.
  intros I H. destruct t as [|st]; simpl in H.
  - eapply inv_step_main; eauto.
  - destruct (worker_step _ _ _ _ _) as [[[ev' pc'] Q']|] eqn:E; [|discriminate].
    inversion H; subst. eapply inv_step_worker; eauto.
Qed.

Lemma inv_reach n tr s : reach source_funcs (init n) tr s -> inv n s.
Proof.
  induction 1 as [|tr s t ev s' _ IH H].
  - apply inv_init.
  - eapply inv_step; eauto.
Qed.

Lemma inv_reachable n s : reachable n s -> inv n s.
Proof. intros [tr H]. eapply inv_reach; eauto. Qed.
End PipelineInvariant.

Section PipelineRuns.
Import Pipeline.
Variable funcs : stage -> pyobj -> result pyobj.

Lemma reach_cons s0 t ev s1 tr s :
  step funcs t s0 = Some (ev, s1) ->
  reach funcs s1 tr s ->
  reach funcs s0 ((t, ev) :: tr) s.
Proof.
  intros H0 R. induction R as [|tr s t' ev' s' _ IH H].
  - apply (reach_snoc funcs s0 [] s0 t ev s1 (reach_nil funcs s0) H0).
  - apply (reach_snoc funcs s0 ((t, ev) :: tr) s t' ev' s' IH H).
Qed.

Lemma exec_reach sched :
  forall s0, reach funcs s0 (fst (exec funcs sched s0)) (snd (exec funcs sched s0)).
Proof.
  induction sched as [|t sched IH]; intros s0; simpl.
  - apply reach_nil.
  - destruct (step funcs t s0) as [[ev s1]|] eqn:E.
    + specialize (IH s1). destruct (exec funcs sched s1) as [tr s2]. simpl in *.
      eapply reach_cons; eauto.
    + apply IH.
Qed.
End PipelineRuns.

Lemma exec_reachable n sched :
  Pipeline.reachable n (snd (Pipeline.exec Pipeline.source_funcs sched (Pipeline.init n))).
Proof. eexists. apply exec_reach. Qed.

Lemma count_sentinel_payload l :
  Pipeline.count_sentinel l = 0 -> Pipeline.payload l = l.
Proof.
  unfold Pipeline.count_sentinel, Pipeline.payload.
  induction l as [|x l IH]; simpl; [reflexivity|].
  destruct (ClosableQueue.is_sentinel x); simpl; [discriminate|].
  intros H. now rewrite IH.
Qed.

Lemma fed_prefix n s :
  Pipeline.main_shape n s ->
  exists rest, Pipeline.fed s ++ rest = map object (seq 1 n).
Proof.
  unfold Pipeline.fed. intros [[k [_ [Hk Hkn]]]|[Hn _]].
  - exists (map object (seq (1 + (n - k)) k)).
    replace (Pipeline.next_id s - 1) with (n - k) by lia.
    rewrite <- map_app, <- seq_app. f_equal. f_equal. lia.
  - exists []. rewrite app_nil_r. f_equal. f_equal. lia.
Qed.

(** C2.  Each [close] buffers one sentinel and counts one more unfinished
    task.  In [example_five], once the main thread has run both
    [resize_queue.close()] calls, in every later state: of the two
    sentinels the only consumer of [resize_queue] has taken at most one, so
    a sentinel stays in the buffer; the unfinished-task count (buffered
    items plus the item in the consumer's hand) is at least 1; [join] on the
    queue does not return and the main thread stands at line 198. *)
Theorem double_close_leaves_join_waiting :
  (forall q q',
      ClosableQueue.close q = Some q' ->
      Queue.buf q' = Queue.buf q ++ [ClosableQueue.SENTINEL]
      /\ Queue.unfinished_tasks q' = S (Queue.unfinished_tasks q))
  /\
  (forall n s,
      Pipeline.reachable n s ->
      Pipeline.closes_left Pipeline.resize_queue (Pipeline.main s) = 0 ->
      let q := Pipeline.queues s Pipeline.resize_queue in
      Pipeline.count_sentinel (Queue.buf q)
      + Pipeline.saw_sentinel (Pipeline.workers s Pipeline.Sresize) = 2
      /\ 1 <= Pipeline.count_sentinel (Queue.buf q)
      /\ Queue.unfinished_tasks q
         = length (Queue.buf q) + Pipeline.in_hand (Pipeline.workers s Pipeline.Sresize)
      /\ 1 <= Queue.unfinished_tasks q
      /\ Queue.join q = None
      /\ Pipeline.main s = Pipeline.from_second_join
      /\ Pipeline.main_step s = None).
Proof.
  split.
  - intros q q' H. unfold ClosableQueue.close, Queue.put in H.
    destruct (Queue.full q); [discriminate|]. inversion H; subst. simpl. auto.
  - intros n s R Hc q. apply inv_reachable in R.
    destruct R as [Iu Is Ii Ib Im Id If Io Iup].
    pose proof (Iu Pipeline.Sresize) as Iu2. simpl in Iu2. fold q in Iu2.
    pose proof (saw_sentinel_le (Pipeline.workers s Pipeline.Sresize)) as Hs.
    pose proof (count_sentinel_le (Queue.buf q)) as Hl.
    rewrite Hc in Is. fold q in Is.
    assert (Hu : 1 <= Queue.unfinished_tasks q) by lia.
    assert (Hj : Queue.join q = None).
    { unfold Queue.join. destruct (Queue.unfinished_tasks q); [lia|reflexivity]. }
    assert (Hm : Pipeline.main s = Pipeline.from_second_join).
    { destruct Im as [[k [Hm _]]|[_ [pre [Hin Hm]]]].
      - rewrite Hm, closes_left_feed in Hc. discriminate Hc.
      - simpl in Hin.
        destruct Hin as [<-|[<-|[<-|[<-|[]]]]]; rewrite Hm in Hc;
          try discriminate Hc. exact Hm. }
    repeat split; try assumption; try lia.
    unfold Pipeline.main_step. rewrite Hm. simpl. fold q. now rewrite Hj.
Qed.

Lemma double_close_witness :
  let s := snd (Pipeline.exec Pipeline.source_funcs (Pipeline.round_robin 15) (Pipeline.init 1)) in
  let q := Pipeline.queues s Pipeline.resize_queue in
  (Pipeline.reachable 1 s
   /\ Pipeline.closes_left Pipeline.resize_queue (Pipeline.main s) = 0
   /\ Queue.buf q = [ClosableQueue.SENTINEL]
   /\ Pipeline.workers s Pipeline.Sresize = Pipeline.WExited)
  /\
  (1 <= Pipeline.count_sentinel (Queue.buf q)
   /\ 1 <= Queue.unfinished_tasks q
   /\ Queue.join q = None
   /\ Pipeline.main_step s = None).
Proof.
  intros s q.
  assert (R : Pipeline.reachable 1 s) by apply exec_reachable.
  assert (Hc : Pipeline.closes_left Pipeline.resize_queue (Pipeline.main s) = 0)
    by (vm_compute; reflexivity).
  split.
  - split; [exact R|]. split; [exact Hc|].
    split; vm_compute; reflexivity.
  - destruct double_close_leaves_join_waiting as [_ H].
    destruct (H 1 s R Hc) as [_ [H1 [_ [H2 [H3 [_ H4]]]]]].
    repeat split; assumption.
Defined.

(** ** Capacity *)

Lemma queue_run_bounded c ops :
  forall q qf got,
    queue_run ops q = Some (qf, got) ->
    bounded_by c q -> bounded_by c qf.
Proof.
  induction ops as [|op ops IH]; intros q qf got H B; simpl in H.
  - now inversion H; subst.
  - destruct op as [x| |].
    + unfold Queue.put in H. destruct (Queue.full q) eqn:F; [discriminate|].
      apply IH in H; [exact H|].
      destruct B as [Bm [Bc Bl]]. unfold Queue.full in F. rewrite Bm in F.
      apply andb_false_iff in F. destruct F as [F|F].
      * apply Nat.ltb_ge in F. lia.
      * apply Nat.leb_gt in F. repeat split; simpl; auto.
        rewrite length_app. simpl. lia.
    + unfold Queue.get in H. destruct (Queue.buf q) as [|y rest] eqn:E; [discriminate|].
      destruct (queue_run ops _) as [[qf' got']|] eqn:R; [|discriminate].
      inversion H; subst. apply IH in R; [exact R|].
      destruct B as [Bm [Bc Bl]]. rewrite E in Bl. simpl in Bl.
      repeat split; simpl; auto. lia.
    + unfold Queue.task_done in H. destruct (Queue.unfinished_tasks q).
      * eapply IH; eauto.
      * apply IH in H; [exact H|]. destruct B as [Bm [Bc Bl]].
        repeat split; simpl; auto.
Qed.

(** C3, as the spec states it, fails on [example_five] fed with two items:
    no capacity bounds the queues between its stages, which are built
    without one.  In the state reached when the main thread has put both
    items and the download worker has forwarded them, [resize_queue] holds
    two items and still accepts a [put]. *)
Lemma backpressure_counterexample :
  ~ backpressure_bound 2
  /\
  (let sched := [Pipeline.Main; Pipeline.Main] ++ repeat (Pipeline.T Pipeline.Sdownload) 8 in
   let s := snd (Pipeline.exec Pipeline.source_funcs sched (Pipeline.init 2)) in
   Pipeline.reachable 2 s
   /\ Queue.maxsize (Pipeline.queues s Pipeline.resize_queue) = 0
   /\ Queue.buf (Pipeline.queues s Pipeline.resize_queue) = [object 1; object 2]
   /\ Queue.put (Pipeline.queues s Pipeline.resize_queue) (object 3) <> None).
Proof.
  split.
  - intros [c H].
    destruct (H (Pipeline.init 2)
                (ex_intro _ [] (Pipeline.reach_nil Pipeline.source_funcs (Pipeline.init 2))))
      as [[Hm [Hc _]] _].
    simpl in Hm. lia.
  - split; [apply exec_reachable|].
    split; [vm_compute; reflexivity|].
    split; [vm_compute; reflexivity|].
    vm_compute. discriminate.
Qed.

(** C3, amended.  A [queue.Queue] built with a positive capacity [c] (the
    module-level [queue = Queue(1)] is the one the program builds) never
    buffers more than [c] items, whatever the history of calls; a [put] on a
    full queue blocks, it raises nothing, and it goes through once a [get]
    has made room.  [in_queue] and the queues of [example_five] are built
    without a capacity: in every reachable state they accept a [put]. *)
Theorem bounded_queue_backpressure :
  (forall c ops qf got,
      0 < c ->
      queue_run ops (Queue.init c) = Some (qf, got) ->
      bounded_by c qf)
  /\
  (forall q item,
      0 < Queue.maxsize q ->
      Queue.maxsize q <= length (Queue.buf q) ->
      Queue.put q item = None)
  /\
  (forall q x q1 item,
      0 < Queue.maxsize q ->
      length (Queue.buf q) <= Queue.maxsize q ->
      Queue.get q = Some (x, q1) ->
      exists q2, Queue.put q1 item = Some q2
                 /\ length (Queue.buf q2) <= Queue.maxsize q2)
  /\
  (Queue.maxsize queue = 1 /\ forall item, Queue.put in_queue item <> None)
  /\
  (forall n s qn item,
      Pipeline.reachable n s ->
      Queue.maxsize (Pipeline.queues s qn) = 0
      /\ Queue.put (Pipeline.queues s qn) item <> None).
Proof.
  split; [|split; [|split; [|split]]].
  - intros c ops qf got Hc H. eapply queue_run_bounded; eauto.
    repeat split; simpl; auto. lia.
  - intros q item Hc Hl. unfold Queue.put, Queue.full.
    apply Nat.ltb_lt in Hc. apply Nat.leb_le in Hl. now rewrite Hc, Hl.
  - intros q x q1 item Hc Hl Hg. unfold Queue.get in Hg.
    destruct (Queue.buf q) as [|y rest] eqn:E; [discriminate|].
    inversion Hg; subst. simpl in Hl.
    unfold Queue.put, Queue.full. simpl.
    assert (F : (Queue.maxsize q <=? length rest) = false) by (apply Nat.leb_gt; lia).
    rewrite F, andb_false_r. eexists. split; [reflexivity|].
    simpl. rewrite length_app. simpl. lia.
  - split; [reflexivity|]. intros item. discriminate.
  - intros n s qn item R. apply inv_reachable in R.
    pose proof (Pipeline.inv_unbounded n s R qn) as Hb.
    split; [exact Hb|]. rewrite put_unbounded by exact Hb. discriminate.
Qed.

Lemma bounded_queue_backpressure_witness :
  let ops := [OpPut (object 1); OpGet; OpPut (object 2)] in
  let q1 := Queue.mk 1 [object 2] 2 in
  (queue_run ops queue = Some (q1, [object 1])
   /\ Queue.put q1 (object 3) = None)
  /\ bounded_by 1 q1
  /\ (exists q2, Queue.put (Queue.mk 1 [] 2) (object 3) = Some q2
                 /\ length (Queue.buf q2) <= Queue.maxsize q2).
Proof.
  intros ops q1.
  destruct bounded_queue_backpressure as [H1 [H2 [H3 _]]].
  split; [split|split].
  - reflexivity.
  - apply (H2 q1 (object 3)); simpl; lia.
  - apply (H1 1 ops q1 [object 1]); [lia|reflexivity].
  - apply (H3 q1 (object 2) (Queue.mk 1 [] 2) (object 3)); simpl; auto.
Defined.

(** ** One [StoppableWorker] iterating its queue *)

Section WorkerAlone.
Import Pipeline.
Variable func : pyobj -> result pyobj.
Variables in_q out_q : qname.
Hypothesis distinct : qname_eqb in_q out_q = false.

Lemma qname_eqb_refl q : qname_eqb q q = true.
Proof. now destruct q. Qed.

Lemma qname_eqb_sym a b : qname_eqb a b = qname_eqb b a.
Proof. now destruct a, b. Qed.

Lemma upd_same Q n q : upd Q n q n = q.
Proof. unfold upd. now rewrite qname_eqb_refl. Qed.

Lemma upd_other Q n q m : qname_eqb m n = false -> upd Q n q m = Q m.
Proof. unfold upd. now intros ->. Qed.

Lemma distinct' : qname_eqb out_q in_q = false.
Proof. now rewrite qname_eqb_sym. Qed.

Lemma moved_trans Q Q1 Q2 k1 k2 tl1 tl2 outs1 outs2 :
  moved in_q out_q Q Q1 k1 tl1 outs1 ->
  moved in_q out_q Q1 Q2 k2 tl2 outs2 ->
  moved in_q out_q Q Q2 (k1 + k2) tl2 (outs1 ++ outs2).
Proof.
  intros [Hi1 [Ho1 Hf1]] [Hi2 [Ho2 Hf2]]. repeat split.
  - rewrite Hi2, Hi1. simpl. f_equal. lia.
  - rewrite Ho2, Ho1. simpl. rewrite <- app_assoc, length_app. f_equal. lia.
  - intros q Hq1 Hq2. rewrite Hf2, Hf1; auto.
Qed.

Lemma moved_refl Q :
  Queue.maxsize (Q out_q) = 0 ->
  moved in_q out_q Q Q 0 (Queue.buf (Q in_q)) [].
Proof.
  intros Hm. repeat split.
  - destruct (Q in_q) as [m b u]. simpl. f_equal. lia.
  - destruct (Q out_q) as [m b u]. simpl in *. subst m.
    rewrite app_nil_r. f_equal. lia.
Qed.

(** One full round on a payload item. *)
Lemma run_worker_round Q x tl r fuel :
  Queue.buf (Q in_q) = x :: tl ->
  ClosableQueue.is_sentinel x = false ->
  func x = Ok r ->
  Queue.maxsize (Q out_q) = 0 ->
  1 <= Queue.unfinished_tasks (Q in_q) ->
  exists Q1,
    run_worker func in_q out_q (4 + fuel) WGet Q
    = (let '(tr, pc, Qf) := run_worker func in_q out_q fuel WGet Q1 in
       (EGet x :: ECall x :: EPut r :: ETaskDone :: tr, pc, Qf))
    /\ moved in_q out_q Q Q1 1 tl [r].
Proof.
  intros Hb Hx Hf Hm Hu.
  destruct (Queue.unfinished_tasks (Q in_q)) as [|u] eqn:Eu; [lia|].
  exists (upd (upd (upd Q in_q (Queue.mk (Queue.maxsize (Q in_q)) tl (S u)))
                   out_q (Queue.mk 0 (Queue.buf (Q out_q) ++ [r])
                                   (S (Queue.unfinished_tasks (Q out_q)))))
              in_q (Queue.mk (Queue.maxsize (Q in_q)) tl u)).
  split.
  - change (4 + fuel) with (S (S (S (S fuel)))).
    cbn [run_worker].
    unfold worker_step at 1. unfold Queue.get. rewrite Hb, Hx.
    unfold worker_step at 1. rewrite Hf.
    unfold worker_step at 1. rewrite upd_other by exact distinct'.
    rewrite put_unbounded by exact Hm.
    unfold worker_step at 1. rewrite upd_other by exact distinct.
    rewrite upd_same. unfold Queue.task_done. simpl. rewrite Eu. simpl.
    destruct (run_worker func in_q out_q fuel WGet _) as [[tr pc] Qf]. reflexivity.
  - repeat split.
    + rewrite upd_same. f_equal. lia.
    + rewrite upd_other by exact distinct'. rewrite upd_same. simpl. f_equal. lia.
    + intros q Hq1 Hq2. now rewrite !upd_other by assumption.
Qed.

Variable g : pyobj -> pyobj.

(** The rounds on a run of payload items the transform accepts. *)
Lemma run_worker_items items :
  forall Q tl fuel,
    Queue.buf (Q in_q) = items ++ tl ->
    (forall x, In x items -> ClosableQueue.is_sentinel x = false /\ func x = Ok (g x)) ->
    Queue.maxsize (Q out_q) = 0 ->
    length items <= Queue.unfinished_tasks (Q in_q) ->
    exists Q1,
      run_worker func in_q out_q (4 * length items + fuel) WGet Q
      = (let '(tr, pc, Qf) := run_worker func in_q out_q fuel WGet Q1 in
         (item_events g items ++ tr, pc, Qf))
      /\ moved in_q out_q Q Q1 (length items) tl (map g items).
Proof.
  induction items as [|x items IH]; intros Q tl fuel Hb Hok Hm Hu.
  - exists Q. simpl in *.
    destruct (run_worker func in_q out_q fuel WGet Q) as [[tr pc] Qf].
    split; [reflexivity|]. rewrite <- Hb. now apply moved_refl.
  - simpl in Hb, Hu.
    destruct (Hok x (or_introl eq_refl)) as [Hx Hf].
    replace (4 * length (x :: items) + fuel)
      with (4 + (4 * length items + fuel)) by (simpl; lia).
    destruct (run_worker_round Q x (items ++ tl) (g x) (4 * length items + fuel)
                Hb Hx Hf Hm ltac:(lia))
      as [Q1 [Hr M1]].
    pose proof M1 as [Hi1 [Ho1 _]].
    destruct (IH Q1 tl fuel) as [Q2 [Hr2 M2]].
    + now rewrite Hi1.
    + intros y Hy. apply Hok. now right.
    + now rewrite Ho1.
    + rewrite Hi1. simpl. lia.
    + exists Q2. split.
      * rewrite Hr, Hr2.
        destruct (run_worker func in_q out_q fuel WGet Q2) as [[tr pc] Qf].
        reflexivity.
      * apply (moved_trans _ _ _ _ _ _ _ _ _ M1 M2).
Qed.

Lemma calls_item_events items : calls (item_events g items) = items.
Proof. induction items as [|x items IH]; simpl; [reflexivity|]. now f_equal. Qed.

Lemma outputs_item_events items : outputs (item_events g items) = map g items.
Proof. induction items as [|x items IH]; simpl; [reflexivity|]. now f_equal. Qed.

Lemma gets_item_events items : count is_get (item_events g items) = length items.
Proof.
  unfold count. induction items as [|x items IH]; simpl; [reflexivity|].
  now f_equal.
Qed.

Lemma dones_item_events items : count is_task_done (item_events g items) = length items.
Proof.
  unfold count. induction items as [|x items IH]; simpl; [reflexivity|].
  now f_equal.
Qed.

Lemma count_app p tr1 tr2 : count p (tr1 ++ tr2) = count p tr1 + count p tr2.
Proof. unfold count. now rewrite filter_app, length_app. Qed.

Lemma calls_app tr1 tr2 : calls (tr1 ++ tr2) = calls tr1 ++ calls tr2.
Proof. unfold calls. apply flat_map_app. Qed.

Lemma outputs_app tr1 tr2 : outputs (tr1 ++ tr2) = outputs tr1 ++ outputs tr2.
Proof. unfold outputs. apply flat_map_app. Qed.

Lemma run_worker_stopped fuel pc Q :
  worker_step func in_q out_q pc Q = None ->
  run_worker func in_q out_q fuel pc Q = ([], pc, Q).
Proof. intros H. destruct fuel; simpl; [reflexivity|]. now rewrite H. Qed.

(** Dequeuing one more object and marking it done. *)
Lemma moved_one_more Q Q1 k y rest outs u :
  moved in_q out_q Q Q1 k (y :: rest) outs ->
  Queue.unfinished_tasks (Q1 in_q) = S u ->
  moved in_q out_q Q
        (upd (upd Q1 in_q (Queue.mk (Queue.maxsize (Q1 in_q)) rest (S u)))
             in_q (Queue.mk (Queue.maxsize (Q1 in_q)) rest u))
        (k + 1) rest outs.
Proof.
  intros [Hi [Ho Hf]] Eu. repeat split.
  - rewrite upd_same. rewrite Hi in Eu |- *. simpl in *. f_equal. lia.
  - rewrite !upd_other by exact distinct'. exact Ho.
  - intros q Hq1 Hq2. rewrite !upd_other by assumption. now apply Hf.
Qed.

(** The iteration up to the sentinel. *)
Lemma run_worker_to_sentinel Q items s0 rest fuel :
  Queue.buf (Q in_q) = items ++ s0 :: rest ->
  (forall x, In x items -> ClosableQueue.is_sentinel x = false /\ func x = Ok (g x)) ->
  ClosableQueue.is_sentinel s0 = true ->
  Queue.maxsize (Q out_q) = 0 ->
  length items < Queue.unfinished_tasks (Q in_q) ->
  exists Qf,
    run_worker func in_q out_q (4 * length items + 2 + fuel) WGet Q
    = (item_events g items ++ [EGet s0; ETaskDone], WExited, Qf)
    /\ moved in_q out_q Q Qf (length items + 1) rest (map g items).
Proof.
  intros Hb Hok Hs Hm Hu.
  destruct (run_worker_items items Q (s0 :: rest) (2 + fuel) Hb Hok Hm ltac:(lia))
    as [Q1 [Hr M1]].
  pose proof M1 as [Hi1 _].
  assert (Hb1 : Queue.buf (Q1 in_q) = s0 :: rest) by (now rewrite Hi1).
  destruct (Queue.unfinished_tasks (Q1 in_q)) as [|u] eqn:Eu;
    [rewrite Hi1 in Eu; simpl in Eu; lia|].
  eexists. split; [|exact (moved_one_more _ _ _ _ _ _ _ M1 Eu)].
  replace (4 * length items + 2 + fuel) with (4 * length items + (2 + fuel)) by lia.
  rewrite Hr. change (2 + fuel) with (S (S fuel)). cbn [run_worker].
  unfold worker_step at 1. unfold Queue.get. rewrite Hb1, Hs.
  unfold worker_step at 1. rewrite upd_same. unfold Queue.task_done.
  simpl. rewrite Eu. simpl.
  rewrite run_worker_stopped by reflexivity. reflexivity.
Qed.

(** The iteration up to an item on which the transform raises. *)
Lemma run_worker_to_failure Q items bad e rest fuel :
  Queue.buf (Q in_q) = items ++ bad :: rest ->
  (forall x, In x items -> ClosableQueue.is_sentinel x = false /\ func x = Ok (g x)) ->
  ClosableQueue.is_sentinel bad = false ->
  func bad = Raise e ->
  Queue.maxsize (Q out_q) = 0 ->
  length items < Queue.unfinished_tasks (Q in_q) ->
  exists Qf,
    run_worker func in_q out_q (4 * length items + 3 + fuel) WGet Q
    = (item_events g items ++ [EGet bad; ECall bad; ETaskDone], WFailed e, Qf)
    /\ moved in_q out_q Q Qf (length items + 1) rest (map g items).
Proof.
  intros Hb Hok Hs Hf Hm Hu.
  destruct (run_worker_items items Q (bad :: rest) (3 + fuel) Hb Hok Hm ltac:(lia))
    as [Q1 [Hr M1]].
  pose proof M1 as [Hi1 _].
  assert (Hb1 : Queue.buf (Q1 in_q) = bad :: rest) by (now rewrite Hi1).
  destruct (Queue.unfinished_tasks (Q1 in_q)) as [|u] eqn:Eu;
    [rewrite Hi1 in Eu; simpl in Eu; lia|].
  eexists. split; [|exact (moved_one_more _ _ _ _ _ _ _ M1 Eu)].
  replace (4 * length items + 3 + fuel) with (4 * length items + (3 + fuel)) by lia.
  rewrite Hr. change (3 + fuel) with (S (S (S fuel))). cbn [run_worker].
  unfold worker_step at 1. unfold Queue.get. rewrite Hb1, Hs.
  unfold worker_step at 1. rewrite Hf.
  unfold worker_step at 1. rewrite upd_same. unfold Queue.task_done.
  simpl. rewrite Eu. simpl.
  rewrite run_worker_stopped by reflexivity. reflexivity.
Qed.

(** What [moved] says of the two buffers and of the count. *)
Lemma moved_facts Q Q1 k tl outs :
  moved in_q out_q Q Q1 k tl outs ->
  k <= Queue.unfinished_tasks (Q in_q) ->
  Queue.buf (Q1 in_q) = tl
  /\ Queue.unfinished_tasks (Q1 in_q) + k = Queue.unfinished_tasks (Q in_q)
  /\ Queue.buf (Q1 out_q) = Queue.buf (Q out_q) ++ outs.
Proof.
  intros [Hi [Ho _]] Hk. rewrite Hi, Ho. simpl. repeat split. lia.
Qed.
End WorkerAlone.

(** ** Workers inside the running pipeline *)

Section WorkersInSystem.
Import Pipeline.
Variable funcs : stage -> pyobj -> result pyobj.

Lemma stage_eqb_refl st : stage_eqb st st = true.
Proof. now destruct st. Qed.

Lemma by_thread_snoc t tr t' ev :
  by_thread t (tr ++ [(t', ev)])
  = by_thread t tr ++ (if tid_eqb t' t then [ev] else []).
Proof.
  unfold by_thread. rewrite filter_app, map_app. simpl.
  now destruct (tid_eqb t' t).
Qed.

Lemma step_other t s ev s' st :
  step funcs t s = Some (ev, s') ->
  tid_eqb t (T st) = false ->
  workers s' st = workers s st.
Proof.
  intros H Hne. destruct t as [|st']; simpl in H.
  - unfold main_step in H.
    destruct (main s) as [|[q|q|q|q] rest]; try discriminate.
    + destruct (Queue.put _ _); inversion H; reflexivity.
    + destruct (ClosableQueue.close _); inversion H; reflexivity.
    + destruct (Queue.join _); inversion H; reflexivity.
    + inversion H; reflexivity.
  - destruct (worker_step _ _ _ _ _) as [[[ev' pc'] Q']|]; [|discriminate].
    inversion H; subst. simpl. unfold updw.
    simpl in Hne. destruct st, st'; simpl in *; try discriminate; reflexivity.
Qed.

Lemma step_self st s ev s' :
  step funcs (T st) s = Some (ev, s') ->
  exists Q',
    worker_step (funcs st) (in_queue_of st) (out_queue_of st) (workers s st) (queues s)
    = Some (ev, workers s' st, Q').
Proof.
  simpl. destruct (worker_step _ _ _ _ _) as [[[ev' pc'] Q']|]; [|discriminate].
  intros H. inversion H; subst. simpl. unfold updw. rewrite stage_eqb_refl.
  eexists. reflexivity.
Qed.

Lemma tid_eqb_T st st' : tid_eqb (T st') (T st) = true -> st' = st.
Proof. destruct st, st'; simpl; congruence. Qed.

Lemma worker_step_accounting func in_q out_q pc Q ev pc' Q' :
  worker_step func in_q out_q pc Q = Some (ev, pc', Q') ->
  count is_get [ev] + in_hand pc = count is_task_done [ev] + in_hand pc'.
Proof.
  destruct pc; simpl; intros H.
  - destruct (Queue.get _) as [[y q']|]; [|discriminate].
    inversion H; subst. destruct (ClosableQueue.is_sentinel y); reflexivity.
  - destruct (func item); inversion H; reflexivity.
  - destruct (Queue.put _ _); inversion H; reflexivity.
  - destruct (Queue.task_done _); inversion H; reflexivity.
  - destruct (Queue.task_done _); inversion H; reflexivity.
  - destruct (Queue.task_done _); inversion H; reflexivity.
  - discriminate.
  - discriminate.
Qed.

(** A worker calls [task_done] once for every item it dequeued, less the
    one it holds. *)
Lemma reach_accounting s0 tr s st :
  reach funcs s0 tr s ->
  count is_get (by_thread (T st) tr) + in_hand (workers s0 st)
  = count is_task_done (by_thread (T st) tr) + in_hand (workers s st).
Proof.
  induction 1 as [|tr s t ev s' _ IH H]; [reflexivity|].
  rewrite by_thread_snoc, !count_app.
  destruct (tid_eqb t (T st)) eqn:E.
  - destruct t as [|st']; [discriminate|]. apply tid_eqb_T in E. subst st'.
    destruct (step_self _ _ _ _ H) as [Q' Hw].
    apply worker_step_accounting in Hw. lia.
  - rewrite (step_other _ _ _ _ _ H E). unfold count at 2 4. simpl. lia.
Qed.

Lemma worker_step_yield func in_q out_q pc Q ev pc' Q' :
  worker_step func in_q out_q pc Q = Some (ev, pc', Q') ->
  (forall x, pc = WYield x -> ClosableQueue.is_sentinel x = false) ->
  (forall x, In x (calls [ev]) -> ClosableQueue.is_sentinel x = false)
  /\ (forall x, pc' = WYield x -> ClosableQueue.is_sentinel x = false).
Proof.
  destruct pc; simpl; intros H Hy.
  - destruct (Queue.get _) as [[y q']|]; [|discriminate].
    destruct (ClosableQueue.is_sentinel y) eqn:Ey; inversion H; subst; simpl.
    + split; [intros x []|intros x Hx; discriminate Hx].
    + split; [intros x []|intros x Hx; now inversion Hx; subst].
  - destruct (func item); inversion H; subst; simpl;
      (split; [intros x [<-|[]]; now apply Hy | intros x Hx; discriminate Hx]).
  - destruct (Queue.put _ _); inversion H; subst; simpl.
    split; [intros x []|intros x Hx; discriminate Hx].
  - destruct (Queue.task_done _); inversion H; subst; simpl;
      (split; [intros x []|intros x Hx; discriminate Hx]).
  - destruct (Queue.task_done _); inversion H; subst; simpl;
      (split; [intros x []|intros x Hx; discriminate Hx]).
  - destruct (Queue.task_done _); inversion H; subst; simpl;
      (split; [intros x []|intros x Hx; discriminate Hx]).
  - discriminate.
  - discriminate.
Qed.

(** The transform is never called on the sentinel. *)
Lemma reach_calls s0 tr s st :
  reach funcs s0 tr s ->
  (forall x, workers s0 st = WYield x -> ClosableQueue.is_sentinel x = false) ->
  (forall x, In x (calls (by_thread (T st) tr)) -> ClosableQueue.is_sentinel x = false)
  /\ (forall x, workers s st = WYield x -> ClosableQueue.is_sentinel x = false).
Proof.
  intros R H0. induction R as [|tr s t ev s' _ IH H]; [split; [intros x []|exact H0]|].
  destruct IH as [IHc IHy].
  rewrite by_thread_snoc, calls_app.
  destruct (tid_eqb t (T st)) eqn:E.
  - destruct t as [|st']; [discriminate|]. apply tid_eqb_T in E. subst st'.
    destruct (step_self _ _ _ _ H) as [Q' Hw].
    destruct (worker_step_yield _ _ _ _ _ _ _ _ Hw IHy) as [Hc Hy].
    split; [|exact Hy].
    intros x Hx. apply in_app_or in Hx. destruct Hx; auto.
  - rewrite (step_other _ _ _ _ _ H E). simpl. rewrite app_nil_r. now split.
Qed.
End WorkersInSystem.

Lemma is_sentinel_identity x :
  ClosableQueue.is_sentinel x = false <-> oid x <> oid ClosableQueue.SENTINEL.
Proof.
  unfold ClosableQueue.is_sentinel, py_is. split.
  - intros H. now apply Nat.eqb_neq.
  - intros H. now apply Nat.eqb_neq.
Qed.

(** C5.  A worker iterating its input queue, alone: it hands to the
    transform exactly the items buffered before the first object that [is]
    the sentinel, in order, then returns; the sentinel is recognised by
    identity ([oid]) alone, an item that merely compares equal to it is
    handed on like any other; [task_done] is called once per dequeued object,
    the sentinel included.  When the transform raises on an item, the
    finalised generator still calls [task_done] for it.  And in any run of
    the whole system, under any schedule and any transforms: no worker ever
    calls its transform on the sentinel, and its [task_done] calls number its
    [get]s, less the item it holds (none once it has returned or failed). *)
Theorem sentinel_ends_iteration :
  (forall func g in_q out_q Q items s0 rest fuel,
      Pipeline.qname_eqb in_q out_q = false ->
      Queue.buf (Q in_q) = items ++ s0 :: rest ->
      (forall x, In x items -> oid x <> oid ClosableQueue.SENTINEL /\ func x = Ok (g x)) ->
      oid s0 = oid ClosableQueue.SENTINEL ->
      Queue.maxsize (Q out_q) = 0 ->
      length items < Queue.unfinished_tasks (Q in_q) ->
      exists tr Qf,
        Pipeline.run_worker func in_q out_q (4 * length items + 2 + fuel) Pipeline.WGet Q
        = (tr, Pipeline.WExited, Qf)
        /\ calls tr = items
        /\ outputs tr = map g items
        /\ count is_get tr = length items + 1
        /\ count is_task_done tr = length items + 1
        /\ Queue.buf (Qf in_q) = rest
        /\ Queue.buf (Qf out_q) = Queue.buf (Q out_q) ++ map g items
        /\ Queue.unfinished_tasks (Qf in_q) + (length items + 1)
           = Queue.unfinished_tasks (Q in_q))
  /\
  (forall func g in_q out_q Q items bad e rest fuel,
      Pipeline.qname_eqb in_q out_q = false ->
      Queue.buf (Q in_q) = items ++ bad :: rest ->
      (forall x, In x items -> oid x <> oid ClosableQueue.SENTINEL /\ func x = Ok (g x)) ->
      oid bad <> oid ClosableQueue.SENTINEL ->
      func bad = Raise e ->
      Queue.maxsize (Q out_q) = 0 ->
      length items < Queue.unfinished_tasks (Q in_q) ->
      exists tr Qf,
        Pipeline.run_worker func in_q out_q (4 * length items + 3 + fuel) Pipeline.WGet Q
        = (tr, Pipeline.WFailed e, Qf)
        /\ calls tr = items ++ [bad]
        /\ outputs tr = map g items
        /\ count is_get tr = length items + 1
        /\ count is_task_done tr = length items + 1
        /\ Queue.buf (Qf in_q) = rest
        /\ Queue.unfinished_tasks (Qf in_q) + (length items + 1)
           = Queue.unfinished_tasks (Q in_q))
  /\
  (forall x, py_eq x ClosableQueue.SENTINEL = true ->
             oid x <> oid ClosableQueue.SENTINEL ->
             ClosableQueue.is_sentinel x = false)
  /\
  (forall funcs s0 tr s st,
      Pipeline.reach funcs s0 tr s ->
      Pipeline.workers s0 st = Pipeline.WGet ->
      (forall x, In x (calls (Pipeline.by_thread (Pipeline.T st) tr)) ->
                 ClosableQueue.is_sentinel x = false)
      /\ count is_task_done (Pipeline.by_thread (Pipeline.T st) tr)
         + Pipeline.in_hand (Pipeline.workers s st)
         = count is_get (Pipeline.by_thread (Pipeline.T st) tr)).
Proof.
  split; [|split; [|split]].
  - intros func g in_q out_q Q items s0 rest fuel Hd Hb Hok Hs Hm Hu.
    assert (Hok' : forall x, In x items ->
                     ClosableQueue.is_sentinel x = false /\ func x = Ok (g x)).
    { intros x Hx. destruct (Hok x Hx). split; [now apply is_sentinel_identity|assumption]. }
    assert (Hs' : ClosableQueue.is_sentinel s0 = true).
    { unfold ClosableQueue.is_sentinel, py_is. now apply Nat.eqb_eq. }
    destruct (run_worker_to_sentinel func in_q out_q Hd g Q items s0 rest fuel
                Hb Hok' Hs' Hm Hu) as [Qf [Hr M]].
    destruct (moved_facts in_q out_q Q Qf _ _ _ M ltac:(lia)) as [Hb1 [Hu1 Ho1]].
    exists (Pipeline.item_events g items ++ [EGet s0; ETaskDone]), Qf.
    split; [exact Hr|].
    rewrite calls_app, outputs_app, !count_app, calls_item_events, outputs_item_events,
      gets_item_events, dones_item_events.
    simpl. rewrite !app_nil_r. repeat split; auto.
  - intros func g in_q out_q Q items bad e rest fuel Hd Hb Hok Hs Hf Hm Hu.
    assert (Hok' : forall x, In x items ->
                     ClosableQueue.is_sentinel x = false /\ func x = Ok (g x)).
    { intros x Hx. destruct (Hok x Hx). split; [now apply is_sentinel_identity|assumption]. }
    apply is_sentinel_identity in Hs.
    destruct (run_worker_to_failure func in_q out_q Hd g Q items bad e rest fuel
                Hb Hok' Hs Hf Hm Hu) as [Qf [Hr M]].
    destruct (moved_facts in_q out_q Q Qf _ _ _ M ltac:(lia)) as [Hb1 [Hu1 Ho1]].
    exists (Pipeline.item_events g items ++ [EGet bad; ECall bad; ETaskDone]), Qf.
    split; [exact Hr|].
    rewrite calls_app, outputs_app, !count_app, calls_item_events, outputs_item_events,
      gets_item_events, dones_item_events.
    simpl. rewrite !app_nil_r. repeat split; auto.
  - intros x _ H. now apply is_sentinel_identity.
  - intros funcs s0 tr s st R H0. split.
    + apply (reach_calls funcs s0 tr s st R).
      intros x Hx. rewrite H0 in Hx. discriminate Hx.
    + pose proof (reach_accounting funcs s0 tr s st R) as H.
      rewrite H0 in H. simpl in H. lia.
Qed.

Lemma sentinel_ends_iteration_witness :
  let twin := mkObj 1 0 in
  let Q := Pipeline.upd (fun _ => ClosableQueue.init) Pipeline.download_queue
             (Queue.mk 0 [twin; object 2; ClosableQueue.SENTINEL; object 3] 4) in
  let picky := fun x => if oid x =? 2 then Raise (OtherError 1) else Ok x in
  let run := Pipeline.exec Pipeline.source_funcs (Pipeline.round_robin 30) (Pipeline.init 2) in
  (exists tr Qf,
      Pipeline.run_worker download Pipeline.download_queue Pipeline.resize_queue
                          10 Pipeline.WGet Q = (tr, Pipeline.WExited, Qf)
      /\ calls tr = [twin; object 2]
      /\ count is_task_done tr = 3
      /\ Queue.buf (Qf Pipeline.download_queue) = [object 3])
  /\
  (exists tr Qf,
      Pipeline.run_worker picky Pipeline.download_queue Pipeline.resize_queue
                          7 Pipeline.WGet Q = (tr, Pipeline.WFailed (OtherError 1), Qf)
      /\ calls tr = [twin; object 2]
      /\ outputs tr = [twin]
      /\ count is_get tr = 2
      /\ count is_task_done tr = 2)
  /\
  (py_eq twin ClosableQueue.SENTINEL = true /\ ClosableQueue.is_sentinel twin = false)
  /\
  (calls (Pipeline.by_thread (Pipeline.T Pipeline.Supload) (fst run)) = [object 1; object 2]
   /\ count is_get (Pipeline.by_thread (Pipeline.T Pipeline.Supload) (fst run)) = 2
   /\ count is_task_done (Pipeline.by_thread (Pipeline.T Pipeline.Supload) (fst run))
      + Pipeline.in_hand (Pipeline.workers (snd run) Pipeline.Supload)
      = count is_get (Pipeline.by_thread (Pipeline.T Pipeline.Supload) (fst run))).
Proof.
  intros twin Q picky run.
  destruct sentinel_ends_iteration as [H1 [H2 [H3 H4]]].
  split; [|split; [|split]].
  - destruct (H1 download (fun x => x) Pipeline.download_queue Pipeline.resize_queue Q
                [twin; object 2] ClosableQueue.SENTINEL [object 3] 0)
      as [tr [Qf [Hr [Hc [_ [_ [Hd [Hb _]]]]]]]].
    + reflexivity.
    + reflexivity.
    + intros x [<-|[<-|[]]]; split; simpl; (discriminate || reflexivity).
    + reflexivity.
    + reflexivity.
    + simpl. lia.
    + exists tr, Qf. repeat split; assumption.
  - destruct (H2 picky (fun x => x) Pipeline.download_queue Pipeline.resize_queue Q
                [twin] (object 2) (OtherError 1) [ClosableQueue.SENTINEL; object 3] 0)
      as [tr [Qf [Hr [Hc [Ho [Hg [Hd _]]]]]]].
    + reflexivity.
    + reflexivity.
    + intros x [<-|[]]; split; simpl; (discriminate || reflexivity).
    + simpl. discriminate.
    + reflexivity.
    + reflexivity.
    + simpl. lia.
    + exists tr, Qf. repeat split; assumption.
  - split; [reflexivity|]. apply H3; [reflexivity|simpl; discriminate].
  - split; [vm_compute; reflexivity|]. split; [vm_compute; reflexivity|].
    apply (H4 Pipeline.source_funcs (Pipeline.init 2) (fst run) (snd run) Pipeline.Supload).
    + apply exec_reach.
    + reflexivity.
Defined.

(** C9.  [SENTINEL] belongs to the class.  Whatever queue [q1] is closed,
    the object [x] that [close] appends is the one every other [close]
    appends, and it ends the iteration of any queue that holds it: a worker
    iterating [in_q], a queue of an arbitrary store with [x] buffered
    behind [items], hands [items] to its transform and forwards the results,
    then dequeues [x], calls [task_done] for it and returns, without a call
    of the transform or a put in between; what was buffered behind [x]
    stays there, and the worker has no step left.  An object that is not
    [x] does not end the iteration: it is yielded. *)
Theorem shared_sentinel (q1 q1' : Queue.t) (x : pyobj) :
  ClosableQueue.close q1 = Some q1' ->
  Queue.buf q1' = Queue.buf q1 ++ [x] ->
  (forall q2 q2' x2,
      ClosableQueue.close q2 = Some q2' ->
      Queue.buf q2' = Queue.buf q2 ++ [x2] ->
      x2 = x)
  /\
  (forall func g in_q out_q (Q : Pipeline.store) items rest fuel,
      Pipeline.qname_eqb in_q out_q = false ->
      Queue.buf (Q in_q) = items ++ x :: rest ->
      (forall y, In y items -> py_is y x = false /\ func y = Ok (g y)) ->
      Queue.maxsize (Q out_q) = 0 ->
      length items < Queue.unfinished_tasks (Q in_q) ->
      exists Qf,
        Pipeline.run_worker func in_q out_q (4 * length items + 2 + fuel) Pipeline.WGet Q
        = (Pipeline.item_events g items ++ [EGet x; ETaskDone], Pipeline.WExited, Qf)
        /\ Queue.buf (Qf in_q) = rest
        /\ Queue.buf (Qf out_q) = Queue.buf (Q out_q) ++ map g items
        /\ Queue.unfinished_tasks (Qf in_q) + (length items + 1)
           = Queue.unfinished_tasks (Q in_q)
        /\ Pipeline.worker_step func in_q out_q Pipeline.WExited Qf = None)
  /\
  (forall func in_q out_q (Q : Pipeline.store) y rest,
      py_is y x = false ->
      Queue.buf (Q in_q) = y :: rest ->
      exists Q',
        Pipeline.worker_step func in_q out_q Pipeline.WGet Q
        = Some (EGet y, Pipeline.WYield y, Q')).
Proof.
  intros Hc Hb.
  assert (Hclose : forall q q' y,
             ClosableQueue.close q = Some q' ->
             Queue.buf q' = Queue.buf q ++ [y] -> y = ClosableQueue.SENTINEL).
  { intros q q' y Hq Hy. unfold ClosableQueue.close, Queue.put in Hq.
    destruct (Queue.full q); [discriminate|].
    inversion Hq; subst q'. simpl in Hy.
    apply app_inj_tail in Hy. destruct Hy as [_ Hy]. now symmetry. }
  assert (Hx : x = ClosableQueue.SENTINEL) by exact (Hclose q1 q1' x Hc Hb).
  subst x.
  split; [|split].
  - intros q2 q2' x2 Hc2 Hb2. exact (Hclose q2 q2' x2 Hc2 Hb2).
  - intros func g in_q out_q Q items rest fuel Hd HQ Hok Hm Hu.
    destruct (run_worker_to_sentinel func in_q out_q Hd g Q items
                ClosableQueue.SENTINEL rest fuel HQ Hok eq_refl Hm Hu) as [Qf [Hr M]].
    destruct (moved_facts in_q out_q Q Qf _ _ _ M ltac:(lia)) as [Hb1 [Hu1 Ho1]].
    exists Qf. split; [exact Hr|]. split; [exact Hb1|]. split; [exact Ho1|].
    split; [lia|reflexivity].
  - intros func in_q out_q Q y rest Hy HQ.
    unfold Pipeline.worker_step, Queue.get. rewrite HQ.
    change (ClosableQueue.is_sentinel y) with (py_is y ClosableQueue.SENTINEL).
    rewrite Hy. eexists. reflexivity.
Qed.

Lemma shared_sentinel_witness :
  let q1 := Queue.mk 0 [object 1] 1 in
  let Q := Pipeline.upd (fun _ => ClosableQueue.init) Pipeline.upload_queue
                        (Queue.mk 0 [object 2; ClosableQueue.SENTINEL; object 3] 3) in
  exists Qf,
    Pipeline.run_worker upload Pipeline.upload_queue Pipeline.done_queue 6 Pipeline.WGet Q
    = ([EGet (object 2); ECall (object 2); EPut (object 2); ETaskDone;
        EGet ClosableQueue.SENTINEL; ETaskDone], Pipeline.WExited, Qf)
    /\ Queue.buf (Qf Pipeline.upload_queue) = [object 3]
    /\ Queue.buf (Qf Pipeline.done_queue) = [object 2]
    /\ Queue.unfinished_tasks (Qf Pipeline.upload_queue) = 1.
Proof.
  intros q1 Q.
  destruct (shared_sentinel q1 (Queue.mk 0 [object 1; ClosableQueue.SENTINEL] 2)
              ClosableQueue.SENTINEL eq_refl eq_refl) as [_ [H _]].
  destruct (H upload (fun y => y) Pipeline.upload_queue Pipeline.done_queue Q
              [object 2] [object 3] 0 eq_refl eq_refl) as [Qf [Hr [Hb [Ho [Hu _]]]]].
  - intros y [<-|[]]. split; reflexivity.
  - reflexivity.
  - simpl. lia.
  - exists Qf. split; [exact Hr|]. split; [exact Hb|]. split; [exact Ho|].
    simpl in Hu. lia.
Defined.

(** ** A transform that raises *)

Section FailingTransform.
Import Pipeline.
Variable funcs : stage -> pyobj -> result pyobj.

Lemma failing_worker_step func in_q out_q pc Q ev pc' Q' item e :
  func item = Raise e ->
  pc = WYield item \/ pc = WUnwind e \/ pc = WFailed e ->
  worker_step func in_q out_q pc Q = Some (ev, pc', Q') ->
  outputs [ev] = [] /\ (pc' = WUnwind e \/ pc' = WFailed e).
Proof.
  intros Hf [ -> | [ -> | -> ] ] H; simpl in H.
  - rewrite Hf in H. inversion H; subst. auto.
  - destruct (Queue.task_done _); inversion H; subst; auto.
  - discriminate.
Qed.

Lemma failing_worker_reach s0 tr s st item e :
  workers s0 st = WYield item ->
  funcs st item = Raise e ->
  reach funcs s0 tr s ->
  outputs (by_thread (T st) tr) = []
  /\ (workers s st = WYield item \/ workers s st = WUnwind e \/ workers s st = WFailed e).
Proof.
  intros H0 Hf R. induction R as [|tr s t ev s' _ IH H]; [auto|].
  destruct IH as [IHo IHp].
  rewrite by_thread_snoc, outputs_app, IHo.
  destruct (tid_eqb t (T st)) eqn:E.
  - destruct t as [|st']; [discriminate|]. apply tid_eqb_T in E. subst st'.
    destruct (step_self _ _ _ _ _ H) as [Q' Hw].
    destruct (failing_worker_step _ _ _ _ _ _ _ _ _ _ Hf IHp Hw) as [Ho Hp].
    rewrite Ho. split; [reflexivity|tauto].
  - rewrite (step_other _ _ _ _ _ _ H E). now split.
Qed.
End FailingTransform.

Section PollingSystem.
Import Polling.
Variable funcs : stage -> pyobj -> result pyobj.
Variable n : nat.

Lemma polling_stage_eqb_refl st : stage_eqb st st = true.
Proof. now destruct st. Qed.

Lemma polling_by_thread_snoc t tr t' ev :
  by_thread t (tr ++ [(t', ev)])
  = by_thread t tr ++ (if tid_eqb t' t then [ev] else []).
Proof.
  unfold by_thread. rewrite filter_app, map_app. simpl.
  now destruct (tid_eqb t' t).
Qed.

Lemma polling_tid_eqb_T st st' : tid_eqb (T st') (T st) = true -> st' = st.
Proof. destruct st, st'; simpl; congruence. Qed.

Lemma polling_step_other t s ev s' st :
  step funcs n t s = Some (ev, s') ->
  tid_eqb t (T st) = false ->
  workers s' st = workers s st.
Proof.
  intros H Hne. destruct t as [|st']; simpl in H.
  - unfold main_step in H.
    destruct (main s) as [[|k]| | | |p [|x todo] acc|p q|]; try discriminate;
      try (inversion H; reflexivity).
    destruct (_ <? _); inversion H; reflexivity.
  - destruct (worker_step _ _ _ _ _) as [[[ev' w'] Q']|]; [|discriminate].
    inversion H; subst. simpl. unfold updw.
    simpl in Hne. destruct st, st'; simpl in *; try discriminate; reflexivity.
Qed.

Lemma polling_step_self st s ev s' :
  step funcs n (T st) s = Some (ev, s') ->
  exists Q',
    worker_step (funcs st) (in_queue_of st) (out_queue_of st) (workers s st) (queues s)
    = Some (ev, workers s' st, Q')
    /\ queues s' = Q'.
Proof.
  simpl. destruct (worker_step _ _ _ _ _) as [[[ev' w'] Q']|]; [|discriminate].
  intros H. inversion H; subst. simpl. unfold updw. rewrite polling_stage_eqb_refl.
  eexists. split; reflexivity.
Qed.

Lemma failing_polling_step func in_q out_q w Q ev w' Q' item e :
  func item = Raise e ->
  pc w = PCall item \/ pc w = PFailed e ->
  worker_step func in_q out_q w Q = Some (ev, w', Q') ->
  outputs [ev] = [] /\ pc w' = PFailed e /\ work_done w' = work_done w.
Proof.
  intros Hf [Hp|Hp] H; unfold worker_step in H; rewrite Hp in H.
  - rewrite Hf in H. inversion H; subst. auto.
  - discriminate.
Qed.

Lemma failing_polling_reach s0 tr s st item e :
  pc (workers s0 st) = PCall item ->
  funcs st item = Raise e ->
  reach funcs n s0 tr s ->
  outputs (by_thread (T st) tr) = []
  /\ (pc (workers s st) = PCall item \/ pc (workers s st) = PFailed e)
  /\ work_done (workers s st) = work_done (workers s0 st).
Proof.
  intros H0 Hf R. induction R as [|tr s t ev s' _ IH H]; [auto|].
  destruct IH as [IHo [IHp IHw]].
  rewrite polling_by_thread_snoc, outputs_app, IHo.
  destruct (tid_eqb t (T st)) eqn:E.
  - destruct t as [|st']; [discriminate|]. apply polling_tid_eqb_T in E. subst st'.
    destruct (polling_step_self _ _ _ _ H) as [Q' [Hw _]].
    destruct (failing_polling_step _ _ _ _ _ _ _ _ _ _ Hf IHp Hw) as [Ho [Hp Hd]].
    rewrite Ho. split; [reflexivity|]. split; [now right|congruence].
  - rewrite (polling_step_other _ _ _ _ _ H E). now split.
Qed.

Lemma polling_reach_cons s0 t ev s1 tr s :
  step funcs n t s0 = Some (ev, s1) ->
  reach funcs n s1 tr s ->
  reach funcs n s0 ((t, ev) :: tr) s.
Proof.
  intros H0 R. induction R as [|tr s t' ev' s' _ IH H].
  - apply (reach_snoc funcs n s0 [] s0 t ev s1 (reach_nil funcs n s0) H0).
  - apply (reach_snoc funcs n s0 ((t, ev) :: tr) s t' ev' s' IH H).
Qed.

Lemma polling_exec_reach sched :
  forall s0,
    reach funcs n s0 (fst (exec funcs n sched s0)) (snd (exec funcs n sched s0)).
Proof.
  induction sched as [|t sched IH]; intros s0; simpl.
  - apply reach_nil.
  - destruct (step funcs n t s0) as [[ev s1]|] eqn:E.
    + specialize (IH s1). destruct (exec funcs n sched s1) as [tr s2]. simpl in *.
      eapply polling_reach_cons; eauto.
    + apply IH.
Qed.
End PollingSystem.

(** C6.  Neither [run] loop catches what the transform raises.  In the
    pipeline of [StoppableWorker]s, under any schedule: from the moment a
    worker holds an item on which its transform raises [e], it puts nothing
    more; it can only pass through the finalisation of its generator to the
    state "terminated by [e]", which it reaches in its next two steps and
    where it has no step left.  The same holds for the polling [Worker],
    whose [except IndexError] does not cover the [else] branch: it puts
    nothing more, its [work_done] stays, and its next step ends it.  Nothing
    in either system restarts a terminated worker. *)
Theorem transform_failure_ends_worker :
  (forall funcs s0 tr s st item e,
      Pipeline.workers s0 st = Pipeline.WYield item ->
      funcs st item = Raise e ->
      Pipeline.reach funcs s0 tr s ->
      outputs (Pipeline.by_thread (Pipeline.T st) tr) = []
      /\ (Pipeline.workers s st = Pipeline.WYield item
          \/ Pipeline.workers s st = Pipeline.WUnwind e
          \/ Pipeline.workers s st = Pipeline.WFailed e)
      /\ (Pipeline.workers s st = Pipeline.WFailed e ->
          Pipeline.step funcs (Pipeline.T st) s = None))
  /\
  (forall func in_q out_q Q item e fuel,
      func item = Raise e ->
      Pipeline.qname_eqb in_q out_q = false ->
      exists Qf,
        Pipeline.run_worker func in_q out_q (2 + fuel) (Pipeline.WYield item) Q
        = ([ECall item; ETaskDone], Pipeline.WFailed e, Qf)
        /\ Qf out_q = Q out_q)
  /\
  (forall funcs n s0 tr s st item e,
      Polling.pc (Polling.workers s0 st) = Polling.PCall item ->
      funcs st item = Raise e ->
      Polling.reach funcs n s0 tr s ->
      outputs (Polling.by_thread (Polling.T st) tr) = []
      /\ (Polling.pc (Polling.workers s st) = Polling.PCall item
          \/ Polling.pc (Polling.workers s st) = Polling.PFailed e)
      /\ Polling.work_done (Polling.workers s st) = Polling.work_done (Polling.workers s0 st)
      /\ (Polling.pc (Polling.workers s st) = Polling.PFailed e ->
          Polling.step funcs n (Polling.T st) s = None))
  /\
  (forall func in_q out_q w Q item e,
      Polling.pc w = Polling.PCall item ->
      func item = Raise e ->
      exists w',
        Polling.worker_step func in_q out_q w Q = Some (ECall item, w', Q)
        /\ Polling.pc w' = Polling.PFailed e
        /\ Polling.worker_step func in_q out_q w' Q = None).
Proof.
  split; [|split; [|split]].
  - intros funcs s0 tr s st item e H0 Hf R.
    destruct (failing_worker_reach funcs s0 tr s st item e H0 Hf R) as [Ho Hp].
    split; [exact Ho|]. split; [exact Hp|].
    intros Hd. simpl. now rewrite Hd.
  - intros func in_q out_q Q item e fuel Hf Hd.
    change (2 + fuel) with (S (S fuel)). cbn [Pipeline.run_worker].
    unfold Pipeline.worker_step at 1. rewrite Hf.
    unfold Pipeline.worker_step at 1.
    destruct (Queue.task_done (Q in_q)) as [q'|e'].
    + rewrite run_worker_stopped by reflexivity.
      eexists. split; [reflexivity|].
      apply upd_other. now rewrite qname_eqb_sym.
    + rewrite run_worker_stopped by reflexivity.
      eexists. split; reflexivity.
  - intros funcs n s0 tr s st item e H0 Hf R.
    destruct (failing_polling_reach funcs n s0 tr s st item e H0 Hf R) as [Ho [Hp Hw]].
    split; [exact Ho|]. split; [exact Hp|]. split; [exact Hw|].
    intros Hd. simpl. unfold Polling.worker_step. now rewrite Hd.
  - intros func in_q out_q w Q item e Hp Hf.
    unfold Polling.worker_step at 1. rewrite Hp, Hf.
    eexists. split; [reflexivity|]. split; reflexivity.
Qed.

Lemma transform_failure_witness :
  let e := OtherError 7 in
  let funcs := fun st => match st with
                         | Pipeline.Sresize => fun _ => Raise e
                         | _ => fun x => Ok x
                         end in
  let s0 := snd (Pipeline.exec funcs
                   ([Pipeline.Main; Pipeline.Main]
                      ++ repeat (Pipeline.T Pipeline.Sdownload) 4
                      ++ [Pipeline.T Pipeline.Sresize])
                   (Pipeline.init 2)) in
  let run := Pipeline.exec funcs (Pipeline.round_robin 20) s0 in
  let pfuncs := fun st => match st with
                          | Polling.Sresize => fun _ => Raise e
                          | _ => fun x => Ok x
                          end in
  let p0 := snd (Polling.exec pfuncs 2
                   ([Polling.Main; Polling.Main]
                      ++ repeat (Polling.T Polling.Sdownload) 6
                      ++ repeat (Polling.T Polling.Sresize) 2)
                   (Polling.init 2)) in
  let prun := Polling.exec pfuncs 2
                (concat (repeat [Polling.T Polling.Sdownload; Polling.T Polling.Sresize;
                                 Polling.T Polling.Supload] 20)) p0 in
  (Pipeline.workers s0 Pipeline.Sresize = Pipeline.WYield (object 1)
   /\ Pipeline.workers (snd run) Pipeline.Sresize = Pipeline.WFailed e
   /\ outputs (Pipeline.by_thread (Pipeline.T Pipeline.Sresize) (fst run)) = []
   /\ Pipeline.step funcs (Pipeline.T Pipeline.Sresize) (snd run) = None)
  /\
  (Polling.pc (Polling.workers p0 Polling.Sresize) = Polling.PCall (object 1)
   /\ Polling.pc (Polling.workers (snd prun) Polling.Sresize) = Polling.PFailed e
   /\ outputs (Polling.by_thread (Polling.T Polling.Sresize) (fst prun)) = []
   /\ Polling.step pfuncs 2 (Polling.T Polling.Sresize) (snd prun) = None)
  /\
  (exists Qf,
      Pipeline.run_worker (funcs Pipeline.Sresize) Pipeline.resize_queue Pipeline.upload_queue
                          2 (Pipeline.WYield (object 1)) (Pipeline.queues s0)
      = ([ECall (object 1); ETaskDone], Pipeline.WFailed e, Qf)
      /\ Qf Pipeline.upload_queue = Pipeline.queues s0 Pipeline.upload_queue)
  /\
  (exists w',
      Polling.worker_step (pfuncs Polling.Sresize) Polling.resize_queue Polling.upload_queue
                          (Polling.workers p0 Polling.Sresize) (Polling.queues p0)
      = Some (ECall (object 1), w', Polling.queues p0)
      /\ Polling.pc w' = Polling.PFailed e
      /\ Polling.worker_step (pfuncs Polling.Sresize) Polling.resize_queue
                             Polling.upload_queue w' (Polling.queues p0) = None).
Proof.
  intros e funcs s0 run pfuncs p0 prun.
  destruct transform_failure_ends_worker as [H1 [H2 [H3 H4]]].
  split; [|split; [|split]].
  - assert (E0 : Pipeline.workers s0 Pipeline.Sresize = Pipeline.WYield (object 1))
      by (vm_compute; reflexivity).
    assert (Ed : Pipeline.workers (snd run) Pipeline.Sresize = Pipeline.WFailed e)
      by (vm_compute; reflexivity).
    destruct (H1 funcs s0 (fst run) (snd run) Pipeline.Sresize (object 1) e E0 eq_refl
                (exec_reach funcs (Pipeline.round_robin 20) s0)) as [Ho [_ Hn]].
    split; [exact E0|]. split; [exact Ed|]. split; [exact Ho|]. exact (Hn Ed).
  - assert (E0 : Polling.pc (Polling.workers p0 Polling.Sresize) = Polling.PCall (object 1))
      by (vm_compute; reflexivity).
    assert (Ed : Polling.pc (Polling.workers (snd prun) Polling.Sresize) = Polling.PFailed e)
      by (vm_compute; reflexivity).
    destruct (H3 pfuncs 2 p0 (fst prun) (snd prun) Polling.Sresize (object 1) e E0 eq_refl
                (polling_exec_reach pfuncs 2 _ p0)) as [Ho [_ [_ Hn]]].
    split; [exact E0|]. split; [exact Ed|]. split; [exact Ho|]. exact (Hn Ed).
  - exact (H2 (funcs Pipeline.Sresize) Pipeline.resize_queue Pipeline.upload_queue
              (Pipeline.queues s0) (object 1) e 0 eq_refl eq_refl).
  - apply (H4 (pfuncs Polling.Sresize) Polling.resize_queue Polling.upload_queue
              (Polling.workers p0 Polling.Sresize) (Polling.queues p0) (object 1) e).
    + vm_compute; reflexivity.
    + reflexivity.
Defined.

(** ** The polling workers of [example_one] *)

Section PollingForever.
Import Polling.
Variable funcs : stage -> pyobj -> result pyobj.
Variable n : nat.
Hypothesis total : forall st x, exists r, funcs st x = Ok r.

Lemma polling_reach_app s0 tr s tr' s' :
  reach funcs n s0 tr s ->
  reach funcs n s tr' s' ->
  reach funcs n s0 (tr ++ tr') s'.
Proof.
  intros R0 R. induction R as [|tr' s1 t ev s2 _ IH H].
  - now rewrite app_nil_r.
  - rewrite app_assoc. eapply reach_snoc; eauto.
Qed.

Lemma polling_updw_same W st w : updw W st w st = w.
Proof. unfold updw. now rewrite polling_stage_eqb_refl. Qed.

(** The next step of a live worker, and where it leaves the worker. *)
Lemma worker_next st s :
  alive (workers s st) ->
  exists ev s1,
    step funcs n (T st) s = Some (ev, s1)
    /\ alive (workers s1 st)
    /\ match pc (workers s st) with
       | PCount =>
           pc (workers s1 st) = PGet
           /\ polled_count (workers s1 st) = S (polled_count (workers s st))
       | PGet =>
           (pc (workers s1 st) = PSleep \/ exists x, pc (workers s1 st) = PCall x)
           /\ polled_count (workers s1 st) = polled_count (workers s st)
       | PSleep | PDone =>
           pc (workers s1 st) = PCount
           /\ polled_count (workers s1 st) = polled_count (workers s st)
       | PCall _ =>
           (exists r, pc (workers s1 st) = PPut r)
           /\ polled_count (workers s1 st) = polled_count (workers s st)
       | PPut _ =>
           pc (workers s1 st) = PDone
           /\ polled_count (workers s1 st) = polled_count (workers s st)
       | PFailed _ => False
       end.
Proof.
  intros A. unfold step, worker_step.
  destruct (pc (workers s st)) eqn:E.
  - eexists; eexists. split; [reflexivity|]. simpl. rewrite polling_updw_same.
    split; [intros e; discriminate|]. split; reflexivity.
  - unfold MyQueue.get. destruct (MyQueue.items _) as [|x rest].
    + eexists; eexists. split; [reflexivity|]. simpl. rewrite polling_updw_same.
      split; [intros e; discriminate|]. split; [now left|reflexivity].
    + eexists; eexists. split; [reflexivity|]. simpl. rewrite polling_updw_same.
      split; [intros e; discriminate|]. split; [right; now exists x|reflexivity].
  - eexists; eexists. split; [reflexivity|]. simpl. rewrite polling_updw_same.
    split; [intros e; discriminate|]. split; reflexivity.
  - destruct (total st item) as [r Hr]. rewrite Hr.
    eexists; eexists. split; [reflexivity|]. simpl. rewrite polling_updw_same.
    split; [intros e; discriminate|]. split; [now exists r|reflexivity].
  - eexists; eexists. split; [reflexivity|]. simpl. rewrite polling_updw_same.
    split; [intros e; discriminate|]. split; reflexivity.
  - eexists; eexists. split; [reflexivity|]. simpl. rewrite polling_updw_same.
    split; [intros e; discriminate|]. split; reflexivity.
  - exfalso. now apply (A e).
Qed.

Lemma alive_reach s0 tr s :
  reach funcs n s0 tr s ->
  (forall st, alive (workers s0 st)) ->
  forall st, alive (workers s st).
Proof.
  induction 1 as [|tr s t ev s' _ IH H]; intros H0 st; [apply H0|].
  destruct (tid_eqb t (T st)) eqn:E.
  - destruct t as [|st']; [discriminate|]. apply polling_tid_eqb_T in E. subst st'.
    destruct (worker_next st s (IH H0 st)) as [ev1 [s1 [Hs [A _]]]].
    rewrite Hs in H. now inversion H; subst.
  - rewrite (polling_step_other _ _ _ _ _ _ _ H E). now apply IH.
Qed.

(** Extending a schedule at the front by one step of the worker. *)
Lemma poll_after_step st s ev s1 :
  step funcs n (T st) s = Some (ev, s1) ->
  polled_count (workers s1 st) = polled_count (workers s st) ->
  (exists sched,
      polled_count (workers (snd (exec funcs n sched s1)) st)
      = S (polled_count (workers s1 st))) ->
  exists sched,
    polled_count (workers (snd (exec funcs n sched s)) st)
    = S (polled_count (workers s st)).
Proof.
  intros Hs Hc [sched H]. exists (T st :: sched).
  cbn [exec]. rewrite Hs.
  destruct (exec funcs n sched s1) as [tr s2]. simpl in *. congruence.
Qed.

Lemma poll_from_count st s :
  alive (workers s st) -> pc (workers s st) = PCount ->
  exists sched,
    polled_count (workers (snd (exec funcs n sched s)) st)
    = S (polled_count (workers s st)).
Proof.
  intros A E. destruct (worker_next st s A) as [ev [s1 [Hs [_ H]]]].
  rewrite E in H. destruct H as [_ Hc].
  exists [T st]. cbn [exec]. rewrite Hs. exact Hc.
Qed.

Lemma poll_from_put st s r :
  alive (workers s st) -> pc (workers s st) = PPut r ->
  exists sched,
    polled_count (workers (snd (exec funcs n sched s)) st)
    = S (polled_count (workers s st)).
Proof.
  intros A E. destruct (worker_next st s A) as [ev [s1 [Hs [A1 H]]]].
  rewrite E in H. destruct H as [E1 Hc].
  apply (poll_after_step st s ev s1 Hs Hc).
  destruct (worker_next st s1 A1) as [ev2 [s2 [Hs2 [A2 H2]]]].
  rewrite E1 in H2. destruct H2 as [E2 Hc2].
  apply (poll_after_step st s1 ev2 s2 Hs2 Hc2).
  now apply poll_from_count.
Qed.

(** Left alone, a live worker comes round to counting one more poll. *)
Lemma poll_once s st :
  alive (workers s st) ->
  exists sched,
    polled_count (workers (snd (exec funcs n sched s)) st)
    = S (polled_count (workers s st)).
Proof.
  intros A. destruct (worker_next st s A) as [ev [s1 [Hs [A1 H]]]].
  destruct (pc (workers s st)) eqn:E.
  - now apply poll_from_count.
  - destruct H as [[E1|[x E1]] Hc]; apply (poll_after_step st s ev s1 Hs Hc).
    + destruct (worker_next st s1 A1) as [ev2 [s2 [Hs2 [A2 H2]]]].
      rewrite E1 in H2. destruct H2 as [E2 Hc2].
      apply (poll_after_step st s1 ev2 s2 Hs2 Hc2). now apply poll_from_count.
    + destruct (worker_next st s1 A1) as [ev2 [s2 [Hs2 [A2 H2]]]].
      rewrite E1 in H2. destruct H2 as [[r E2] Hc2].
      apply (poll_after_step st s1 ev2 s2 Hs2 Hc2). now apply (poll_from_put st s2 r).
  - destruct H as [E1 Hc]. apply (poll_after_step st s ev s1 Hs Hc).
    now apply poll_from_count.
  - destruct H as [[r E1] Hc]. apply (poll_after_step st s ev s1 Hs Hc).
    now apply (poll_from_put st s1 r).
  - now apply (poll_from_put st s r).
  - destruct H as [E1 Hc]. apply (poll_after_step st s ev s1 Hs Hc).
    now apply poll_from_count.
  - contradiction.
Qed.

Lemma polling_exec_app a : forall b s,
  exec funcs n (a ++ b) s
  = (fst (exec funcs n a s) ++ fst (exec funcs n b (snd (exec funcs n a s))),
     snd (exec funcs n b (snd (exec funcs n a s)))).
Proof.
  induction a as [|t a IH]; intros b s; simpl.
  - now destruct (exec funcs n b s).
  - destruct (step funcs n t s) as [[ev s1]|].
    + rewrite IH. destruct (exec funcs n a s1) as [tr1 s2]. reflexivity.
    + apply IH.
Qed.

(** And so to counting any number of further polls. *)
Lemma poll_more s0 tr s st k :
  (forall st', alive (workers s0 st')) ->
  reach funcs n s0 tr s ->
  exists sched,
    reach funcs n s0 (tr ++ fst (exec funcs n sched s)) (snd (exec funcs n sched s))
    /\ polled_count (workers (snd (exec funcs n sched s)) st)
       = polled_count (workers s st) + k.
Proof.
  intros A0 R. induction k as [|k IH].
  - exists []. simpl. rewrite app_nil_r. split; [exact R|lia].
  - destruct IH as [sched [R1 Hk]].
    destruct (poll_once (snd (exec funcs n sched s)) st (alive_reach _ _ _ R1 A0 st))
      as [sched' Hp].
    exists (sched ++ sched'). rewrite polling_exec_app. simpl. split.
    + rewrite app_assoc. eapply polling_reach_app; [exact R1|].
      apply polling_exec_reach.
    + rewrite Hp, Hk. lia.
Qed.
End PollingForever.

(** C10.  [Worker.run] has no way out of its loop.  From any state in
    which the workers are running, with transforms that do not raise (the
    three of the source do not), whatever the items and the schedule: in
    every state reached each polling worker is still inside its loop, it is
    never blocked (it always has a next step), and it can go on to count any
    number [k] of further polls.  For [example_one] this holds in every
    reachable state, in particular once all items are in [done_queue] and
    the main thread has printed and returned. *)
Theorem polling_workers_never_exit funcs (n : nat) (s0 s : Polling.State) tr :
  (forall st x, exists r, funcs st x = Ok r) ->
  (forall st, Polling.alive (Polling.workers s0 st)) ->
  Polling.reach funcs n s0 tr s ->
  forall st,
    Polling.alive (Polling.workers s st)
    /\ Polling.step funcs n (Polling.T st) s <> None
    /\ forall k, exists sched,
         let r := Polling.exec funcs n sched s in
         Polling.reach funcs n s0 (tr ++ fst r) (snd r)
         /\ Polling.polled_count (Polling.workers (snd r) st)
            = Polling.polled_count (Polling.workers s st) + k.
Proof.
  intros total A0 R st.
  pose proof (alive_reach funcs n total s0 tr s R A0 st) as A.
  split; [exact A|]. split.
  - destruct (worker_next funcs n total st s A) as [ev [s1 [Hs _]]].
    rewrite Hs. discriminate.
  - intros k. cbv zeta. apply (poll_more funcs n total s0 tr s st k A0 R).
Qed.

Lemma polling_workers_never_exit_witness :
  let r := Polling.exec Polling.source_funcs 2 (Polling.round_robin 40) (Polling.init 2) in
  let s := snd r in
  (Polling.reachable 2 s
   /\ length (MyQueue.items (Polling.queues s Polling.done_queue)) = 2
   /\ Polling.main s = Polling.MEnd
   /\ Polling.stdout s = [(2, 15)])
  /\
  (Polling.alive (Polling.workers s Polling.Supload)
   /\ Polling.step Polling.source_funcs 2 (Polling.T Polling.Supload) s <> None
   /\ exists sched,
        let r' := Polling.exec Polling.source_funcs 2 sched s in
        Polling.reach Polling.source_funcs 2 (Polling.init 2) (fst r ++ fst r') (snd r')
        /\ Polling.polled_count (Polling.workers (snd r') Polling.Supload)
           = Polling.polled_count (Polling.workers s Polling.Supload) + 1000).
Proof.
  intros r s. split.
  - split; [eexists; apply polling_exec_reach|].
    split; [|split]; vm_compute; reflexivity.
  - destruct (polling_workers_never_exit Polling.source_funcs 2 (Polling.init 2) s (fst r))
      with (st := Polling.Supload) as [A [E H]].
    + intros [] x; now exists x.
    + intros st e. simpl. discriminate.
    + apply polling_exec_reach.
    + split; [exact A|]. split; [exact E|]. exact (H 1000).
Defined.

(** ** A run of [example_five] that delivers every item *)

Section DeliveringRun.
Import Pipeline.
Variable funcs : stage -> pyobj -> result pyobj.

Lemma exec_app a : forall b s,
  snd (exec funcs (a ++ b) s) = snd (exec funcs b (snd (exec funcs a s))).
Proof.
  induction a as [|t a IH]; intros b s; simpl; [reflexivity|].
  destruct (step funcs t s) as [[ev s1]|].
  - specialize (IH b s1).
    destruct (exec funcs (a ++ b) s1) as [tr1 s2].
    destruct (exec funcs a s1) as [tr2 s3]. exact IH.
  - apply IH.
Qed.

Lemma exec_blocked t k s :
  step funcs t s = None -> snd (exec funcs (repeat t k) s) = s.
Proof. intros H. induction k as [|k IH]; simpl; [reflexivity|]. now rewrite H. Qed.

Lemma exec_one t s ev s' :
  step funcs t s = Some (ev, s') -> snd (exec funcs [t] s) = s'.
Proof. intros H. simpl. now rewrite H. Qed.

Lemma updw_same W st pc : updw W st pc st = pc.
Proof. unfold updw. now rewrite stage_eqb_refl. Qed.

(** Scheduling one worker [k] times in a row is that worker running alone. *)
Lemma exec_worker_alone st k :
  forall s tr pcf Qf,
    run_worker (funcs st) (in_queue_of st) (out_queue_of st) k (workers s st) (queues s)
    = (tr, pcf, Qf) ->
    let s' := snd (exec funcs (repeat (T st) k) s) in
    queues s' = Qf
    /\ workers s' st = pcf
    /\ (forall st', stage_eqb st' st = false -> workers s' st' = workers s st')
    /\ main s' = main s /\ next_id s' = next_id s /\ stdout s' = stdout s.
Proof.
  induction k as [|k IH]; intros s tr pcf Qf H; simpl in H.
  - inversion H; subst. simpl. repeat split; auto.
  - cbn [repeat exec step].
    destruct (worker_step _ _ _ _ _) as [[[ev pc'] Q']|] eqn:E.
    + destruct (run_worker _ _ _ k pc' Q') as [[tr' pc''] Q''] eqn:R.
      inversion H; subst.
      set (s1 := mkState Q' (updw (workers s) st pc') (main s) (next_id s) (stdout s)).
      assert (R1 : run_worker (funcs st) (in_queue_of st) (out_queue_of st) k
                              (workers s1 st) (queues s1) = (tr', pcf, Qf)).
      { subst s1. simpl. now rewrite updw_same. }
      specialize (IH s1 tr' pcf Qf R1).
      destruct (exec funcs (repeat (T st) k) s1) as [tr2 s2]. simpl in *.
      destruct IH as [H1 [H2 [H3 [H4 [H5 H6]]]]].
      repeat split; auto.
      intros st' Hne. rewrite H3 by exact Hne. unfold updw. now rewrite Hne.
    + inversion H; subst.
      assert (B : step funcs (T st) s = None) by (simpl; now rewrite E).
      pose proof (exec_blocked (T st) k s B) as Hb.
      destruct (exec funcs (repeat (T st) k) s) as [tr2 s2]. simpl in *. subst s2.
      repeat split; auto.
Qed.

(** The feeding loop of line 191-192. *)
Lemma exec_feed k :
  forall s rest,
    main s = repeat (CPut download_queue) k ++ rest ->
    Queue.maxsize (queues s download_queue) = 0 ->
    let s' := snd (exec funcs (repeat Main k) s) in
    queues s' download_queue
    = Queue.mk 0 (Queue.buf (queues s download_queue) ++ map object (seq (next_id s) k))
               (Queue.unfinished_tasks (queues s download_queue) + k)
    /\ (forall q, qname_eqb q download_queue = false -> queues s' q = queues s q)
    /\ (forall st, workers s' st = workers s st)
    /\ main s' = rest /\ next_id s' = next_id s + k /\ stdout s' = stdout s.
Proof.
  induction k as [|k IH]; intros s rest Hm Hb.
  - simpl in *. repeat split; auto.
    destruct (queues s download_queue) as [m b u]. simpl in *. subst m.
    rewrite app_nil_r. f_equal. lia.
  - cbn [repeat exec step]. unfold main_step. rewrite Hm. simpl.
    rewrite put_unbounded by exact Hb.
    set (s1 := mkState _ _ _ _ _).
    specialize (IH s1 rest eq_refl eq_refl).
    destruct (exec funcs (repeat Main k) s1) as [tr2 s2]. simpl in *.
    destruct IH as [H1 [H2 [H3 [H4 [H5 H6]]]]].
    repeat split; auto.
    + rewrite H1. rewrite <- app_assoc. simpl. f_equal. lia.
    + intros q Hq. rewrite H2 by exact Hq. unfold upd. now rewrite Hq.
    + lia.
Qed.

Lemma step_close s q rest :
  main s = CClose q :: rest ->
  Queue.maxsize (queues s q) = 0 ->
  step funcs Main s
  = Some (EPut ClosableQueue.SENTINEL,
          mkState (upd (queues s) q
                       (Queue.mk 0 (Queue.buf (queues s q) ++ [ClosableQueue.SENTINEL])
                                 (S (Queue.unfinished_tasks (queues s q)))))
                  (workers s) rest (next_id s) (stdout s)).
Proof.
  intros Hm Hb. simpl. unfold main_step. rewrite Hm.
  unfold ClosableQueue.close. now rewrite put_unbounded by exact Hb.
Qed.

Lemma step_join s q rest :
  main s = CJoin q :: rest ->
  Queue.unfinished_tasks (queues s q) = 0 ->
  step funcs Main s
  = Some (EJoin, mkState (queues s) (workers s) rest (next_id s) (stdout s)).
Proof.
  intros Hm Hu. simpl. unfold main_step. rewrite Hm.
  unfold Queue.join. now rewrite Hu.
Qed.
End DeliveringRun.

Section DeliveringRunOfSource.
Import Pipeline.

Lemma source_items_ok st items :
  (forall x, In x items -> ClosableQueue.is_sentinel x = false) ->
  forall x, In x items ->
    ClosableQueue.is_sentinel x = false /\ source_funcs st x = Ok ((fun y => y) x).
Proof. intros H x Hx. split; [now apply H|]. now destruct st. Qed.

(** A worker left alone on [items] followed by the sentinel. *)
Lemma worker_drains st s items rest :
  workers s st = WGet ->
  Queue.buf (queues s (in_queue_of st)) = items ++ ClosableQueue.SENTINEL :: rest ->
  (forall x, In x items -> ClosableQueue.is_sentinel x = false) ->
  Queue.maxsize (queues s (out_queue_of st)) = 0 ->
  length items < Queue.unfinished_tasks (queues s (in_queue_of st)) ->
  let s' := snd (exec source_funcs (repeat (T st) (4 * length items + 2)) s) in
  moved (in_queue_of st) (out_queue_of st) (queues s) (queues s')
        (length items + 1) rest items
  /\ workers s' st = WExited
  /\ (forall st', stage_eqb st' st = false -> workers s' st' = workers s st')
  /\ main s' = main s.
Proof.
  intros Hw Hb Hi Hm Hu.
  assert (Hd : qname_eqb (in_queue_of st) (out_queue_of st) = false) by now destruct st.
  destruct (run_worker_to_sentinel (source_funcs st) (in_queue_of st) (out_queue_of st)
              Hd (fun y => y) (queues s) items ClosableQueue.SENTINEL rest 0
              Hb (source_items_ok st items Hi) eq_refl Hm Hu) as [Qf [Hr M]].
  replace (4 * length items + 2 + 0) with (4 * length items + 2) in Hr by lia.
  rewrite <- Hw in Hr.
  destruct (exec_worker_alone source_funcs st _ s _ _ _ Hr) as [H1 [H2 [H3 [H4 _]]]].
  cbv zeta. rewrite H1. rewrite map_id in M. auto.
Qed.

(** A worker left alone on [items], no sentinel behind them. *)
Lemma worker_forwards st s items :
  workers s st = WGet ->
  Queue.buf (queues s (in_queue_of st)) = items ->
  (forall x, In x items -> ClosableQueue.is_sentinel x = false) ->
  Queue.maxsize (queues s (out_queue_of st)) = 0 ->
  length items <= Queue.unfinished_tasks (queues s (in_queue_of st)) ->
  let s' := snd (exec source_funcs (repeat (T st) (4 * length items)) s) in
  moved (in_queue_of st) (out_queue_of st) (queues s) (queues s') (length items) [] items
  /\ workers s' st = WGet
  /\ (forall st', stage_eqb st' st = false -> workers s' st' = workers s st')
  /\ main s' = main s.
Proof.
  intros Hw Hb Hi Hm Hu.
  assert (Hd : qname_eqb (in_queue_of st) (out_queue_of st) = false) by now destruct st.
  rewrite <- (app_nil_r items) in Hb.
  destruct (run_worker_items (source_funcs st) (in_queue_of st) (out_queue_of st)
              Hd (fun y => y) items (queues s) [] 0
              Hb (source_items_ok st items Hi) Hm Hu) as [Q1 [Hr M]].
  replace (4 * length items + 0) with (4 * length items) in Hr by lia.
  cbn [run_worker] in Hr. rewrite app_nil_r in Hr. rewrite <- Hw in Hr.
  destruct (exec_worker_alone source_funcs st _ s _ _ _ Hr) as [H1 [H2 [H3 [H4 _]]]].
  cbv zeta. rewrite H1. rewrite map_id in M. rewrite Hw in H2. auto.
Qed.

Lemma fed_items_payload n x :
  In x (map object (seq 1 n)) -> ClosableQueue.is_sentinel x = false.
Proof.
  intros H. apply in_map_iff in H. destruct H as [k [<- Hk]].
  apply in_seq in Hk. destruct k; [lia|reflexivity].
Qed.

Lemma phase_close_download s d r u o w1 w2 w3 m :
  at_state s d r u o w1 w2 w3 (CClose download_queue :: m) ->
  Queue.maxsize d = 0 ->
  at_state (snd (exec source_funcs [Main] s))
           (Queue.mk 0 (Queue.buf d ++ [ClosableQueue.SENTINEL])
                     (S (Queue.unfinished_tasks d)))
           r u o w1 w2 w3 m.
Proof.
  intros [Hd [Hr [Hu [Ho [H1 [H2 [H3 Hm]]]]]]] Hb.
  rewrite (exec_one _ _ _ _ _ (step_close source_funcs s download_queue m Hm
                                          ltac:(now rewrite Hd))).
  unfold at_state, upd. simpl. rewrite Hd. repeat split; auto.
Qed.

Lemma phase_close_resize s d r u o w1 w2 w3 m :
  at_state s d r u o w1 w2 w3 (CClose resize_queue :: m) ->
  Queue.maxsize r = 0 ->
  at_state (snd (exec source_funcs [Main] s))
           d (Queue.mk 0 (Queue.buf r ++ [ClosableQueue.SENTINEL])
                       (S (Queue.unfinished_tasks r)))
           u o w1 w2 w3 m.
Proof.
  intros [Hd [Hr [Hu [Ho [H1 [H2 [H3 Hm]]]]]]] Hb.
  rewrite (exec_one _ _ _ _ _ (step_close source_funcs s resize_queue m Hm
                                          ltac:(now rewrite Hr))).
  unfold at_state, upd. simpl. rewrite Hr. repeat split; auto.
Qed.

Lemma phase_join_download s d r u o w1 w2 w3 m :
  at_state s d r u o w1 w2 w3 (CJoin download_queue :: m) ->
  Queue.unfinished_tasks d = 0 ->
  at_state (snd (exec source_funcs [Main] s)) d r u o w1 w2 w3 m.
Proof.
  intros [Hd [Hr [Hu [Ho [H1 [H2 [H3 Hm]]]]]]] Hb.
  rewrite (exec_one _ _ _ _ _ (step_join source_funcs s download_queue m Hm
                                         ltac:(now rewrite Hd))).
  unfold at_state. simpl. repeat split; auto.
Qed.

Lemma phase_download s items rest ud br ur u o w2 w3 m :
  at_state s (Queue.mk 0 (items ++ ClosableQueue.SENTINEL :: rest) ud)
           (Queue.mk 0 br ur) u o WGet w2 w3 m ->
  (forall x, In x items -> ClosableQueue.is_sentinel x = false) ->
  length items < ud ->
  at_state (snd (exec source_funcs (repeat (T Sdownload) (4 * length items + 2)) s))
           (Queue.mk 0 rest (ud - (length items + 1)))
           (Queue.mk 0 (br ++ items) (ur + length items))
           u o WExited w2 w3 m.
Proof.
  intros [Hd [Hr [Hu [Ho [H1 [H2 [H3 Hm]]]]]]] Hi Hl.
  destruct (worker_drains Sdownload s items rest H1) as [[Mi [Mo Mf]] [Hw [Hf Hm']]].
  - cbn [in_queue_of]. now rewrite Hd.
  - exact Hi.
  - cbn [out_queue_of]. now rewrite Hr.
  - cbn [in_queue_of]. now rewrite Hd.
  - cbn [in_queue_of out_queue_of] in Mi, Mo, Mf.
    rewrite Hd in Mi. rewrite Hr in Mo.
    cbn [Queue.maxsize Queue.buf Queue.unfinished_tasks] in Mi, Mo.
    unfold at_state. rewrite Mi, Mo, Hw, Hm', !Hf, !Mf by reflexivity.
    repeat split; auto.
Qed.

Lemma phase_resize s items rest d ur bu uu o w1 w3 m :
  at_state s d (Queue.mk 0 (items ++ ClosableQueue.SENTINEL :: rest) ur)
           (Queue.mk 0 bu uu) o w1 WGet w3 m ->
  (forall x, In x items -> ClosableQueue.is_sentinel x = false) ->
  length items < ur ->
  at_state (snd (exec source_funcs (repeat (T Sresize) (4 * length items + 2)) s))
           d (Queue.mk 0 rest (ur - (length items + 1)))
           (Queue.mk 0 (bu ++ items) (uu + length items))
           o w1 WExited w3 m.
Proof.
  intros [Hd [Hr [Hu [Ho [H1 [H2 [H3 Hm]]]]]]] Hi Hl.
  destruct (worker_drains Sresize s items rest H2) as [[Mi [Mo Mf]] [Hw [Hf Hm']]].
  - cbn [in_queue_of]. now rewrite Hr.
  - exact Hi.
  - cbn [out_queue_of]. now rewrite Hu.
  - cbn [in_queue_of]. now rewrite Hr.
  - cbn [in_queue_of out_queue_of] in Mi, Mo, Mf.
    rewrite Hr in Mi. rewrite Hu in Mo.
    cbn [Queue.maxsize Queue.buf Queue.unfinished_tasks] in Mi, Mo.
    unfold at_state. rewrite Mi, Mo, Hw, Hm', !Hf, !Mf by reflexivity.
    repeat split; auto.
Qed.

Lemma phase_upload s items d r uu bo uo w1 w2 m :
  at_state s d r (Queue.mk 0 items uu) (Queue.mk 0 bo uo) w1 w2 WGet m ->
  (forall x, In x items -> ClosableQueue.is_sentinel x = false) ->
  length items <= uu ->
  at_state (snd (exec source_funcs (repeat (T Supload) (4 * length items)) s))
           d r (Queue.mk 0 [] (uu - length items))
           (Queue.mk 0 (bo ++ items) (uo + length items))
           w1 w2 WGet m.
Proof.
  intros [Hd [Hr [Hu [Ho [H1 [H2 [H3 Hm]]]]]]] Hi Hl.
  destruct (worker_forwards Supload s items H3) as [[Mi [Mo Mf]] [Hw [Hf Hm']]].
  - cbn [in_queue_of]. now rewrite Hu.
  - exact Hi.
  - cbn [out_queue_of]. now rewrite Ho.
  - cbn [in_queue_of]. now rewrite Hu.
  - cbn [in_queue_of out_queue_of] in Mi, Mo, Mf.
    rewrite Hu in Mi. rewrite Ho in Mo.
    cbn [Queue.maxsize Queue.buf Queue.unfinished_tasks] in Mi, Mo.
    unfold at_state. rewrite Mi, Mo, Hw, Hm', !Hf, !Mf by reflexivity.
    repeat split; auto.
Qed.

(** For every number of items there is a run in which all of them reach
    [done_queue], both stages before the last have returned, and the main
    thread stands at line 198 with a sentinel left in [resize_queue]. *)
Lemma example_five_delivers n :
  at_state (snd (exec source_funcs (delivering_schedule n) (init n)))
           (Queue.mk 0 [] 0) (Queue.mk 0 [ClosableQueue.SENTINEL] 1)
           (Queue.mk 0 [] 0) (Queue.mk 0 (map object (seq 1 n)) n)
           WExited WExited WGet from_second_join.
Proof.
  unfold delivering_schedule. rewrite !exec_app.
  (* lines 191-192 *)
  destruct (exec_feed source_funcs n (init n) shutdown_script eq_refl eq_refl)
    as [F1 [F2 [F3 [F4 _]]]].
  set (s1 := snd (exec source_funcs (repeat Main n) (init n))) in *.
  assert (A : at_state s1 (Queue.mk 0 (map object (seq 1 n)) n) ClosableQueue.init
                       ClosableQueue.init ClosableQueue.init WGet WGet WGet
                       shutdown_script).
  { unfold at_state. rewrite F1, !F2, !F3, F4 by reflexivity. repeat split. }
  clearbody s1. clear F1 F2 F3 F4.
  assert (Hlen : length (map object (seq 1 n)) = n)
    by now rewrite length_map, length_seq.
  assert (Hpay : forall x, In x (map object (seq 1 n)) ->
                           ClosableQueue.is_sentinel x = false)
    by (intros x; apply fed_items_payload).
  remember (map object (seq 1 n)) as items eqn:Ei. clear Ei.
  (* line 193 *)
  apply phase_close_download in A; [|reflexivity].
  cbn [Queue.buf Queue.unfinished_tasks] in A.
  set (s2 := snd (exec source_funcs [Main] s1)) in *. clearbody s2.
  (* the download worker *)
  subst n.
  apply phase_download in A; [|exact Hpay|lia].
  set (s3 := snd (exec source_funcs _ s2)) in *. clearbody s3.
  replace (S (length items) - (length items + 1)) with 0 in A by lia.
  (* lines 195-197 *)
  apply phase_join_download in A; [|reflexivity].
  set (s4 := snd (exec source_funcs [Main] s3)) in *. clearbody s4.
  apply phase_close_resize in A; [|reflexivity].
  set (s5 := snd (exec source_funcs [Main] s4)) in *. clearbody s5.
  apply phase_close_resize in A; [|reflexivity].
  set (s6 := snd (exec source_funcs [Main] s5)) in *. clearbody s6.
  cbn [Queue.buf Queue.unfinished_tasks app] in A.
  rewrite <- app_assoc in A. cbn [app] in A.
  (* the resize worker *)
  apply phase_resize in A; [|exact Hpay|lia].
  set (s7 := snd (exec source_funcs _ s6)) in *. clearbody s7.
  (* the upload worker *)
  cbn [app] in A.
  apply phase_upload in A; [|exact Hpay|lia].
  replace (S (S (0 + length items)) - (length items + 1)) with 1 in A by lia.
  replace (0 + length items - length items) with 0 in A by lia.
  replace (0 + length items) with (length items) in A by lia.
  exact A.
Qed.
End DeliveringRunOfSource.

(** C1 (the code departs from it).  For every number [n] of items:
    in every state [example_five] can reach, under any schedule,
    [done_queue] holds a prefix of the [n] objects fed, in the order fed
    (nothing foreign, nothing twice), but the main thread is still at or
    before [resize_queue.join()] of line 198, nothing has been printed, and
    the upload worker has not returned: the close/join sequence is never
    completed.  And there is a run that delivers all [n] items to
    [done_queue] and then leaves every thread without a step: the main
    thread waits in that [join], the upload worker in its [get]. *)
Theorem example_five_stuck_at_second_join (n : nat) :
  (forall s,
      Pipeline.reachable n s ->
      (exists rest,
          Queue.buf (Pipeline.queues s Pipeline.done_queue) ++ rest
          = map object (seq 1 n))
      /\ (exists pre, Pipeline.main s = pre ++ Pipeline.from_second_join)
      /\ Pipeline.stdout s = []
      /\ Pipeline.workers s Pipeline.Supload <> Pipeline.WExited)
  /\
  (let s := snd (Pipeline.exec Pipeline.source_funcs (Pipeline.delivering_schedule n)
                               (Pipeline.init n)) in
   Pipeline.reachable n s
   /\ Queue.buf (Pipeline.queues s Pipeline.done_queue) = map object (seq 1 n)
   /\ Queue.qsize (Pipeline.queues s Pipeline.done_queue) = n
   /\ Pipeline.main s = Pipeline.from_second_join
   /\ forall t, Pipeline.step Pipeline.source_funcs t s = None).
Proof.
  split.
  - intros s R. apply inv_reachable in R.
    destruct R as [Iu Is Ii Ib Im Id If Io Iup].
    split; [|split; [|split]].
    + destruct (fed_prefix n s Im) as [rest Hr].
      rewrite <- If in Hr. unfold Pipeline.in_flight in Hr.
      rewrite (count_sentinel_payload _ Id) in Hr.
      rewrite <- app_assoc in Hr. eexists. exact Hr.
    + destruct Im as [[k [Hm _]]|[_ [pre [_ Hm]]]].
      * exists (repeat (Pipeline.CPut Pipeline.download_queue) k
                ++ firstn 4 Pipeline.shutdown_script).
        rewrite Hm, <- app_assoc. reflexivity.
      * exists pre. exact Hm.
    + exact Io.
    + intros E. rewrite E in Iup. simpl in Iup. lia.
  - pose proof (example_five_delivers n) as [Hd [Hr [Hu [Ho [H1 [H2 [H3 Hm]]]]]]].
    cbv zeta. split; [apply exec_reachable|].
    split; [now rewrite Ho|].
    split; [unfold Queue.qsize; rewrite Ho; simpl; now rewrite length_map, length_seq|].
    split; [exact Hm|].
    intros [|[]]; simpl.
    + unfold Pipeline.main_step. rewrite Hm. simpl. now rewrite Hr.
    + now rewrite H1.
    + now rewrite H2.
    + rewrite H3. simpl. now rewrite Hu.
Qed.

Lemma example_five_stuck_witness :
  let s := snd (Pipeline.exec Pipeline.source_funcs (Pipeline.round_robin 30)
                              (Pipeline.init 2)) in
  (Pipeline.reachable 2 s
   /\ Queue.buf (Pipeline.queues s Pipeline.done_queue) = [object 1; object 2]
   /\ Pipeline.main s = Pipeline.from_second_join
   /\ forall t, Pipeline.step Pipeline.source_funcs t s = None)
  /\
  ((exists rest,
       Queue.buf (Pipeline.queues s Pipeline.done_queue) ++ rest = map object (seq 1 2))
   /\ (exists pre, Pipeline.main s = pre ++ Pipeline.from_second_join)
   /\ Pipeline.stdout s = []
   /\ Pipeline.workers s Pipeline.Supload <> Pipeline.WExited).
Proof.
  intros s. split.
  - split; [apply exec_reachable|].
    split; [vm_compute; reflexivity|].
    split; [vm_compute; reflexivity|].
    intros [|[]]; vm_compute; reflexivity.
  - destruct (example_five_stuck_at_second_join 2) as [H _].
    apply (H s). apply exec_reachable.
Defined.

(** ** The two-thread examples: every schedule *)

Section HandoffRuns.
Import Handoff.
Variable s0 : State.

Lemma extend_step tr s t ev s' :
  step t s = Some (ev, s') -> In (tr ++ [(t, ev)], s') (extend (tr, s)).
Proof.
  intros H. unfold extend. apply in_flat_map. exists t. split.
  - destruct t; simpl; auto.
  - simpl. rewrite H. now left.
Qed.

Lemma extend_inv n n' :
  In n' (extend n) ->
  exists t ev, step t (snd n) = Some (ev, snd n') /\ fst n' = fst n ++ [(t, ev)].
Proof.
  unfold extend. intros H. apply in_flat_map in H. destruct H as [t [_ H]].
  destruct (step t (snd n)) as [[ev s']|] eqn:E; [|contradiction].
  destruct H as [<-|[]]. exists t, ev. now split.
Qed.

(** Every run is listed, at its length. *)
Lemma runs_complete tr s : reach s0 tr s -> In (tr, s) (runs s0 (length tr)).
Proof.
  induction 1 as [|tr s t ev s' _ IH H].
  - now left.
  - rewrite length_app, Nat.add_comm. simpl. apply in_flat_map.
    exists (tr, s). split; [exact IH|]. now apply extend_step.
Qed.

(** What is listed is a run. *)
Lemma runs_sound k : forall n, In n (runs s0 k) -> reach s0 (fst n) (snd n).
Proof.
  induction k as [|k IH]; intros n H; simpl in H.
  - destruct H as [<-|[]]. apply reach_nil.
  - apply in_flat_map in H. destruct H as [m [Hm H]].
    apply extend_inv in H. destruct H as [t [ev [Hs Hf]]].
    rewrite Hf. eapply reach_snoc; [apply IH; exact Hm|exact Hs].
Qed.

Lemma runs_none k : runs s0 k = [] -> forall j, k <= j -> runs s0 j = [].
Proof.
  intros H j Hj. induction Hj as [|j _ IH]; [exact H|].
  simpl. now rewrite IH.
Qed.

Lemma checkb_sound N P :
  checkb s0 N P = true ->
  forall tr s, reach s0 tr s -> length tr <= N /\ P (tr, s) = true.
Proof.
  unfold checkb. intros H tr s R.
  apply andb_true_iff in H. destruct H as [Hall Hend].
  apply runs_complete in R.
  assert (Hlen : length tr <= N).
  { destruct (le_lt_dec (length tr) N) as [L|L]; [exact L|exfalso].
    destruct (runs s0 (S N)) eqn:E; [|discriminate].
    rewrite (runs_none (S N) E (length tr)) in R by lia. contradiction. }
  split; [exact Hlen|].
  rewrite forallb_forall in Hall.
  specialize (Hall (length tr)). rewrite forallb_forall in Hall.
  apply (Hall ltac:(apply in_seq; lia) (tr, s) R).
Qed.

Lemma stuckb_stuck s : stuck s -> stuckb s = true.
Proof. intros H. unfold stuckb. now rewrite (H Main), (H Child). Qed.

Lemma finishedb_finished s : finishedb s = true -> finished s.
Proof.
  unfold finishedb, finished.
  destruct (tstate_eq_dec (main s) (Running [])); [|discriminate].
  destruct (tstate_eq_dec (child s) (Running [])); [|discriminate]. auto.
Qed.

Lemma prefixb_prefix l1 l2 : prefixb l1 l2 = true -> exists rest, l1 ++ rest = l2.
Proof.
  unfold prefixb. destruct (list_eq_dec _ _ _) as [E|]; [|discriminate].
  intros _. exists (skipn (length l1) l2). rewrite E at 1. apply firstn_skipn.
Qed.

Lemma printed_spec msg s : printed msg s = false -> ~ In msg (stdout s).
Proof. unfold printed. now destruct (in_dec _ _ _). Qed.

Lemma run_printing_sound k out n :
  run_printing s0 k out = Some n ->
  reach s0 (fst n) (snd n) /\ finished (snd n) /\ stdout (snd n) = out.
Proof.
  unfold run_printing. intros H. apply find_some in H. destruct H as [Hin H].
  apply andb_true_iff in H. destruct H as [Hf Ho].
  split; [now apply (runs_sound k)|]. split; [now apply finishedb_finished|].
  now destruct (lines_eq_dec _ _).
Qed.

Lemma handoff_reach_cons t ev s1 tr s :
  step t s0 = Some (ev, s1) ->
  reach s1 tr s ->
  reach s0 ((t, ev) :: tr) s.
Proof.
  intros H0 R. induction R as [|tr s t' ev' s' _ IH H].
  - apply (reach_snoc s0 [] s0 t ev s1 (reach_nil s0) H0).
  - apply (reach_snoc s0 ((t, ev) :: tr) s t' ev' s' IH H).
Qed.
End HandoffRuns.

Lemma handoff_exec_reach sched :
  forall s0,
    Handoff.reach s0 (fst (Handoff.exec sched s0)) (snd (Handoff.exec sched s0)).
Proof.
  induction sched as [|t sched IH]; intros s0; simpl.
  - apply Handoff.reach_nil.
  - destruct (Handoff.step t s0) as [[ev s1]|] eqn:E.
    + specialize (IH s1). destruct (Handoff.exec sched s1) as [tr s2]. simpl in *.
      eapply handoff_reach_cons; eauto.
    + apply IH.
Qed.

(** X1.  [example_three], under every schedule: a run has at most 12
    steps; [queue] never buffers more than one item; the queue operations
    happen in the order the comments of the source give (first put, first
    get, second put, second get); the program cannot block before both
    threads have returned, and what it has printed by then is one of five
    interleavings, each ending with [Producer done].  Each of the five is
    printed by some schedule. *)
Theorem example_three_runs :
  (forall tr s,
      Handoff.reach (Handoff.init Handoff.example_three) tr s ->
      length tr <= 12
      /\ length (Queue.buf (Handoff.g_queue s)) <= 1
      /\ (exists rest, Handoff.queue_ops tr ++ rest = Handoff.three_ops)
      /\ (Handoff.stuck s ->
          Handoff.finished s /\ In (Handoff.stdout s) Handoff.three_outputs))
  /\
  (forall out,
      In out Handoff.three_outputs ->
      exists tr s,
        Handoff.reach (Handoff.init Handoff.example_three) tr s
        /\ Handoff.finished s /\ Handoff.stdout s = out).
Proof.
  split.
  - intros tr s R.
    destruct (checkb_sound (Handoff.init Handoff.example_three) 12 Handoff.three_ok
                ltac:(vm_compute; reflexivity) tr s R) as [Hlen H].
    unfold Handoff.three_ok in H. simpl fst in H. simpl snd in H.
    apply andb_true_iff in H. destruct H as [H H3].
    apply andb_true_iff in H. destruct H as [H1 H2].
    split; [exact Hlen|]. split; [now apply Nat.leb_le|].
    split; [now apply prefixb_prefix|].
    intros St. rewrite (stuckb_stuck s St) in H3.
    apply andb_true_iff in H3. destruct H3 as [Hf Ho].
    split; [now apply finishedb_finished|].
    now destruct (in_dec _ _ _).
  - intros out Hin.
    destruct (Handoff.run_printing (Handoff.init Handoff.example_three) 12 out)
      as [n|] eqn:E.
    + exists (fst n), (snd n). now apply (run_printing_sound _ 12).
    + exfalso. simpl in Hin.
      destruct Hin as [<-|[<-|[<-|[<-|[<-|[]]]]]]; vm_compute in E; discriminate E.
Qed.

Lemma example_three_runs_witness :
  let r := Handoff.exec (Handoff.alternate 8) (Handoff.init Handoff.example_three) in
  (Handoff.reach (Handoff.init Handoff.example_three) (fst r) (snd r)
   /\ Handoff.stuck (snd r)
   /\ Handoff.stdout (snd r)
      = nth 1 Handoff.three_outputs [])
  /\
  (length (fst r) <= 12
   /\ Handoff.finished (snd r)
   /\ In (Handoff.stdout (snd r)) Handoff.three_outputs).
Proof.
  intros r.
  assert (R : Handoff.reach (Handoff.init Handoff.example_three) (fst r) (snd r))
    by apply handoff_exec_reach.
  assert (St : Handoff.stuck (snd r)) by (intros []; vm_compute; reflexivity).
  split.
  - split; [exact R|]. split; [exact St|]. vm_compute. reflexivity.
  - destruct example_three_runs as [H _].
    destruct (H (fst r) (snd r) R) as [Hl [_ [_ Hs]]].
    destruct (Hs St) as [Hf Ho]. auto.
Defined.

(** X2.  [example_two] hangs, as the comment of line 205 says, under every
    schedule: a run has at most 6 steps, [Producer done] is never printed
    and the consumer thread never ends; when no thread can move, the
    consumer waits in its second [queue.get()] on the empty queue, the main
    thread in [thread.join()], and the output is [Producer putting],
    [Consumer got 1]. *)
Theorem example_two_hangs tr s :
  Handoff.reach (Handoff.init Handoff.example_two) tr s ->
  length tr <= 6
  /\ ~ In Handoff.producer_done (Handoff.stdout s)
  /\ Handoff.ended (Handoff.child s) = false
  /\ (Handoff.stuck s ->
      Handoff.main s = Handoff.Running Handoff.two_main_left
      /\ Handoff.child s = Handoff.Running Handoff.two_child_left
      /\ Handoff.stdout s = Handoff.two_output
      /\ Queue.buf (Handoff.g_queue s) = []).
Proof.
  intros R.
  destruct (checkb_sound (Handoff.init Handoff.example_two) 6 Handoff.two_ok
              ltac:(vm_compute; reflexivity) tr s R) as [Hlen H].
  unfold Handoff.two_ok in H. simpl fst in H. simpl snd in H.
  apply andb_true_iff in H. destruct H as [H H3].
  apply andb_true_iff in H. destruct H as [H1 H2].
  apply negb_true_iff in H1, H2.
  split; [exact Hlen|]. split; [now apply printed_spec|]. split; [exact H2|].
  intros St. rewrite (stuckb_stuck s St) in H3.
  repeat (apply andb_true_iff in H3; destruct H3 as [H3 ?]).
  destruct (Handoff.tstate_eq_dec (Handoff.main s) _); [|discriminate].
  destruct (Handoff.tstate_eq_dec (Handoff.child s) _); [|discriminate].
  destruct (Handoff.lines_eq_dec (Handoff.stdout s) _); [|discriminate].
  destruct (Queue.buf (Handoff.g_queue s)); [|discriminate].
  auto.
Qed.

Lemma example_two_hangs_witness :
  let r := Handoff.exec (Handoff.alternate 8) (Handoff.init Handoff.example_two) in
  (Handoff.reach (Handoff.init Handoff.example_two) (fst r) (snd r)
   /\ Handoff.stuck (snd r))
  /\
  (length (fst r) <= 6
   /\ Handoff.stdout (snd r) = Handoff.two_output
   /\ Handoff.ended (Handoff.child (snd r)) = false).
Proof.
  intros r.
  assert (R : Handoff.reach (Handoff.init Handoff.example_two) (fst r) (snd r))
    by apply handoff_exec_reach.
  assert (St : Handoff.stuck (snd r)) by (intros []; vm_compute; reflexivity).
  split; [now split|].
  destruct (example_two_hangs (fst r) (snd r) R) as [Hl [_ [He Hs]]].
  destruct (Hs St) as [_ [_ [Ho _]]]. auto.
Defined.

Lemma task_marked_spec tr :
  Handoff.task_marked tr = true ->
  In (Handoff.Child, Handoff.HTaskDone Handoff.Gin_queue) tr.
Proof.
  unfold Handoff.task_marked. intros H. apply existsb_exists in H.
  destruct H as [[t ev] [Hin H]].
  destruct t; [discriminate|]. destruct ev; try discriminate.
  destruct q; [discriminate|]. exact Hin.
Qed.

Lemma join_returned_spec tr :
  In (Handoff.Main, Handoff.HJoinQueue Handoff.Gin_queue) tr ->
  Handoff.join_returned tr = true.
Proof.
  intros H. unfold Handoff.join_returned. apply existsb_exists.
  eexists. split; [exact H|reflexivity].
Qed.

Lemma printed_true msg s :
  In msg (Handoff.stdout s) -> Handoff.printed msg s = true.
Proof. unfold Handoff.printed. intros H. now destruct (in_dec _ _ _). Qed.

Lemma printed_in msg s :
  Handoff.printed msg s = true -> In msg (Handoff.stdout s).
Proof. unfold Handoff.printed. now destruct (in_dec _ _ _). Qed.

(** X3.  [example_four], under every schedule: a run has at most 10 steps;
    [in_queue.join()] returns, and [Producer done] is printed, only once
    the consumer has printed [Consumer done] and called [task_done], when
    [in_queue] is empty and has no unfinished task ([join] waits for the
    task, not for the thread); the program cannot block before both threads
    have returned, and its output is then one of four interleavings.  The
    output the docstring of [example_four] shows is one of them, and some
    schedule prints it. *)
Theorem example_four_runs :
  (forall tr s,
      Handoff.reach (Handoff.init Handoff.example_four) tr s ->
      length tr <= 10
      /\ (In (Handoff.Main, Handoff.HJoinQueue Handoff.Gin_queue) tr
          \/ In Handoff.producer_done (Handoff.stdout s) ->
          In (Handoff.Child, Handoff.HTaskDone Handoff.Gin_queue) tr
          /\ In Handoff.consumer_done (Handoff.stdout s)
          /\ Queue.unfinished_tasks (Handoff.g_in_queue s) = 0
          /\ Queue.buf (Handoff.g_in_queue s) = [])
      /\ (Handoff.stuck s ->
          Handoff.finished s /\ In (Handoff.stdout s) Handoff.four_outputs))
  /\
  (forall out,
      In out Handoff.four_outputs ->
      exists tr s,
        Handoff.reach (Handoff.init Handoff.example_four) tr s
        /\ Handoff.finished s /\ Handoff.stdout s = out)
  /\ In Handoff.four_docstring Handoff.four_outputs.
Proof.
  split; [|split].
  - intros tr s R.
    destruct (checkb_sound (Handoff.init Handoff.example_four) 10 Handoff.four_ok
                ltac:(vm_compute; reflexivity) tr s R) as [Hlen H].
    unfold Handoff.four_ok in H. simpl fst in H. simpl snd in H.
    apply andb_true_iff in H. destruct H as [H1 H2].
    split; [exact Hlen|]. split.
    + intros Hp.
      assert (E : Handoff.join_returned tr
                  || Handoff.printed Handoff.producer_done s = true).
      { apply orb_true_iff. destruct Hp as [Hp|Hp];
          [left; now apply join_returned_spec|right; now apply printed_true]. }
      rewrite E in H1.
      apply andb_true_iff in H1. destruct H1 as [H1 Hb].
      apply andb_true_iff in H1. destruct H1 as [H1 Hu].
      apply andb_true_iff in H1. destruct H1 as [Ht Hc].
      split; [now apply task_marked_spec|].
      split; [now apply printed_in|].
      split; [now apply Nat.eqb_eq|].
      destruct (Queue.buf (Handoff.g_in_queue s)); [reflexivity|discriminate].
    + intros St. rewrite (stuckb_stuck s St) in H2.
      apply andb_true_iff in H2. destruct H2 as [Hf Ho].
      split; [now apply finishedb_finished|].
      now destruct (in_dec _ _ _).
  - intros out Hin.
    destruct (Handoff.run_printing (Handoff.init Handoff.example_four) 10 out)
      as [n|] eqn:E.
    + exists (fst n), (snd n). now apply (run_printing_sound _ 10).
    + exfalso. simpl in Hin.
      destruct Hin as [<-|[<-|[<-|[<-|[]]]]]; vm_compute in E; discriminate E.
  - right. now left.
Qed.

Lemma example_four_runs_witness :
  let sched := [Handoff.Main; Handoff.Child; Handoff.Main; Handoff.Main]
                 ++ Handoff.alternate 8 in
  let r := Handoff.exec sched (Handoff.init Handoff.example_four) in
  (Handoff.reach (Handoff.init Handoff.example_four) (fst r) (snd r)
   /\ Handoff.stuck (snd r)
   /\ Handoff.stdout (snd r) = Handoff.four_docstring)
  /\
  (length (fst r) <= 10
   /\ Handoff.finished (snd r)
   /\ In (Handoff.Child, Handoff.HTaskDone Handoff.Gin_queue) (fst r)
   /\ Queue.unfinished_tasks (Handoff.g_in_queue (snd r)) = 0).
Proof.
  intros sched r.
  assert (R : Handoff.reach (Handoff.init Handoff.example_four) (fst r) (snd r))
    by apply handoff_exec_reach.
  assert (St : Handoff.stuck (snd r)) by (intros []; vm_compute; reflexivity).
  assert (Ho : Handoff.stdout (snd r) = Handoff.four_docstring)
    by (vm_compute; reflexivity).
  split; [auto|].
  destruct example_four_runs as [H _].
  destruct (H (fst r) (snd r) R) as [Hl [Hp Hs]].
  destruct (Hs St) as [Hf _].
  assert (Hd : In Handoff.producer_done (Handoff.stdout (snd r)))
    by (rewrite Ho; simpl; auto 10).
  destruct (Hp (or_intror Hd)) as [Ht [_ [Hu _]]].
  split; [exact Hl|]. split; [exact Hf|]. split; [exact Ht|exact Hu].
Defined.

(** ** The polling pipeline of [example_one]: what it keeps *)

Section PollingInvariant.
Import Polling PollingInv.
Variable n : nat.

Lemma polling_fed_next s :
  1 <= next_id s ->
  map object (seq 1 (S (next_id s) - 1)) = fed s ++ [object (next_id s)].
Proof.
  unfold fed. intros H. destruct (next_id s) as [|k]; [lia|].
  replace (S (S k) - 1) with (S k) by lia.
  replace (S k - 1) with k by lia.
  now rewrite seq_S, map_app.
Qed.

Lemma polling_inv_init : inv n (init n).
Proof.
  constructor; simpl.
  - reflexivity.
  - unfold main_ok. simpl. repeat split; lia.
  - intros []; cbv; lia.
  - intros []; reflexivity.
  - intros st e. simpl. discriminate.
Qed.

Lemma in_flight_length s :
  in_flight s = fed s ->
  length (MyQueue.items (queues s done_queue)) <= next_id s - 1.
Proof.
  intros H. apply (f_equal (@length pyobj)) in H. unfold in_flight, fed in H.
  rewrite !length_app, length_map, length_seq in H. lia.
Qed.

Lemma taken_ge_done st s :
  length (MyQueue.items (queues s done_queue)) <= taken st s.
Proof. destruct st; unfold taken; lia. Qed.

Ltac only_main H If Ip Iw Ia :=
  inversion H; subst; clear H;
  constructor; [exact If | unfold main_ok; simpl | exact Ip | exact Iw | exact Ia].

Lemma polling_inv_step_main s ev s' :
  inv n s -> main_step n s = Some (ev, s') -> inv n s'.
Proof.
  intros [If Im Ip Iw Ia] H.
  pose proof (in_flight_length s If) as Hlen.
  unfold main_step in H. unfold main_ok in Im.
  destruct (main s) as [[|k]| | | |p [|st todo] acc|p polled|] eqn:Em.
  - (* the feeding loop is over *)
    only_main H If Ip Iw Ia. split; [lia|tauto].
  - (* [download_queue.put(object())] *)
    inversion H; subst; clear H. destruct Im as [Hn [Hk Ho]].
    constructor; simpl.
    + unfold in_flight, upd. simpl. unfold fed. simpl next_id.
      rewrite polling_fed_next by lia. rewrite <- If. unfold in_flight.
      now rewrite <- !app_assoc.
    + unfold main_ok. simpl. repeat split; auto; lia.
    + exact Ip.
    + exact Iw.
    + exact Ia.
  - (* the test of the waiting loop *)
    destruct (_ <? n) eqn:E.
    + only_main H If Ip Iw Ia. exact Im.
    + only_main H If Ip Iw Ia. apply Nat.ltb_ge in E. tauto.
  - only_main H If Ip Iw Ia. exact Im.
  - (* [processed = len(done_queue.items)] *)
    only_main H If Ip Iw Ia. destruct Im as [Hn [Ho Hd]].
    repeat split; auto; lia.
  - only_main H If Ip Iw Ia. destruct Im as [Hn [Ho [Hd [Hp [Hl Ha]]]]].
    simpl in Ha. repeat split; auto; lia.
  - (* one more [polled_count] read *)
    only_main H If Ip Iw Ia. destruct Im as [Hn [Ho [Hd [Hp [Hl Ha]]]]].
    pose proof (Ip st) as Hs. pose proof (taken_ge_done st s) as Ht.
    simpl in Hl. repeat split; auto; try lia.
    destruct todo as [|a [|b [|c todo]]]; simpl in *; lia.
  - (* [print] *)
    inversion H; subst; clear H. destruct Im as [Hn [Ho [Hd [Hp Ha]]]].
    constructor; [exact If | unfold main_ok; simpl | exact Ip | exact Iw | exact Ia].
    split; [exact Hn|]. split; [exact Hd|]. exists polled. rewrite Ho. subst p. auto.
  - discriminate.
Qed.
Lemma polling_inv_step_worker st s ev w' Q' :
  inv n s ->
  worker_step (source_funcs st) (in_queue_of st) (out_queue_of st)
              (workers s st) (queues s) = Some (ev, w', Q') ->
  inv n (mkState Q' (updw (workers s) st w') (main s) (next_id s) (stdout s)).
Proof.
  intros [If Im Ip Iw Ia] H.
  pose proof (Ip Sdownload) as Ip1. pose proof (Ip Sresize) as Ip2.
  pose proof (Ip Supload) as Ip3.
  pose proof (Iw Sdownload) as Iw1. pose proof (Iw Sresize) as Iw2.
  pose proof (Iw Supload) as Iw3.
  pose proof (Ia Sdownload) as Ia1. pose proof (Ia Sresize) as Ia2.
  pose proof (Ia Supload) as Ia3.
  clear Ip Iw Ia.
  unfold in_flight in If. unfold main_ok in Im.
  unfold taken, polling, uncounted, held in *.
  destruct st;
    (match type of H with
     | worker_step _ _ _ ?w _ = _ => destruct w as [p c d] eqn:Ew
     end);
    destruct p; unfold worker_step, MyQueue.get, download, resize, upload in H;
    simpl in H.
  all: try discriminate.
  all: try (match type of H with
            | context [match MyQueue.items ?q with _ => _ end] =>
                destruct (MyQueue.items q) as [|y rest] eqn:Eq
            end).
  all: inversion H; subst; clear H.
  all: constructor; simpl.
  all: try (intros []; unfold updw; simpl;
            first [assumption | intros e; simpl; discriminate]).
  all: try (intros []; unfold taken, polling, uncounted, held, upd, updw; simpl;
            rewrite ?Ew, ?Eq, ?length_app; simpl in *; lia).
  all: try (unfold in_flight, held, upd, updw; simpl; rewrite ?Ew, ?Eq; simpl in *;
            rewrite <- ?app_assoc; simpl; assumption).
  all: unfold main_ok, upd; simpl; destruct (main s); simpl in *;
    rewrite ?length_app; simpl;
    repeat match goal with
           | A : _ /\ _ |- _ => destruct A
           | A : exists _, _ |- _ => destruct A
           end;
    repeat split; eauto; lia.
Qed.

Lemma polling_inv_reach tr s : reach source_funcs n (init n) tr s -> inv n s.
Proof.
  induction 1 as [|tr s t ev s' _ IH H].
  - apply polling_inv_init.
  - destruct t as [|st]; simpl in H.
    + eapply polling_inv_step_main; eauto.
    + destruct (worker_step _ _ _ _ _) as [[[ev' w'] Q']|] eqn:E; [|discriminate].
      inversion H; subst. eapply polling_inv_step_worker; eauto.
Qed.

Lemma polling_inv_reachable s : reachable n s -> inv n s.
Proof. intros [tr R]. eapply polling_inv_reach; eauto. Qed.

Lemma polling_fed_bound s : main_ok n s -> next_id s - 1 <= n.
Proof.
  unfold main_ok. destruct (main s); intros H;
    repeat match goal with A : _ /\ _ |- _ => destruct A end; lia.
Qed.

Lemma polling_fed_prefix s :
  main_ok n s -> exists rest, fed s ++ rest = map object (seq 1 n).
Proof.
  intros H. apply polling_fed_bound in H. unfold fed.
  exists (map object (seq (1 + (next_id s - 1)) (n - (next_id s - 1)))).
  rewrite <- map_app, <- seq_app. f_equal. f_equal. lia.
Qed.
End PollingInvariant.

Lemma polling_exec_reachable n sched :
  Polling.reachable n
    (snd (Polling.exec Polling.source_funcs n sched (Polling.init n))).
Proof. eexists. apply polling_exec_reach. Qed.

(** X4.  [example_one] loses, repeats and reorders nothing: in every
    reachable state, the items of [done_queue], then what the upload worker
    holds, the items of [upload_queue], what the resize worker holds, and
    so on back to [download_queue], are together exactly the objects the
    main thread has fed, in the order it fed them.  So [done_queue.items]
    is always a prefix of the [n] fed objects. *)
Theorem example_one_conserves (n : nat) (s : Polling.State) :
  Polling.reachable n s ->
  PollingInv.in_flight s = PollingInv.fed s
  /\ (exists rest,
         MyQueue.items (Polling.queues s Polling.done_queue) ++ rest
         = map object (seq 1 n))
  /\ length (MyQueue.items (Polling.queues s Polling.done_queue)) <= n.
Proof.
  intros R. apply polling_inv_reachable in R. destruct R as [If Im _ _ _].
  split; [exact If|].
  destruct (polling_fed_prefix n s Im) as [rest Hr].
  pose proof (in_flight_length s If) as Hl.
  pose proof (polling_fed_bound n s Im) as Hb.
  split; [|lia].
  rewrite <- If in Hr. unfold PollingInv.in_flight in Hr.
  rewrite <- app_assoc in Hr. eexists. exact Hr.
Qed.

Lemma example_one_conserves_witness :
  let s := snd (Polling.exec Polling.source_funcs 3 (Polling.round_robin 12)
                             (Polling.init 3)) in
  (Polling.reachable 3 s
   /\ MyQueue.items (Polling.queues s Polling.done_queue) = [object 1]
   /\ PollingInv.in_flight s = [object 1; object 2; object 3])
  /\
  (PollingInv.in_flight s = PollingInv.fed s
   /\ length (MyQueue.items (Polling.queues s Polling.done_queue)) <= 3).
Proof.
  intros s.
  assert (R : Polling.reachable 3 s) by apply polling_exec_reachable.
  split.
  - split; [exact R|]. split; vm_compute; reflexivity.
  - destruct (example_one_conserves 3 s R) as [H1 [_ H2]]. split; [exact H1|exact H2].
Defined.

(** X5.  What [example_one] prints: whatever the schedule, if the line
    [Processed p items after polling q times] is printed, then [p] is the
    number [n] of items fed, [done_queue.items] holds exactly the fed
    objects in order, the main thread has returned, and [q] is at least
    [3 * n]: each of the three workers polled at least once per item. *)
Theorem example_one_report (n : nat) (s : Polling.State) (p q : nat) :
  Polling.reachable n s ->
  In (p, q) (Polling.stdout s) ->
  p = n /\ 3 * n <= q
  /\ Polling.stdout s = [(p, q)]
  /\ Polling.main s = Polling.MEnd
  /\ MyQueue.items (Polling.queues s Polling.done_queue) = map object (seq 1 n).
Proof.
  intros R Hin. apply polling_inv_reachable in R. destruct R as [If Im _ _ _].
  pose proof (polling_fed_prefix n s Im) as [rest Hr].
  pose proof (in_flight_length s If) as Hl.
  unfold PollingInv.main_ok in Im.
  destruct (Polling.main s) eqn:Em;
    repeat match goal with
           | A : _ /\ _ |- _ => destruct A
           | A : exists _, _ |- _ => destruct A
           end;
    try (match goal with A : Polling.stdout s = [] |- _ => rewrite A in Hin end;
         contradiction).
  match goal with A : Polling.stdout s = [_] |- _ => rewrite A in Hin |- * end.
  destruct Hin as [E|[]]. inversion E; subst.
  repeat split; auto.
  rewrite <- If in Hr. unfold PollingInv.in_flight in Hr.
  rewrite <- app_assoc in Hr.
  assert (Hlen : length (MyQueue.items (Polling.queues s Polling.done_queue)) = p)
    by lia.
  apply (f_equal (@length pyobj)) in Hr as Hr'.
  rewrite length_app, length_map, length_seq in Hr'.
  match type of Hr with _ ++ ?r = _ => destruct r; [|simpl in Hr'; lia] end.
  now rewrite app_nil_r in Hr.
Qed.

Lemma example_one_report_witness :
  let s := snd (Polling.exec Polling.source_funcs 2 (Polling.round_robin 40)
                             (Polling.init 2)) in
  (Polling.reachable 2 s /\ In (2, 15) (Polling.stdout s))
  /\
  (3 * 2 <= 15
   /\ Polling.main s = Polling.MEnd
   /\ MyQueue.items (Polling.queues s Polling.done_queue) = [object 1; object 2]).
Proof.
  intros s.
  assert (R : Polling.reachable 2 s) by apply polling_exec_reachable.
  assert (Hin : In (2, 15) (Polling.stdout s)) by (vm_compute; now left).
  split; [split; [exact R|exact Hin]|].
  destruct (example_one_report 2 s 2 15 R Hin) as [_ [Hq [_ [Hm Hd]]]].
  split; [exact Hq|]. split; [exact Hm|exact Hd].
Defined.

(** X6.  What the counters of a polling [Worker] count in [example_one]:
    in every reachable state, [work_done], plus one when the worker has put
    an item and not yet counted it, plus one when it holds an item, is the
    number of items it has dequeued (those it holds and those further down
    the pipeline); for the upload worker [work_done] is the length of
    [done_queue.items], less the item just put.  [polled_count] is never
    below the number of items dequeued, so never below [work_done], and
    [work_done] never exceeds the number of items fed. *)
Theorem example_one_counters (n : nat) (s : Polling.State) (st : Polling.stage) :
  Polling.reachable n s ->
  let w := Polling.workers s st in
  Polling.work_done w + PollingInv.uncounted w + length (PollingInv.held w)
  = PollingInv.taken st s
  /\ PollingInv.taken st s + PollingInv.polling w <= Polling.polled_count w
  /\ Polling.work_done w <= Polling.polled_count w
  /\ Polling.work_done w <= n
  /\ Polling.work_done (Polling.workers s Polling.Supload)
     + PollingInv.uncounted (Polling.workers s Polling.Supload)
     = length (MyQueue.items (Polling.queues s Polling.done_queue)).
Proof.
  intros R w. apply polling_inv_reachable in R. destruct R as [If Im Ip Iw _].
  pose proof (Iw st) as Hw. pose proof (Ip st) as Hp. fold w in Hw, Hp.
  pose proof (Iw Polling.Supload) as Hu. unfold PollingInv.taken in Hu.
  assert (Ht : PollingInv.taken st s <= n).
  { pose proof (polling_fed_bound n s Im) as Hb.
    apply (f_equal (@length pyobj)) in If.
    unfold PollingInv.in_flight, PollingInv.fed in If.
    rewrite !length_app, length_map, length_seq in If.
    destruct st; unfold PollingInv.taken; lia. }
  repeat split; try lia.
Qed.

Lemma example_one_counters_witness :
  let s := snd (Polling.exec Polling.source_funcs 2 (Polling.round_robin 40)
                             (Polling.init 2)) in
  Polling.reachable 2 s
  /\ Polling.work_done (Polling.workers s Polling.Supload) = 2
  /\ Polling.work_done (Polling.workers s Polling.Sdownload)
     <= Polling.polled_count (Polling.workers s Polling.Sdownload)
  /\ Polling.work_done (Polling.workers s Polling.Sdownload) <= 2.
Proof.
  intros s.
  assert (R : Polling.reachable 2 s) by apply polling_exec_reachable.
  split; [exact R|]. split; [vm_compute; reflexivity|].
  destruct (example_one_counters 2 s Polling.Sdownload R) as [_ [_ [H1 [H2 _]]]].
  split; [exact H1|exact H2].
Defined.

(** ** The pipeline of [example_five]: order and accounting *)

Section PipelineOrderInvariant.
Import Pipeline PipelineOrder.
Variable n : nat.

Ltac close_unbounded H Ib :=
  unfold ClosableQueue.close in H;
  rewrite put_unbounded in H by apply Ib;
  inversion H; subst; clear H.

Lemma tail_sentinels_nil : tail_sentinels [].
Proof. exists [], 0. now split. Qed.

Lemma tail_sentinels_pop y rest : tail_sentinels (y :: rest) -> tail_sentinels rest.
Proof.
  intros [p [k [E Hp]]]. destruct p as [|x p]; simpl in E.
  - destruct k as [|k]; [discriminate|]. simpl in E. inversion E; subst.
    exists [], k. now split.
  - inversion E; subst. exists p, k. split; [reflexivity|].
    unfold count_sentinel in *. simpl in Hp.
    destruct (ClosableQueue.is_sentinel x); simpl in Hp; [discriminate|exact Hp].
Qed.

Lemma tail_sentinels_item l x :
  count_sentinel l = 0 ->
  ClosableQueue.is_sentinel x = false ->
  tail_sentinels (l ++ [x]).
Proof.
  intros Hl Hx. exists (l ++ [x]), 0. split; [now rewrite app_nil_r|].
  rewrite count_sentinel_app, Hl. unfold count_sentinel. simpl. now rewrite Hx.
Qed.

Lemma tail_sentinels_close l :
  tail_sentinels l -> tail_sentinels (l ++ [ClosableQueue.SENTINEL]).
Proof.
  intros [p [k [E Hp]]]. exists p, (S k). split; [|exact Hp].
  rewrite E, <- app_assoc. f_equal.
  change [ClosableQueue.SENTINEL] with (repeat ClosableQueue.SENTINEL 1).
  rewrite <- repeat_app. f_equal. lia.
Qed.

Lemma sentinel_last y rest :
  tail_sentinels (y :: rest) ->
  ClosableQueue.is_sentinel y = true ->
  count_sentinel rest = 0 ->
  rest = [].
Proof.
  intros [p [k [E Hp]]] Hy Hr. destruct p as [|x p]; simpl in E.
  - destruct k as [|k]; [discriminate|]. simpl in E. inversion E; subst.
    destruct k as [|k]; [reflexivity|]. simpl in Hr. discriminate Hr.
  - inversion E; subst. unfold count_sentinel in Hp. simpl in Hp.
    rewrite Hy in Hp. discriminate Hp.
Qed.

Lemma order_inv_init : inv (init n).
Proof.
  constructor; simpl.
  - unfold script. rewrite closes_left_feed. reflexivity.
  - apply tail_sentinels_nil.
  - apply tail_sentinels_nil.
  - left. unfold script. apply in_or_app. right. simpl. auto.
  - reflexivity.
  - reflexivity.
  - intros st. exact I.
Qed.

Lemma order_inv_step_main s ev s' :
  Pipeline.inv n s -> inv s -> main_step s = Some (ev, s') -> inv s'.
Proof.
  intros [Iu Is Ii Ib Im Id If Io Iup] [Jd Jo Jr Jj Jn Ju Js] H.
  pose proof (Iu Sdownload) as Iu1. simpl in Iu1.
  unfold main_step in H.
  destruct Im as [[k [Hm [Hk Hkn]]] | [Hn [pre [Hin Hm]]]].
  - destruct k as [|k]; rewrite Hm in H; simpl in H, Hm.
    + (* line 193 *)
      close_unbounded H Ib. rewrite Hm in Jd, Jj. simpl in Jd.
      constructor; unfold upd; simpl; auto.
      * rewrite count_sentinel_app. unfold count_sentinel at 2. simpl.
        unfold count_sentinel in *. lia.
      * now apply tail_sentinels_close.
      * intros Hs. lia.
    + (* line 192 *)
      close_unbounded H Ib. rewrite Hm in Jd, Jj. simpl in Jd.
      rewrite closes_left_feed in Jd. simpl in Jd.
      constructor; unfold upd; simpl; auto.
      * rewrite closes_left_feed. simpl. rewrite count_sentinel_app.
        unfold count_sentinel at 2. simpl.
        replace (next_id s) with (S (next_id s - 1)) by lia. simpl.
        unfold count_sentinel in *. lia.
      * apply tail_sentinels_item; [lia|].
        replace (next_id s) with (S (next_id s - 1)) by lia. reflexivity.
      * left. apply in_or_app. right. simpl. auto.
      * intros Hs. lia.
  - simpl in Hin.
    destruct Hin as [<-|[<-|[<-|[<-|[]]]]]; rewrite Hm in H; simpl in H, Hm.
    + (* line 195: once [download_queue.join()] returns, the worker has *)
      unfold Queue.join in H.
      destruct (Queue.unfinished_tasks (queues s download_queue) =? 0) eqn:E;
        [|discriminate].
      apply Nat.eqb_eq in E. inversion H; subst; clear H.
      rewrite Hm in Jd. simpl in Jd.
      constructor; simpl; auto.
      right.
      assert (Hb : Queue.buf (queues s download_queue) = [])
        by (destruct (Queue.buf (queues s download_queue)); [reflexivity|simpl in Iu1; lia]).
      rewrite Hb in Jd, Iu1. unfold count_sentinel in Jd. simpl in Jd, Iu1.
      destruct (workers s Sdownload); simpl in *; try lia. reflexivity.
    + (* line 196 *)
      close_unbounded H Ib. rewrite Hm in Jd, Jj. simpl in Jd, Jj.
      constructor; unfold upd; simpl; auto.
      * now apply tail_sentinels_close.
      * right. destruct Jj as [[E|[E|[E|[E|[E|[E|[]]]]]]]|Jj]; try discriminate E.
        exact Jj.
    + (* line 197 *)
      close_unbounded H Ib. rewrite Hm in Jd, Jj. simpl in Jd, Jj.
      constructor; unfold upd; simpl; auto.
      * now apply tail_sentinels_close.
      * right. destruct Jj as [[E|[E|[E|[E|[E|[]]]]]]|Jj]; try discriminate E.
        exact Jj.
    + (* line 198 cannot return *)
      exfalso. unfold Queue.join in H.
      destruct (Queue.unfinished_tasks (queues s resize_queue) =? 0) eqn:E;
        [|discriminate].
      apply Nat.eqb_eq in E. rewrite Hm in Is. simpl in Is.
      pose proof (Iu Sresize) as Iu2. simpl in Iu2.
      pose proof (count_sentinel_le (Queue.buf (queues s resize_queue))).
      pose proof (saw_sentinel_le (workers s Sresize)). lia.
Qed.

Lemma before_join_closes s :
  main_shape n s ->
  In (CJoin download_queue) (main s) ->
  closes_left resize_queue (main s) = 2.
Proof.
  intros [[k [Hm _]] | [_ [pre [Hin Hm]]]] Hj; rewrite Hm in *.
  - now rewrite closes_left_feed.
  - simpl in Hin. destruct Hin as [<-|[<-|[<-|[<-|[]]]]]; simpl in *;
      try reflexivity;
      repeat (destruct Hj as [Hj|Hj]; [discriminate Hj|]); contradiction.
Qed.

Lemma order_inv_step_worker st s ev pc' Q' :
  Pipeline.inv n s -> inv s ->
  worker_step (source_funcs st) (in_queue_of st) (out_queue_of st)
              (workers s st) (queues s) = Some (ev, pc', Q') ->
  inv (mkState Q' (updw (workers s) st pc') (main s) (next_id s) (stdout s)).
Proof.
  intros [Iu Is Ii Ib Im Id If Io Iup] [Jd Jo Jr Jj Jn Ju Js] H.
  pose proof (Iu Sdownload) as Iu1. pose proof (Iu Sresize) as Iu2.
  pose proof (Iu Supload) as Iu3. simpl in Iu1, Iu2, Iu3.
  pose proof (Ii Sdownload) as Ii1.
  pose proof (Js Sdownload) as Js1. pose proof (Js Sresize) as Js2.
  pose proof (Js Supload) as Js3.
  assert (Hrq : workers s Sdownload <> WExited ->
                count_sentinel (Queue.buf (queues s resize_queue)) = 0).
  { intros Hne. destruct Jj as [Jj|Jj]; [|contradiction].
    pose proof (before_join_closes s Im Jj). lia. }
  clear Js If Ii Iu.
  destruct st;
    (match type of H with
     | worker_step _ _ _ ?w _ = _ => destruct w as [|x|x| | |e| |e] eqn:Ew
     end);
    simpl in H;
    unfold Queue.get, Queue.task_done, download, resize, upload in H.
  all: try discriminate.
  all: try contradiction.
  all: try rewrite put_unbounded in H by apply Ib.
  all: try (match type of H with
            | context [match Queue.buf ?q with _ => _ end] =>
                destruct (Queue.buf q) as [|y rest] eqn:Eb; [discriminate|];
                destruct (ClosableQueue.is_sentinel y) eqn:Ey
            end).
  all: try (match type of H with
            | context [match Queue.unfinished_tasks ?q with _ => _ end] =>
                destruct (Queue.unfinished_tasks q) as [|u] eqn:Eu;
                [exfalso; simpl in *; lia|]
            end).
  all: inversion H; subst; clear H.
  all: constructor; unfold upd, updw; simpl; try assumption.
  all: try (intros []; simpl; first [assumption | exact I]).
  all: try (rewrite ?length_app; simpl; lia).
  all: try (unfold count_sentinel in *; simpl in *; rewrite ?Ey in *; simpl in *; lia).
  all: try (eapply tail_sentinels_pop; eassumption).
  all: try (destruct Jj as [Jj|Jj]; [now left|discriminate Jj]).
  all: try (intros Hs; simpl in Hs; first [discriminate Hs | now apply Jn]).
  - intros _. apply (sentinel_last y rest Jo Ey).
    unfold count_sentinel in *. simpl in Jd. rewrite Ey in Jd. simpl in Jd. lia.
  - apply tail_sentinels_item.
    + apply Hrq. discriminate.
    + apply Ii1. simpl. auto.
Qed.

Lemma order_inv_reach tr s :
  reach source_funcs (init n) tr s -> Pipeline.inv n s /\ inv s.
Proof.
  induction 1 as [|tr s t ev s' _ [IH1 IH2] H].
  - split; [apply inv_init|apply order_inv_init].
  - split; [eapply inv_step; eauto|].
    destruct t as [|st]; simpl in H.
    + eapply order_inv_step_main; eauto.
    + destruct (worker_step _ _ _ _ _) as [[[ev' pc'] Q']|] eqn:E; [|discriminate].
      inversion H; subst. eapply order_inv_step_worker; eauto.
Qed.

Lemma order_inv_reachable s : reachable n s -> Pipeline.inv n s /\ inv s.
Proof. intros [tr R]. eapply order_inv_reach; eauto. Qed.
End PipelineOrderInvariant.

(** X7.  [example_five] loses, repeats and reorders nothing on the way: in
    every reachable state, the payload of [done_queue], then what the upload
    worker holds, the payload of [upload_queue], and so on back to
    [download_queue], are together exactly the objects fed so far, in the
    order fed.  The sentinel is never an item in a worker's hand, and it
    never reaches [upload_queue] or [done_queue]. *)
Theorem example_five_conserves (n : nat) (s : Pipeline.State) :
  Pipeline.reachable n s ->
  Pipeline.in_flight s = Pipeline.fed s
  /\ (forall st x,
         In x (Pipeline.held (Pipeline.workers s st)) ->
         ClosableQueue.is_sentinel x = false)
  /\ Pipeline.count_sentinel (Queue.buf (Pipeline.queues s Pipeline.upload_queue)) = 0
  /\ Pipeline.count_sentinel (Queue.buf (Pipeline.queues s Pipeline.done_queue)) = 0
  /\ length (Pipeline.in_flight s) <= n.
Proof.
  intros R. apply inv_reachable in R.
  destruct R as [Iu Is Ii Ib Im Id If Io Iup].
  split; [exact If|]. split; [exact Ii|]. split; [lia|]. split; [exact Id|].
  rewrite If. unfold Pipeline.fed. rewrite length_map, length_seq.
  destruct Im as [[k [_ [Hk _]]]|[Hn _]]; lia.
Qed.

Lemma example_five_conserves_witness :
  let s := snd (Pipeline.exec Pipeline.source_funcs (Pipeline.round_robin 7)
                              (Pipeline.init 3)) in
  (Pipeline.reachable 3 s
   /\ Pipeline.in_flight s = [object 1; object 2; object 3])
  /\
  (Pipeline.in_flight s = Pipeline.fed s
   /\ Pipeline.count_sentinel (Queue.buf (Pipeline.queues s Pipeline.done_queue)) = 0).
Proof.
  intros s.
  assert (R : Pipeline.reachable 3 s) by apply exec_reachable.
  split.
  - split; [exact R|]. vm_compute. reflexivity.
  - destruct (example_five_conserves 3 s R) as [H1 [_ [_ [H2 _]]]].
    split; [exact H1|exact H2].
Defined.

(** X8.  The point of joining a queue before closing the next one: in
    every reachable state of [example_five] no item is buffered behind a
    sentinel, in [download_queue] and in [resize_queue] alike.  From the
    moment [download_queue.join()] has returned, [download_queue] is empty
    with no unfinished task, its worker has dequeued the sentinel and
    called [task_done] for it, and all [n] fed objects are, in order, in
    [resize_queue] or further down the pipeline.  A sentinel is in
    [resize_queue] only then, so nothing is ever put behind it. *)
Theorem example_five_closes_after_drain (n : nat) (s : Pipeline.State) :
  Pipeline.reachable n s ->
  PipelineOrder.tail_sentinels (Queue.buf (Pipeline.queues s Pipeline.download_queue))
  /\ PipelineOrder.tail_sentinels (Queue.buf (Pipeline.queues s Pipeline.resize_queue))
  /\ (In (Pipeline.CJoin Pipeline.download_queue) (Pipeline.main s)
      \/ (PipelineOrder.download_drained s
          /\ PipelineOrder.past_download s = map object (seq 1 n)))
  /\ (1 <= Pipeline.count_sentinel (Queue.buf (Pipeline.queues s Pipeline.resize_queue)) ->
      ~ In (Pipeline.CJoin Pipeline.download_queue) (Pipeline.main s)
      /\ PipelineOrder.download_drained s
      /\ PipelineOrder.past_download s = map object (seq 1 n)).
Proof.
  intros R. apply order_inv_reachable in R.
  destruct R as [[Iu Is Ii Ib Im Id If Io Iup] [Jd Jo Jr Jj Jn Ju Js]].
  assert (Hdr : Pipeline.workers s Pipeline.Sdownload = Pipeline.WExited ->
                PipelineOrder.download_drained s
                /\ PipelineOrder.past_download s = map object (seq 1 n)).
  { intros Hw.
    assert (Hb : Queue.buf (Pipeline.queues s Pipeline.download_queue) = [])
      by (apply Jn; now rewrite Hw).
    pose proof (Iu Pipeline.Sdownload) as Hu. simpl in Hu.
    rewrite Hb, Hw in Hu. simpl in Hu.
    split.
    - unfold PipelineOrder.download_drained. rewrite Hw.
      repeat split; auto.
    - unfold Pipeline.in_flight in If. rewrite Hb, Hw in If. simpl in If.
      rewrite !app_nil_r in If. unfold PipelineOrder.past_download.
      rewrite If. unfold Pipeline.fed.
      assert (Hn : Pipeline.next_id s = S n).
      { destruct Im as [[k [Hm _]]|[Hn _]]; [|exact Hn].
        rewrite Hm, Hw in Jd. rewrite closes_left_feed in Jd. simpl in Jd. lia. }
      rewrite Hn. simpl. now rewrite Nat.sub_0_r. }
  split; [exact Jo|]. split; [exact Jr|]. split.
  - destruct Jj as [Jj|Jj]; [now left|right; now apply Hdr].
  - intros Hc.
    assert (Hj : ~ In (Pipeline.CJoin Pipeline.download_queue) (Pipeline.main s)).
    { intros Jj'. pose proof (before_join_closes n s Im Jj'). lia. }
    split; [exact Hj|].
    destruct Jj as [Jj|Jj]; [contradiction|now apply Hdr].
Qed.

Lemma example_five_closes_after_drain_witness :
  let s := snd (Pipeline.exec Pipeline.source_funcs (Pipeline.round_robin 9)
                              (Pipeline.init 1)) in
  (Pipeline.reachable 1 s
   /\ 1 <= Pipeline.count_sentinel (Queue.buf (Pipeline.queues s Pipeline.resize_queue)))
  /\
  (Queue.buf (Pipeline.queues s Pipeline.download_queue) = []
   /\ Queue.unfinished_tasks (Pipeline.queues s Pipeline.download_queue) = 0
   /\ PipelineOrder.past_download s = [object 1]).
Proof.
  intros s.
  assert (R : Pipeline.reachable 1 s) by apply exec_reachable.
  assert (Hc : 1 <= Pipeline.count_sentinel
                      (Queue.buf (Pipeline.queues s Pipeline.resize_queue)))
    by (vm_compute; lia).
  split; [split; [exact R|exact Hc]|].
  destruct (example_five_closes_after_drain 1 s R) as [_ [_ [_ H]]].
  destruct (H Hc) as [_ [[Hb [Hu _]] Hp]].
  split; [exact Hb|]. split; [exact Hu|exact Hp].
Defined.

(** X9.  Accounting in [example_five]: in every reachable state the
    unfinished-task count of each worker's input queue is the number of
    items it buffers plus the item its consumer holds, and that of
    [done_queue], which nobody reads, is its size.  So a worker that holds
    an item can always mark it done: [task_done] never raises, and no
    worker is ever ended by an exception. *)
Theorem example_five_accounts (n : nat) (s : Pipeline.State) :
  Pipeline.reachable n s ->
  (forall st,
      Queue.unfinished_tasks (Pipeline.queues s (Pipeline.in_queue_of st))
      = length (Queue.buf (Pipeline.queues s (Pipeline.in_queue_of st)))
        + Pipeline.in_hand (Pipeline.workers s st))
  /\ Queue.unfinished_tasks (Pipeline.queues s Pipeline.done_queue)
     = Queue.qsize (Pipeline.queues s Pipeline.done_queue)
  /\ (forall st,
         Pipeline.in_hand (Pipeline.workers s st) = 1 ->
         exists q', Queue.task_done (Pipeline.queues s (Pipeline.in_queue_of st)) = Ok q')
  /\ (forall st e,
         Pipeline.workers s st <> Pipeline.WFailed e
         /\ Pipeline.workers s st <> Pipeline.WUnwind e).
Proof.
  intros R. apply order_inv_reachable in R.
  destruct R as [[Iu Is Ii Ib Im Id If Io Iup] [Jd Jo Jr Jj Jn Ju Js]].
  split; [exact Iu|]. split; [exact Ju|]. split.
  - intros st Hh. pose proof (Iu st) as H. rewrite Hh in H.
    unfold Queue.task_done.
    destruct (Queue.unfinished_tasks
                (Pipeline.queues s (Pipeline.in_queue_of st))) as [|u] eqn:E;
      [lia|]. eexists. reflexivity.
  - intros st e. pose proof (Js st) as H.
    split; intros E; rewrite E in H; exact H.
Qed.

Lemma example_five_accounts_witness :
  let s := snd (Pipeline.exec Pipeline.source_funcs (Pipeline.round_robin 3)
                              (Pipeline.init 2)) in
  (Pipeline.reachable 2 s
   /\ Pipeline.in_hand (Pipeline.workers s Pipeline.Sdownload) = 1)
  /\
  (Queue.unfinished_tasks (Pipeline.queues s Pipeline.download_queue) = 3
   /\ exists q',
        Queue.task_done (Pipeline.queues s Pipeline.download_queue) = Ok q').
Proof.
  intros s.
  assert (R : Pipeline.reachable 2 s) by apply exec_reachable.
  assert (Hh : Pipeline.in_hand (Pipeline.workers s Pipeline.Sdownload) = 1)
    by (vm_compute; reflexivity).
  split; [split; [exact R|exact Hh]|].
  destruct (example_five_accounts 2 s R) as [_ [_ [H _]]].
  split; [vm_compute; reflexivity|]. exact (H Pipeline.Sdownload Hh).
Defined.

(** ** Runs of [example_one] that end *)

Section PollingRuns.
Import Polling.
Variable n : nat.

Lemma polling_reachable_worker s st ev w' Q' :
  reachable n s ->
  worker_step (source_funcs st) (in_queue_of st) (out_queue_of st)
              (workers s st) (queues s) = Some (ev, w', Q') ->
  reachable n (mkState Q' (updw (workers s) st w') (main s) (next_id s) (stdout s)).
Proof.
  intros [tr R] H. exists (tr ++ [(T st, ev)]).
  apply (reach_snoc _ _ _ tr s (T st) ev); [exact R|].
  unfold step. now rewrite H.
Qed.

Lemma polling_reachable_main s ev s' :
  reachable n s -> main_step n s = Some (ev, s') -> reachable n s'.
Proof.
  intros [tr R] H. exists (tr ++ [(Main, ev)]).
  apply (reach_snoc _ _ _ tr s Main ev); [exact R|exact H].
Qed.

(** One poll of an empty queue: count, [get] raises, sleep. *)
Lemma polling_empty_poll s st p w :
  reachable n s ->
  workers s st = mkWorker PCount p w ->
  MyQueue.items (queues s (in_queue_of st)) = [] ->
  exists s',
    reachable n s'
    /\ workers s' st = mkWorker PCount (S p) w
    /\ (forall q, queues s' q = queues s q)
    /\ (forall st', st' <> st -> workers s' st' = workers s st')
    /\ main s' = main s /\ next_id s' = next_id s /\ stdout s' = stdout s.
Proof.
  intros R Hw Hq.
  destruct st; cbn in Hq;
    match type of Hw with
    | workers _ ?st = _ =>
        (eapply (polling_reachable_worker _ st) in R;
          [|unfold worker_step; rewrite Hw; reflexivity]);
        (eapply (polling_reachable_worker _ st) in R;
          [|unfold worker_step, MyQueue.get; cbn; rewrite Hq; reflexivity]);
        (eapply (polling_reachable_worker _ st) in R; [|reflexivity])
    end;
    (eexists; split; [exact R|]);
    cbn; repeat split; try reflexivity;
    intros []; intros; try congruence; reflexivity.
Qed.

Lemma polling_empty_polls k : forall s st p w,
  reachable n s ->
  workers s st = mkWorker PCount p w ->
  MyQueue.items (queues s (in_queue_of st)) = [] ->
  exists s',
    reachable n s'
    /\ workers s' st = mkWorker PCount (k + p) w
    /\ (forall q, queues s' q = queues s q)
    /\ (forall st', st' <> st -> workers s' st' = workers s st')
    /\ main s' = main s /\ next_id s' = next_id s /\ stdout s' = stdout s.
Proof.
  induction k as [|k IH]; intros s st p w R Hw Hq.
  - exists s. repeat split; auto.
  - destruct (IH s st p w R Hw Hq) as (s1 & R1 & W1 & Q1 & O1 & M1 & N1 & P1).
    destruct (polling_empty_poll s1 st (k + p) w R1 W1) as
        (s2 & R2 & W2 & Q2 & O2 & M2 & N2 & P2).
    { now rewrite Q1. }
    exists s2. split; [exact R2|]. split; [exact W2|].
    split; [intros q; now rewrite Q2, Q1|].
    split; [intros st' D; now rewrite O2, O1|].
    repeat split; congruence.
Qed.

(** One item through one worker: count, get, call, put, count. *)
Lemma polling_one_item s st p w x xs :
  reachable n s ->
  workers s st = mkWorker PCount p w ->
  MyQueue.items (queues s (in_queue_of st)) = x :: xs ->
  exists s',
    reachable n s'
    /\ workers s' st = mkWorker PCount (S p) (S w)
    /\ MyQueue.items (queues s' (in_queue_of st)) = xs
    /\ MyQueue.items (queues s' (out_queue_of st))
       = MyQueue.items (queues s (out_queue_of st)) ++ [x]
    /\ (forall q, q <> in_queue_of st -> q <> out_queue_of st ->
                  queues s' q = queues s q)
    /\ (forall st', st' <> st -> workers s' st' = workers s st')
    /\ main s' = main s /\ next_id s' = next_id s /\ stdout s' = stdout s.
Proof.
  intros R Hw Hq.
  destruct st; cbn in Hq;
    match type of Hw with
    | workers _ ?st = _ =>
        (eapply (polling_reachable_worker _ st) in R;
          [|unfold worker_step; rewrite Hw; reflexivity]);
        (eapply (polling_reachable_worker _ st) in R;
          [|unfold worker_step, MyQueue.get; cbn; rewrite Hq; reflexivity]);
        do 3 (eapply (polling_reachable_worker _ st) in R; [|reflexivity])
    end;
    (eexists; split; [exact R|]);
    cbn; repeat split; try reflexivity;
    intros []; intros; try congruence; reflexivity.
Qed.

Lemma polling_all_items xs : forall s st p w,
  reachable n s ->
  workers s st = mkWorker PCount p w ->
  MyQueue.items (queues s (in_queue_of st)) = xs ->
  exists s',
    reachable n s'
    /\ workers s' st = mkWorker PCount (length xs + p) (length xs + w)
    /\ MyQueue.items (queues s' (in_queue_of st)) = []
    /\ MyQueue.items (queues s' (out_queue_of st))
       = MyQueue.items (queues s (out_queue_of st)) ++ xs
    /\ (forall q, q <> in_queue_of st -> q <> out_queue_of st ->
                  queues s' q = queues s q)
    /\ (forall st', st' <> st -> workers s' st' = workers s st')
    /\ main s' = main s /\ next_id s' = next_id s /\ stdout s' = stdout s.
Proof.
  induction xs as [|x xs IH]; intros s st p w R Hw Hq.
  - exists s. rewrite app_nil_r. repeat split; auto.
  - destruct (polling_one_item s st p w x xs R Hw Hq) as
        (s1 & R1 & W1 & I1 & U1 & Q1 & O1 & M1 & N1 & P1).
    destruct (IH s1 st (S p) (S w) R1 W1 I1) as
        (s2 & R2 & W2 & I2 & U2 & Q2 & O2 & M2 & N2 & P2).
    exists s2. split; [exact R2|].
    split; [rewrite W2; simpl; f_equal; lia|].
    split; [exact I2|].
    split; [rewrite U2, U1, <- app_assoc; reflexivity|].
    split; [intros q D1 D2; now rewrite Q2, Q1|].
    split; [intros st' D; now rewrite O2, O1|].
    repeat split; congruence.
Qed.

(** The feeding loop of the main thread. *)
Lemma polling_feed k : forall s,
  reachable n s ->
  main s = MFeed k ->
  exists s',
    reachable n s'
    /\ main s' = MFeed 0
    /\ MyQueue.items (queues s' download_queue)
       = MyQueue.items (queues s download_queue) ++ map object (seq (next_id s) k)
    /\ (forall q, q <> download_queue -> queues s' q = queues s q)
    /\ (forall st, workers s' st = workers s st)
    /\ next_id s' = next_id s + k /\ stdout s' = stdout s.
Proof.
  induction k as [|k IH]; intros s R Hm.
  - exists s. simpl. rewrite app_nil_r. repeat split; auto.
  - eapply polling_reachable_main in R;
      [|unfold main_step; rewrite Hm; reflexivity].
    destruct (IH _ R eq_refl) as (s' & R' & M' & I' & Q' & W' & N' & P').
    exists s'. split; [exact R'|]. split; [exact M'|].
    cbn in I', Q', W', N', P'.
    split; [rewrite I', <- app_assoc; reflexivity|].
    split.
    { intros q D. rewrite (Q' q D). destruct q; try congruence; reflexivity. }
    split; [exact W'|]. split; [lia|exact P'].
Qed.

(** The end of [example_one], from the test of the waiting loop on. *)
Lemma polling_report s :
  reachable n s ->
  main s = MFeed 0 ->
  n <= length (MyQueue.items (queues s done_queue)) ->
  exists s',
    reachable n s'
    /\ main s' = MEnd
    /\ stdout s' = stdout s ++
         [(length (MyQueue.items (queues s done_queue)),
           polled_count (workers s Sdownload) + polled_count (workers s Sresize)
           + polled_count (workers s Supload))]
    /\ (forall q, queues s' q = queues s q)
    /\ (forall st, workers s' st = workers s st).
Proof.
  intros R Hm Hn.
  eapply polling_reachable_main in R; [|unfold main_step; rewrite Hm; reflexivity].
  eapply polling_reachable_main in R.
  2:{ unfold main_step; cbn [main queues].
      replace (length (MyQueue.items (queues s done_queue)) <? n) with false
        by (symmetry; apply Nat.ltb_ge; exact Hn).
      reflexivity. }
  do 6 (eapply polling_reachable_main in R; [|reflexivity]).
  eexists. split; [exact R|]. cbn. repeat split.
Qed.

End PollingRuns.

(** X10.  [example_one] can end, and the number of polls it reports is not
    bounded: for every number [n] of items and every [k] there is a run
    that prints [Processed n items after polling 3 * n + k times], after
    which the main thread has returned, every worker has done [n] pieces of
    work and waits to poll again, and [done_queue] holds the [n] objects in
    the order they were fed.  With [k = 0] the least count of polls,
    [3 * n], is printed. *)
Theorem example_one_can_finish (n k : nat) :
  exists s,
    Polling.reachable n s
    /\ Polling.main s = Polling.MEnd
    /\ Polling.stdout s = [(n, 3 * n + k)]
    /\ MyQueue.items (Polling.queues s Polling.done_queue) = map object (seq 1 n)
    /\ (forall st, Polling.work_done (Polling.workers s st) = n
                   /\ Polling.pc (Polling.workers s st) = Polling.PCount).
Proof.
  assert (R0 : Polling.reachable n (Polling.init n))
    by (exists []; apply Polling.reach_nil).
  destruct (polling_empty_polls n k (Polling.init n) Polling.Sdownload 0 0 R0
              eq_refl eq_refl) as (s1 & R1 & W1 & Q1 & O1 & M1 & N1 & P1).
  destruct (polling_feed n n s1 R1 M1) as (s2 & R2 & M2 & I2 & Q2 & W2 & N2 & P2).
  rewrite Q1, N1 in I2. cbn in I2.
  destruct (polling_all_items n (map object (seq 1 n)) s2 Polling.Sdownload (k + 0) 0 R2)
    as (s3 & R3 & W3 & I3 & U3 & Q3 & O3 & M3 & N3 & P3);
    [rewrite W2; exact W1|exact I2|].
  cbn in I3, U3. rewrite Q2, Q1 in U3 by discriminate. cbn in U3.
  destruct (polling_all_items n (map object (seq 1 n)) s3 Polling.Sresize 0 0 R3)
    as (s4 & R4 & W4 & I4 & U4 & Q4 & O4 & M4 & N4 & P4);
    [rewrite O3, W2, O1 by discriminate; reflexivity|exact U3|].
  cbn in I4, U4. rewrite Q3, Q2, Q1 in U4 by discriminate. cbn in U4.
  destruct (polling_all_items n (map object (seq 1 n)) s4 Polling.Supload 0 0 R4)
    as (s5 & R5 & W5 & I5 & U5 & Q5 & O5 & M5 & N5 & P5);
    [rewrite O4, O3, W2, O1 by discriminate; reflexivity|exact U4|].
  cbn in I5, U5. rewrite Q4, Q3, Q2, Q1 in U5 by discriminate. cbn in U5.
  rewrite length_map, length_seq in W3, W4, W5.
  assert (L5 : length (MyQueue.items (Polling.queues s5 Polling.done_queue)) = n)
    by (rewrite U5, length_map, length_seq; reflexivity).
  destruct (polling_report n s5 R5) as (s6 & R6 & M6 & P6 & Q6 & W6);
    [congruence|lia|].
  exists s6. split; [exact R6|]. split; [exact M6|].
  split.
  { rewrite P6, P5, P4, P3, P2, P1, L5, W5.
    rewrite (O5 Polling.Sresize), W4 by discriminate.
    rewrite (O5 Polling.Sdownload), (O4 Polling.Sdownload), W3 by discriminate.
    cbn. f_equal. f_equal. lia. }
  split; [rewrite Q6; exact U5|].
  intros st. rewrite W6. destruct st.
  - rewrite (O5 Polling.Sdownload), (O4 Polling.Sdownload), W3 by discriminate.
    cbn. split; [lia|reflexivity].
  - rewrite (O5 Polling.Sresize), W4 by discriminate. cbn. split; [lia|reflexivity].
  - rewrite W5. cbn. split; [lia|reflexivity].
Qed.
